(** * CCI: the ccieth receive path and the sock transport

    A shallow embedding of parts of the CCI sources:

    - [contrib/driver/ccieth/linux/ccieth_recv.c]: the kernel receive path
      for MSG packets ([ccieth_recv_msg], [ccieth__recv_msg]) and its entry
      point [ccieth_recv];
    - [src/plugins/core/sock/core_sock_api.c]: the sock transport (the
      address of a device in [sock_init], endpoint creation, ID bitmap, URI
      resolution, connect, send, the two progress passes, the RMA stub),
      once with its lists as sequences ([Sock]) and, for the send path,
      once with the link fields and the mutexes ([SockLinks]);
    - [src/tests/rma_verify.c]: the option handling of [main], the size
      loop of [do_client] and the CRC check;
    - cci.h ([cci_event_type_str]) and the GNI transport's header
      ([gni_tv_to_usecs]);
    - the RMA engine, which is not part of these sources, as the spec
      describes it ([Rma]).

    Conventions.  Machine integers are [Z]; where the C code converts or
    wraps, the conversion is written out.  In [Ccieth] and [Sock] kernel
    lists and TAILQs are Rocq lists in queue order, and mutexes and RCU
    sections are left out; [SockLinks] has the pointers of the TAILQs and
    the mutexes.  Every function is read as one thread of control. *)

From Stdlib Require Import ZArith Lia Bool.
From stdpp Require Import base option list gmap strings.

Local Open Scope Z_scope.

(* ===================================================================== *)
(** ** The ccieth receive path *)
(* ===================================================================== *)

Module Ccieth.

(** errno values used by the driver (asm-generic/errno-base.h). *)
Definition ENOMEM : Z := 12.
Definition EFAULT : Z := 14.
Definition EINVAL : Z := 22.

(** Modelled from the spec: the connection status enumeration lives in
    ccieth_common.h, which is not part of the sources.  The constructors
    follow the spec's data model ("INIT, REQUESTED, READY, REJECTED, FAILED,
    DISCONNECTED"); the receive path only tests for READY and REQUESTED. *)
Inductive ccieth_connection_status :=
| CCIETH_CONNECTION_INIT
| CCIETH_CONNECTION_REQUESTED
| CCIETH_CONNECTION_READY
| CCIETH_CONNECTION_REJECTED
| CCIETH_CONNECTION_FAILED
| CCIETH_CONNECTION_DISCONNECTED.

(** Modelled from the spec: the connection attributes of the missing
    header, after the spec's glossary (RO, RU, UU, UU_MC_TX, UU_MC_RX). *)
Inductive ccieth_connect_attr :=
| CCIETH_CONNECT_ATTR_RO
| CCIETH_CONNECT_ATTR_RU
| CCIETH_CONNECT_ATTR_UU
| CCIETH_CONNECT_ATTR_UU_MC_TX
| CCIETH_CONNECT_ATTR_UU_MC_RX.

#[global] Instance ccieth_connection_status_eq_dec :
  EqDecision ccieth_connection_status.
Proof. solve_decision. Defined.

#[global] Instance ccieth_connect_attr_eq_dec : EqDecision ccieth_connect_attr.
Proof. solve_decision. Defined.

(** [struct ccieth_pkt_header_msg], fields already in host order (the code
    reads each of them through [ntohl]; all four are [__u32]). *)
Record ccieth_pkt_header_msg := {
  dst_ep_id : Z;
  dst_conn_id : Z;
  msg_seqnum : Z;
  msg_len : Z
}.

(** A socket buffer: the bytes of the frame, and the MSG header the wire
    layout of ccieth_wire.h decodes from its first bytes (the size of the header struct). *)
Record sk_buff := {
  skb_hdr : ccieth_pkt_header_msg;
  skb_data : list Z
}.

(** [skb->len] *)
Definition skb_len (skb : sk_buff) : Z := Z.of_nat (length (skb_data skb)).

(** Event types of the ioctl interface; only RECV is produced here. *)
Inductive ccieth_ioctl_event_type :=
| CCIETH_IOCTL_EVENT_NONE
| CCIETH_IOCTL_EVENT_RECV.

(** [struct ccieth_endpoint_event] together with the buffer that follows it
    in memory ([event+1]). *)
Record ccieth_endpoint_event := {
  event_type : ccieth_ioctl_event_type;
  event_data_length : Z;
  event_recv_user_conn_id : Z;
  event_buffer : list Z
}.

Record ccieth_connection := {
  status : ccieth_connection_status;
  attribute : ccieth_connect_attr;
  user_conn_id : Z;
  (** deferred-RX list of a UU connection whose handshake is not finished *)
  deferred_recv : list sk_buff
}.

Record ccieth_endpoint := {
  ifp : option Z;                       (* rcu pointer to the net_device *)
  max_send_size : Z;
  free_event_list : list ccieth_endpoint_event;
  event_list : list ccieth_endpoint_event;
  connection_idr : gmap Z ccieth_connection
}.

(** Modelled from the spec: the type tags of ccieth_wire.h are not part of
    the sources; these are the tags of the spec's Packet description.  They
    label the frames the driver hands to the interface for transmission. *)
Inductive pkt_type :=
| PKT_REQUEST | PKT_REPLY | PKT_ACK_HANDSHAKE | PKT_REJECT | PKT_MSG
| PKT_ACK | PKT_NACK_RNR | PKT_RMA_WRITE | PKT_RMA_READ_REQ
| PKT_RMA_READ_REPLY | PKT_KEEPALIVE.

#[global] Instance pkt_type_eq_dec : EqDecision pkt_type.
Proof. solve_decision. Defined.

Record frame := {
  frame_type : pkt_type;
  frame_seqnum : Z
}.

(** The driver state the receive path sees: the global endpoint idr, and the
    frames the driver has queued for transmission. *)
Record driver := {
  ccieth_ep_idr : gmap Z ccieth_endpoint;
  xmit : list frame
}.

(** What a receive function does with control: it returns an error code and
    a new state, or it hits [BUG_ON]. *)
Inductive kresult (A : Type) :=
| KReturn (err : Z) (st : A)
| KBug.
Arguments KReturn {A} err st.
Arguments KBug {A}.

(** C conversion of an unsigned value to [int] (32 bits, two's complement). *)
Definition to_int (z : Z) : Z := (z + 2 ^ 31) mod 2 ^ 32 - 2 ^ 31.

(** Arithmetic in [size_t] on the LP64 kernel. *)
Definition size_t_wrap (z : Z) : Z := z mod 2 ^ 64.

(** [skb_header_pointer(skb, 0, len, &buf)]: NULL when the frame is shorter
    than the header. *)
Definition skb_header_pointer (skb : sk_buff) (len : Z)
  : option ccieth_pkt_header_msg :=
  if len <=? skb_len skb then Some (skb_hdr skb) else None.

(** [skb_copy_bits(skb, offset, to, len)] of the kernel ([int offset],
    [int len]): [-EFAULT] when [offset > (int)skb->len - len], else the
    bytes and 0. *)
Definition skb_copy_bits (skb : sk_buff) (offset len : Z) : Z * list Z :=
  let offset := to_int offset in
  let len := to_int len in
  if offset >? to_int (skb_len skb) - len then (- EFAULT, [])
  else (0, take (Z.to_nat len) (drop (Z.to_nat offset) (skb_data skb))).

Definition set_event_lists (ep : ccieth_endpoint)
    (free evs : list ccieth_endpoint_event) : ccieth_endpoint :=
  {| ifp := ifp ep; max_send_size := max_send_size ep;
     free_event_list := free; event_list := evs;
     connection_idr := connection_idr ep |}.

Definition set_connection (ep : ccieth_endpoint) (id : Z)
    (conn : ccieth_connection) : ccieth_endpoint :=
  {| ifp := ifp ep; max_send_size := max_send_size ep;
     free_event_list := free_event_list ep; event_list := event_list ep;
     connection_idr := <[id := conn]> (connection_idr ep) |}.

Definition set_endpoint (d : driver) (id : Z) (ep : ccieth_endpoint) : driver :=
  {| ccieth_ep_idr := <[id := ep]> (ccieth_ep_idr d); xmit := xmit d |}.

(** [ccieth__recv_msg]: take an event slot, copy the payload behind it and
    queue it on the endpoint's event list.  The skb is freed on both exits. *)
Definition ccieth__recv_msg (hdr_size : Z) (ep : ccieth_endpoint)
    (conn : ccieth_connection) (hdr : ccieth_pkt_header_msg) (skb : sk_buff)
  : kresult ccieth_endpoint :=
  let msg_len := msg_len hdr in
  match free_event_list ep with
  | [] => KReturn (- ENOMEM) ep
  | event :: free =>
      let '(err, bytes) := skb_copy_bits skb hdr_size msg_len in
      if err <? 0 then KBug
      else
        let event :=
          {| event_type := CCIETH_IOCTL_EVENT_RECV;
             event_data_length := msg_len;
             event_recv_user_conn_id := user_conn_id conn;
             event_buffer := bytes |} in
        KReturn 0 (set_event_lists ep free (event_list ep ++ [event]))
  end.

(** Modelled from the spec: [ccieth_conn_uu_defer_recv_msg] is defined in a
    file that is not part of the sources.  After the spec's data model
    ("deferred-RX list (UU pre-handshake)") it appends the skb to the
    connection's deferred list. *)
Definition ccieth_conn_uu_defer_recv_msg (conn : ccieth_connection)
    (skb : sk_buff) : ccieth_connection :=
  {| status := status conn; attribute := attribute conn;
     user_conn_id := user_conn_id conn;
     deferred_recv := deferred_recv conn ++ [skb] |}.

(** [ccieth_recv_msg]: header, endpoint lookup, length check, connection
    lookup, then dispatch on the connection status. *)
Definition ccieth_recv_msg (hdr_size : Z) (d : driver) (ifp_ : Z)
    (skb : sk_buff) : kresult driver :=
  match skb_header_pointer skb hdr_size with
  | None => KReturn (- EINVAL) d
  | Some hdr =>
      let dst_ep := dst_ep_id hdr in
      let dst_conn := dst_conn_id hdr in
      let msg_len := msg_len hdr in
      match ccieth_ep_idr d !! dst_ep with
      | None => KReturn (- EINVAL) d
      | Some ep =>
          if negb (bool_decide (ifp ep = Some ifp_)) then KReturn (- EINVAL) d
          else if (msg_len >? max_send_size ep)
                  || (skb_len skb <? size_t_wrap (hdr_size + msg_len))
          then KReturn (- EINVAL) d
          else
            match connection_idr ep !! dst_conn with
            | None => KReturn (- EINVAL) d
            | Some conn =>
                if bool_decide (status conn = CCIETH_CONNECTION_READY) then
                  match ccieth__recv_msg hdr_size ep conn hdr skb with
                  | KReturn err ep' => KReturn err (set_endpoint d dst_ep ep')
                  | KBug => KBug
                  end
                else if bool_decide (status conn = CCIETH_CONNECTION_REQUESTED)
                        && bool_decide (attribute conn = CCIETH_CONNECT_ATTR_UU)
                then
                  let conn' := ccieth_conn_uu_defer_recv_msg conn skb in
                  KReturn 0 (set_endpoint d dst_ep (set_connection ep dst_conn conn'))
                else KReturn (- EINVAL) d
            end
      end
  end.

(** Observations used by the statements below. *)

(** the events queued on endpoint [id], [[]] when there is no such endpoint *)
Definition events_of (d : driver) (id : Z) : list ccieth_endpoint_event :=
  match ccieth_ep_idr d !! id with
  | Some ep => event_list ep
  | None => []
  end.

(** the deferred-RX list of connection [cid] of endpoint [id] *)
Definition deferred_of (d : driver) (id cid : Z) : list sk_buff :=
  match ccieth_ep_idr d !! id with
  | Some ep =>
      match connection_idr ep !! cid with
      | Some conn => deferred_recv conn
      | None => []
      end
  | None => []
  end.

(** the frame is an RNR NACK for sequence number [seq] *)
Definition is_rnr_nack (seq : Z) (f : frame) : bool :=
  bool_decide (frame_type f = PKT_NACK_RNR) && (frame_seqnum f =? seq).

(** The MSG packet [skb], arriving on interface [ifp_], passes the checks of
    [ccieth_recv_msg] and names connection [conn] of endpoint [ep]. *)
Definition addressed_to (hdr_size : Z) (d : driver) (ifp_ : Z) (skb : sk_buff)
    (ep : ccieth_endpoint) (conn : ccieth_connection) : Prop :=
  let hdr := skb_hdr skb in
  hdr_size <= skb_len skb
  /\ ccieth_ep_idr d !! dst_ep_id hdr = Some ep
  /\ ifp ep = Some ifp_
  /\ msg_len hdr <= max_send_size ep
  /\ size_t_wrap (hdr_size + msg_len hdr) <= skb_len skb
  /\ connection_idr ep !! dst_conn_id hdr = Some conn.

(** Sizes as the kernel has them: the header size and the frame length fit
    an [int], the length field is a [__u32]. *)
Definition sizes_in_range (hdr_size : Z) (skb : sk_buff) : Prop :=
  0 <= hdr_size < 2 ^ 31
  /\ skb_len skb < 2 ^ 31
  /\ 0 <= msg_len (skb_hdr skb) < 2 ^ 32.

(** A sample driver state: endpoint 5 on interface 7 with one connection,
    numbered 3, and a six-byte MSG frame for it (header of four bytes). *)
Definition sample_conn (st : ccieth_connection_status)
    (attr : ccieth_connect_attr) : ccieth_connection :=
  {| status := st; attribute := attr; user_conn_id := 11; deferred_recv := [] |}.

Definition sample_slot : ccieth_endpoint_event :=
  {| event_type := CCIETH_IOCTL_EVENT_NONE; event_data_length := 0;
     event_recv_user_conn_id := 0; event_buffer := [] |}.

Definition sample_ep (free : list ccieth_endpoint_event)
    (conn : ccieth_connection) : ccieth_endpoint :=
  {| ifp := Some 7; max_send_size := 1024; free_event_list := free;
     event_list := []; connection_idr := {[ 3 := conn ]} |}.

Definition sample_driver (ep : ccieth_endpoint) : driver :=
  {| ccieth_ep_idr := {[ 5 := ep ]}; xmit := [] |}.

Definition sample_skb : sk_buff :=
  {| skb_hdr := {| dst_ep_id := 5; dst_conn_id := 3; msg_seqnum := 9; msg_len := 2 |};
     skb_data := [0; 0; 0; 0; 65; 66] |}.

(** The receiver answers the packet with an RNR NACK that carries the
    packet's sequence number. *)
Definition replies_rnr_nack (hdr_size : Z) (d : driver) (ifp_ : Z)
    (skb : sk_buff) : Prop :=
  match ccieth_recv_msg hdr_size d ifp_ skb with
  | KReturn _ d' =>
      exists f, f ∈ xmit d' /\ is_rnr_nack (msg_seqnum (skb_hdr skb)) f = true
  | KBug => False
  end.

End Ccieth.

(* ===================================================================== *)
(** ** The sock transport *)
(* ===================================================================== *)

Module Sock.

(** *** cci.h *)

(** [enum cci_status].  The functions return [int]; a value that is not a
    CCI status (the code returns [getaddrinfo]'s result or [errno] as they
    are) is kept as [foreign_code]. *)
Inductive cci_status :=
| CCI_SUCCESS
| CCI_ERROR
| CCI_ERR_DISCONNECTED
| CCI_ERR_RNR
| CCI_ERR_DEVICE_DEAD
| CCI_ERR_RMA_HANDLE
| CCI_ERR_RMA_OP
| CCI_ERR_NOT_IMPLEMENTED
| CCI_ERR_NOT_FOUND
| CCI_EINVAL
| CCI_ETIMEDOUT
| CCI_ENOMEM
| CCI_ENODEV
| CCI_ENETDOWN
| CCI_EBUSY
| CCI_ERANGE
| CCI_EAGAIN
| CCI_ENOBUFS
| CCI_EMSGSIZE
| CCI_ENOMSG
| CCI_EADDRNOTAVAIL
| CCI_ECONNREFUSED
| foreign_code (code : Z).

#[global] Instance cci_status_eq_dec : EqDecision cci_status.
Proof. solve_decision. Defined.

(** [enum cci_conn_attribute]: a plain enumeration, numbered from 0. *)
Definition CCI_CONN_ATTR_RO : Z := 0.
Definition CCI_CONN_ATTR_RU : Z := 1.
Definition CCI_CONN_ATTR_UU : Z := 2.
Definition CCI_CONN_ATTR_UU_MC_TX : Z := 3.
Definition CCI_CONN_ATTR_UU_MC_RX : Z := 4.

Definition CCI_FLAG_BLOCKING : Z := Z.shiftl 1 0.
Definition CCI_FLAG_NO_COPY : Z := Z.shiftl 1 1.
Definition CCI_FLAG_SILENT : Z := Z.shiftl 1 3.
Definition CCI_FLAG_READ : Z := Z.shiftl 1 4.
Definition CCI_FLAG_WRITE : Z := Z.shiftl 1 5.
Definition CCI_FLAG_FENCE : Z := Z.shiftl 1 6.

(** errno values (Linux) the send path looks at. *)
Definition EINTR : Z := 4.
Definition EAGAIN : Z := 11.
Definition ENOMEM : Z := 12.
Definition ENOBUFS : Z := 105.

(** *** core_sock.h

    The header is not part of the sources.  Its constants are parameters of
    the model; the structures are reconstructed from the fields the code
    uses. *)
Class core_sock_h := {
  SOCK_BLOCK_SIZE : Z;
  SOCK_PROG_FREQ : Z;
  SOCK_RESEND_TIME : Z;
  SOCK_AM_SIZE : Z;
  sizeof_sock_header_t : Z;
  sizeof_sock_seq_ack_t : Z
}.

Inductive sock_msg_type :=
| SOCK_MSG_SEND
| SOCK_MSG_CONN_REQUEST
| SOCK_MSG_CONN_REPLY
| SOCK_MSG_CONN_ACK
| SOCK_MSG_other (tag : Z).

Inductive sock_tx_state :=
| SOCK_TX_IDLE
| SOCK_TX_QUEUED
| SOCK_TX_PENDING
| SOCK_TX_COMPLETED.

Inductive sock_conn_status :=
| SOCK_CONN_CLOSED
| SOCK_CONN_ACTIVE.

(** Event types this version of the transport uses. *)
Inductive cci_event_type :=
| CCI_EVENT_NONE
| CCI_EVENT_SEND
| CCI_EVENT_CONNECT_SUCCESS
| CCI_EVENT_CONNECT_TIMEOUT.

(** The union [event->info]: the member last written.  Connections are
    named by their address (an index into the connection table). *)
Inductive cci_event_info :=
| info_none
| info_send (connection : nat) (context : Z) (status : cci_status)
| info_other (context : Z) (connection : nat).

#[global] Instance sock_msg_type_eq_dec : EqDecision sock_msg_type.
Proof. solve_decision. Defined.
#[global] Instance sock_tx_state_eq_dec : EqDecision sock_tx_state.
Proof. solve_decision. Defined.
#[global] Instance sock_conn_status_eq_dec : EqDecision sock_conn_status.
Proof. solve_decision. Defined.
#[global] Instance cci_event_type_eq_dec : EqDecision cci_event_type.
Proof. solve_decision. Defined.
#[global] Instance cci_event_info_eq_dec : EqDecision cci_event_info.
Proof. solve_decision. Defined.

(** [sock_tx_t], with its embedded event [tx->evt]. *)
Record sock_tx := {
  msg_type : sock_msg_type;
  flags : Z;
  state : sock_tx_state;
  seq : Z;
  cycles : Z;
  resends : Z;
  len : Z;
  evt_type : cci_event_type;
  evt_info : cci_event_info
}.

(** [cci__conn_t] with its public [cci_connection_t]; [priv] is the address
    of the [sock_conn_t]. *)
Record cci_conn := {
  attribute : Z;
  max_send_size : Z;
  uri : string;
  tx_timeout : Z;
  priv : option nat
}.

(** [sock_conn_t] *)
Record sock_conn := {
  sconn_status : sock_conn_status;
  sin_port : Z;
  sin_addr : Z;
  id : Z;
  peer_id : Z;
  sconn_seq : Z;
  sconn_ack : Z
}.

(** One [sendto(2)] on the endpoint's datagram socket: the datagram is taken
    whole, or the call fails with an errno. *)
Inductive sysres :=
| sys_sent
| sys_error (e : Z).

(** The transport's world: one device with one endpoint, the objects they
    point to, and the environment (what the kernel will answer to the next
    [sendto] calls, [errno], what [random()] will return next). *)
Record sock_state := {
  sglobals : bool;                 (* sglobals != NULL *)
  txs : list sock_tx;              (* tx descriptors, by address *)
  conns : list cci_conn;           (* connections, by address *)
  sconns : list sock_conn;         (* their private parts, by address *)
  ep_tx_timeout : Z;               (* ep->tx_timeout *)
  ep_buffer_len : Z;               (* ep->buffer_len *)
  ep_evts : list nat;              (* ep->evts, of &tx->evt *)
  sep_idle_txs : list nat;         (* sep->idle_txs *)
  sep_ids : list Z;                (* sep->ids, 64-bit blocks *)
  sdev_queued : list nat;          (* sdev->queued *)
  sdev_pending : list nat;         (* sdev->pending *)
  kernel : list sysres;
  errno : Z;
  prng : list Z
}.

#[global] Instance sock_tx_eq_dec : EqDecision sock_tx.
Proof. solve_decision. Defined.
#[global] Instance cci_conn_eq_dec : EqDecision cci_conn.
Proof. solve_decision. Defined.
#[global] Instance sock_conn_eq_dec : EqDecision sock_conn.
Proof. solve_decision. Defined.
#[global] Instance sysres_eq_dec : EqDecision sysres.
Proof. solve_decision. Defined.
#[global] Instance sock_state_eq_dec : EqDecision sock_state.
Proof. solve_decision. Defined.

(** Field updates of the state. *)
Definition set_txs (v : list sock_tx) (st : sock_state) : sock_state :=
  {| sglobals := sglobals st; txs := v; conns := conns st;
     sconns := sconns st; ep_tx_timeout := ep_tx_timeout st;
     ep_buffer_len := ep_buffer_len st; ep_evts := ep_evts st;
     sep_idle_txs := sep_idle_txs st; sep_ids := sep_ids st;
     sdev_queued := sdev_queued st; sdev_pending := sdev_pending st;
     kernel := kernel st; errno := errno st; prng := prng st |}.

Definition set_conns (v : list cci_conn) (st : sock_state) : sock_state :=
  {| sglobals := sglobals st; txs := txs st; conns := v; sconns := sconns st;
     ep_tx_timeout := ep_tx_timeout st; ep_buffer_len := ep_buffer_len st;
     ep_evts := ep_evts st; sep_idle_txs := sep_idle_txs st;
     sep_ids := sep_ids st; sdev_queued := sdev_queued st;
     sdev_pending := sdev_pending st; kernel := kernel st; errno := errno st;
     prng := prng st |}.

Definition set_sconns (v : list sock_conn) (st : sock_state) : sock_state :=
  {| sglobals := sglobals st; txs := txs st; conns := conns st; sconns := v;
     ep_tx_timeout := ep_tx_timeout st; ep_buffer_len := ep_buffer_len st;
     ep_evts := ep_evts st; sep_idle_txs := sep_idle_txs st;
     sep_ids := sep_ids st; sdev_queued := sdev_queued st;
     sdev_pending := sdev_pending st; kernel := kernel st; errno := errno st;
     prng := prng st |}.

Definition set_ep_evts (v : list nat) (st : sock_state) : sock_state :=
  {| sglobals := sglobals st; txs := txs st; conns := conns st;
     sconns := sconns st; ep_tx_timeout := ep_tx_timeout st;
     ep_buffer_len := ep_buffer_len st; ep_evts := v;
     sep_idle_txs := sep_idle_txs st; sep_ids := sep_ids st;
     sdev_queued := sdev_queued st; sdev_pending := sdev_pending st;
     kernel := kernel st; errno := errno st; prng := prng st |}.

Definition set_sep_idle_txs (v : list nat) (st : sock_state) : sock_state :=
  {| sglobals := sglobals st; txs := txs st; conns := conns st;
     sconns := sconns st; ep_tx_timeout := ep_tx_timeout st;
     ep_buffer_len := ep_buffer_len st; ep_evts := ep_evts st;
     sep_idle_txs := v; sep_ids := sep_ids st; sdev_queued := sdev_queued st;
     sdev_pending := sdev_pending st; kernel := kernel st; errno := errno st;
     prng := prng st |}.

Definition set_sep_ids (v : list Z) (st : sock_state) : sock_state :=
  {| sglobals := sglobals st; txs := txs st; conns := conns st;
     sconns := sconns st; ep_tx_timeout := ep_tx_timeout st;
     ep_buffer_len := ep_buffer_len st; ep_evts := ep_evts st;
     sep_idle_txs := sep_idle_txs st; sep_ids := v;
     sdev_queued := sdev_queued st; sdev_pending := sdev_pending st;
     kernel := kernel st; errno := errno st; prng := prng st |}.

Definition set_sdev_queued (v : list nat) (st : sock_state) : sock_state :=
  {| sglobals := sglobals st; txs := txs st; conns := conns st;
     sconns := sconns st; ep_tx_timeout := ep_tx_timeout st;
     ep_buffer_len := ep_buffer_len st; ep_evts := ep_evts st;
     sep_idle_txs := sep_idle_txs st; sep_ids := sep_ids st;
     sdev_queued := v; sdev_pending := sdev_pending st; kernel := kernel st;
     errno := errno st; prng := prng st |}.

Definition set_sdev_pending (v : list nat) (st : sock_state) : sock_state :=
  {| sglobals := sglobals st; txs := txs st; conns := conns st;
     sconns := sconns st; ep_tx_timeout := ep_tx_timeout st;
     ep_buffer_len := ep_buffer_len st; ep_evts := ep_evts st;
     sep_idle_txs := sep_idle_txs st; sep_ids := sep_ids st;
     sdev_queued := sdev_queued st; sdev_pending := v; kernel := kernel st;
     errno := errno st; prng := prng st |}.

Definition set_kernel (v : list sysres) (st : sock_state) : sock_state :=
  {| sglobals := sglobals st; txs := txs st; conns := conns st;
     sconns := sconns st; ep_tx_timeout := ep_tx_timeout st;
     ep_buffer_len := ep_buffer_len st; ep_evts := ep_evts st;
     sep_idle_txs := sep_idle_txs st; sep_ids := sep_ids st;
     sdev_queued := sdev_queued st; sdev_pending := sdev_pending st;
     kernel := v; errno := errno st; prng := prng st |}.

Definition set_errno (v : Z) (st : sock_state) : sock_state :=
  {| sglobals := sglobals st; txs := txs st; conns := conns st;
     sconns := sconns st; ep_tx_timeout := ep_tx_timeout st;
     ep_buffer_len := ep_buffer_len st; ep_evts := ep_evts st;
     sep_idle_txs := sep_idle_txs st; sep_ids := sep_ids st;
     sdev_queued := sdev_queued st; sdev_pending := sdev_pending st;
     kernel := kernel st; errno := v; prng := prng st |}.

Definition set_prng (v : list Z) (st : sock_state) : sock_state :=
  {| sglobals := sglobals st; txs := txs st; conns := conns st;
     sconns := sconns st; ep_tx_timeout := ep_tx_timeout st;
     ep_buffer_len := ep_buffer_len st; ep_evts := ep_evts st;
     sep_idle_txs := sep_idle_txs st; sep_ids := sep_ids st;
     sdev_queued := sdev_queued st; sdev_pending := sdev_pending st;
     kernel := kernel st; errno := errno st; prng := v |}.

(** Field updates of a tx descriptor. *)
Definition tx_set_state (v : sock_tx_state) (tx : sock_tx) : sock_tx :=
  {| msg_type := msg_type tx; flags := flags tx; state := v; seq := seq tx;
     cycles := cycles tx; resends := resends tx; len := len tx;
     evt_type := evt_type tx; evt_info := evt_info tx |}.

Definition tx_set_cycles (v : Z) (tx : sock_tx) : sock_tx :=
  {| msg_type := msg_type tx; flags := flags tx; state := state tx;
     seq := seq tx; cycles := v; resends := resends tx; len := len tx;
     evt_type := evt_type tx; evt_info := evt_info tx |}.

Definition tx_set_resends (v : Z) (tx : sock_tx) : sock_tx :=
  {| msg_type := msg_type tx; flags := flags tx; state := state tx;
     seq := seq tx; cycles := cycles tx; resends := v; len := len tx;
     evt_type := evt_type tx; evt_info := evt_info tx |}.

Definition tx_set_len (v : Z) (tx : sock_tx) : sock_tx :=
  {| msg_type := msg_type tx; flags := flags tx; state := state tx;
     seq := seq tx; cycles := cycles tx; resends := resends tx; len := v;
     evt_type := evt_type tx; evt_info := evt_info tx |}.

Definition tx_set_evt_type (v : cci_event_type) (tx : sock_tx) : sock_tx :=
  {| msg_type := msg_type tx; flags := flags tx; state := state tx;
     seq := seq tx; cycles := cycles tx; resends := resends tx;
     len := len tx; evt_type := v; evt_info := evt_info tx |}.

Definition tx_set_evt_info (v : cci_event_info) (tx : sock_tx) : sock_tx :=
  {| msg_type := msg_type tx; flags := flags tx; state := state tx;
     seq := seq tx; cycles := cycles tx; resends := resends tx;
     len := len tx; evt_type := evt_type tx; evt_info := v |}.

(** What a call of the transport does with control. *)
Inductive outcome (A : Type) :=
| Ret (v : A) (st : sock_state)   (* it returns v *)
| Abort (st : sock_state)         (* an assert() fails *)
| Spin (st : sock_state)          (* it loops forever, the state staying st *)
| Starved                         (* the model's random() inputs ran out *)
| Fault.                          (* it uses an invalid pointer or shift *)
Arguments Ret {A} v st.
Arguments Abort {A} st.
Arguments Spin {A} st.
Arguments Starved {A}.
Arguments Fault {A}.

(** What the body of a TAILQ_FOREACH does with control. *)
Inductive step :=
| Next (st : sock_state)          (* on to the next element *)
| Stop (st : sock_state)          (* return from the function *)
| StepAbort (st : sock_state)
| StepFault.

(** TAILQ heads as the list of elements inserted and not removed.  A tx has
    one link field ([dentry]) for the queued, pending and idle lists, and
    the code inserts a tx into one list while it is still on another: the
    model keeps, for each head, the elements it was given, and does not
    follow the links that such an insertion overwrites.  An element listed
    twice in one list stands for a queue whose links are corrupted.  The
    lists are those of the code as long as a descriptor is on one list at
    a time; [SockLinks] below follows the links, and has the mutexes, which
    are left out here. *)
Definition TAILQ_INSERT_TAIL (q : list nat) (x : nat) : list nat := q ++ [x].
Definition TAILQ_INSERT_HEAD (q : list nat) (x : nat) : list nat := x :: q.
Fixpoint TAILQ_REMOVE (q : list nat) (x : nat) : list nat :=
  match q with
  | [] => []
  | y :: q' => if bool_decide (y = x) then q' else y :: TAILQ_REMOVE q' x
  end.

(** [TAILQ_FOREACH_SAFE]: the next element is read before the body runs. *)
Fixpoint TAILQ_FOREACH_SAFE (body : sock_state -> nat -> step)
    (q : list nat) (st : sock_state) : step :=
  match q with
  | [] => Next st
  | x :: q' =>
      match body st x with
      | Next st' => TAILQ_FOREACH_SAFE body q' st'
      | r => r
      end
  end.

(** C integer conversions. *)
Definition uint32 (z : Z) : Z := z mod 2 ^ 32.
Definition uint64 (z : Z) : Z := z mod 2 ^ 64.

(** [1 << offset] in type [int].  Below offset 31 the result is the power of
    two.  At offset 31 it does not fit an [int]; gcc, which documents that it
    defines this case of [<<], gives INT_MIN, and the conversion to
    [uint64_t] for the [&] and [|=] turns that into bits 31 to 63.  From
    offset 32 on the shift count reaches the width of [int] and the shift
    is undefined. *)
Definition int_shl_1 (offset : Z) : option Z :=
  if (0 <=? offset) && (offset <? 31) then Some (Z.shiftl 1 offset)
  else if offset =? 31 then Some (- 2 ^ 31)
  else None.

Section Transport.
Context `{core_sock_h}.

(** *** The ID bitmap *)

(** [sock_get_id]: draw random numbers until one names a clear bit. *)
Fixpoint sock_get_id_loop (rnd : list Z) (st : sock_state) : outcome Z :=
  match rnd with
  | [] => Starved
  | r :: rnd' =>
      let n := uint32 r in
      let block := n / SOCK_BLOCK_SIZE in
      let offset := n mod SOCK_BLOCK_SIZE in
      match sep_ids st !! Z.to_nat block, int_shl_1 offset with
      | Some b, Some bit =>
          if Z.land b (uint64 bit) =? 0 then
            let b' := Z.lor b (uint64 bit) in
            Ret (uint32 (block * SOCK_BLOCK_SIZE + offset))
                (set_prng rnd' (set_sep_ids (<[Z.to_nat block := b']> (sep_ids st)) st))
          else sock_get_id_loop rnd' st
      | _, _ => Fault
      end
  end.

Definition sock_get_id (st : sock_state) : outcome Z :=
  sock_get_id_loop (prng st) st.

(** [sock_put_id]: assert the bit, then clear it.  [~(1 << offset)] is an
    [int], converted to 64 bits for the [&=]. *)
Definition sock_put_id (st : sock_state) (id : Z) : outcome unit :=
  let block := id / SOCK_BLOCK_SIZE in
  let offset := id mod SOCK_BLOCK_SIZE in
  match sep_ids st !! Z.to_nat block, int_shl_1 offset with
  | Some b, Some bit =>
      if Z.land b (uint64 bit) =? 1 then
        let b' := Z.land b (uint64 (Z.lnot bit)) in
        Ret tt (set_sep_ids (<[Z.to_nat block := b']> (sep_ids st)) st)
      else Abort st
  | _, _ => Fault
  end.

(** *** URI resolution *)

(** [sock_getaddrinfo].  [getaddrinfo] is libc's: the name to resolve gives
    the return code and, for code 0, the IPv4 address.  [colon = '\0']
    assigns the local pointer, not the byte it points to: the host name the
    resolver gets is everything after the scheme. *)
Definition sock_getaddrinfo (getaddrinfo : string -> Z * Z) (uri : string)
  : cci_status + Z :=
  if String.prefix "ip://" uri then
    let hostname := String.substring 5 (String.length uri - 5) uri in
    let colon := String.index 0 ":" hostname in
    let colon : option nat := match colon with Some _ => None | None => colon end in
    let '(ret, addr) := getaddrinfo hostname in
    if negb (ret =? 0) then inl (foreign_code ret) else inr addr
  else inl CCI_EINVAL.

(** [sock_getaddrinfo] with the value that its local [ai] holds on entry
    (0 for NULL).  [getaddrinfo] assigns [ai] only when it succeeds; on
    the failure path the code hands [ai] as it is to [freeaddrinfo], which
    does nothing for NULL and frees through the pointer otherwise: [None]
    is that use of an invalid pointer.  As above, [colon = '\0'] changes
    nothing.  [sock_getaddrinfo] above is the function with NULL in
    [ai]. *)
Definition sock_getaddrinfo_ai (ai : Z) (getaddrinfo : string -> Z * Z)
    (uri : string) : option (cci_status + Z) :=
  if String.prefix "ip://" uri then
    let hostname := String.substring 5 (String.length uri - 5) uri in
    let '(ret, addr) := getaddrinfo hostname in
    if negb (ret =? 0) then
      (* freeaddrinfo(ai); return ret; *)
      if ai =? 0 then Some (inl (foreign_code ret)) else None
    else Some (inr addr)
  else Some (inl CCI_EINVAL).

(** *** The wire *)

(** [sock_sendto]: loop over [sendto] until everything is sent; [EINTR]
    retries, any other error returns [errno].  Gives the return value, the
    new [errno] and the rest of the kernel's answers (when they run out, the
    kernel takes the datagram). *)
Fixpoint sock_sendto (k : list sysres) (e : Z) (len : Z) : Z * Z * list sysres :=
  if len =? 0 then (0, e, k)
  else
    match k with
    | [] => (len, e, [])
    | sys_sent :: k' => (len, e, k')
    | sys_error e' :: k' =>
        if e' =? EINTR then sock_sendto k' e' len else (e', e', k')
    end.

(** The [again:] loop of [sock_progress_queued]: call [sock_sendto] until it
    returns -1 or nothing is left. *)
Fixpoint sock_send_again (fuel : nat) (k : list sysres) (e : Z) (left : Z)
  : option (Z * Z * list sysres) :=
  match fuel with
  | O => None
  | S fuel' =>
      let '(ret, e', k') := sock_sendto k e left in
      if ret =? -1 then Some (ret, e', k')
      else if left - ret =? 0 then Some (ret, e', k')
      else sock_send_again fuel' k' e' (left - ret)
  end.

(** *** The progress passes *)

(** The reliability test of the transport, on the enumeration's values:
    [attribute & CCI_CONN_ATTR_RO || attribute & CCI_CONN_ATTR_RU]. *)
Definition is_reliable (attribute : Z) : bool :=
  negb (Z.land attribute CCI_CONN_ATTR_RO =? 0)
  || negb (Z.land attribute CCI_CONN_ATTR_RU =? 0).

(** [event->info.send.status = status] *)
Definition set_send_status (i : cci_event_info) (status : cci_status)
  : option cci_event_info :=
  match i with
  | info_send connection context _ => Some (info_send connection context status)
  | _ => None
  end.

(** The connection a queued tx belongs to, read through the union member
    that the event type selects. *)
Definition queued_connection (tx : sock_tx) : option nat :=
  match evt_type tx, evt_info tx with
  | CCI_EVENT_SEND, info_send connection _ _ => Some connection
  | CCI_EVENT_SEND, _ => None
  | _, info_other _ connection => Some connection
  | _, _ => None
  end.

(** The body of the loop of [sock_progress_pending], for the tx at [t]. *)
Definition sock_progress_pending_tx (st : sock_state) (t : nat) : step :=
  match txs st !! t with
  | None => StepFault
  | Some tx =>
      match evt_info tx with
      | info_send connection context _ =>
          match conns st !! connection with
          | None => StepFault
          | Some conn =>
              let tx := tx_set_cycles (cycles tx + 1) tx in
              let tx := tx_set_resends (resends tx + 1) tx in
              if (resends tx >=? ep_tx_timeout st)
                 || (resends tx >=? tx_timeout conn)
              then
                let tx := tx_set_evt_info (info_send connection context CCI_ETIMEDOUT) tx in
                Next (set_ep_evts (TAILQ_INSERT_TAIL (ep_evts st) t)
                       (set_sdev_pending (TAILQ_REMOVE (sdev_pending st) t)
                         (set_txs (<[t := tx]> (txs st)) st)))
              else
                match priv conn ≫= (λ p, sconns st !! p) with
                | None => StepFault
                | Some sconn =>
                    let '(ret, e, k) := sock_sendto (kernel st) (errno st) (len tx) in
                    let st := set_errno e (set_kernel k (set_txs (<[t := tx]> (txs st)) st)) in
                    if ret =? -1 then
                      if e =? EINTR then
                        (* break, then assert(ret == left) *)
                        if ret =? len tx then Next st else StepAbort st
                      else Stop st
                    else Next st
                end
          end
      | _ => StepFault
      end
  end.

(** What the expiry block of [sock_progress_queued] leaves. *)
Inductive expiry :=
| expiry_go (tx : sock_tx) (st : sock_state)
| expiry_return
| expiry_fault.

(** The block under [if (tx->resends * SOCK_RESEND_TIME >= timeout)]: set
    the completion, then hand the tx back (SILENT send) or queue its event.
    There is no [continue] at its end. *)
Definition sock_progress_queued_expire (st : sock_state) (t : nat)
    (tx : sock_tx) : expiry :=
  let completed :=
    match msg_type tx with
    | SOCK_MSG_SEND =>
        match set_send_status (evt_info tx) CCI_ETIMEDOUT with
        | Some i => inl (tx_set_evt_info i tx)
        | None => inr expiry_fault
        end
    | SOCK_MSG_CONN_REQUEST | SOCK_MSG_CONN_REPLY | SOCK_MSG_CONN_ACK =>
        inl (tx_set_evt_type CCI_EVENT_CONNECT_TIMEOUT tx)
    | SOCK_MSG_other _ => inr expiry_return
    end in
  match completed with
  | inr e => e
  | inl tx =>
      if bool_decide (msg_type tx = SOCK_MSG_SEND)
         && negb (Z.land (flags tx) CCI_FLAG_SILENT =? 0)
      then
        expiry_go (tx_set_state SOCK_TX_IDLE tx)
          (set_sep_idle_txs (TAILQ_INSERT_HEAD (sep_idle_txs st) t) st)
      else
        expiry_go (tx_set_state SOCK_TX_COMPLETED tx)
          (set_ep_evts (TAILQ_INSERT_TAIL (ep_evts st) t) st)
  end.

(** The part of the loop body of [sock_progress_queued] from [left =
    tx->len] on: write the tx to the wire, then file it. *)
Definition sock_progress_queued_send (st : sock_state) (t : nat)
    (tx : sock_tx) (conn : cci_conn) : step :=
  match priv conn ≫= (λ p, sconns st !! p) with
  | None => StepFault
  | Some sconn =>
      match sock_send_again (S (S (length (kernel st)))) (kernel st) (errno st) (len tx) with
      | None => StepFault
      | Some (ret, e, k) =>
          let st := set_errno e (set_kernel k st) in
          if (ret =? -1) && negb (e =? EINTR) then
            (* requeue *)
            Stop (set_sdev_queued (TAILQ_INSERT_HEAD (sdev_queued st) t)
                   (set_txs (<[t := tx]> (txs st)) st))
          else
            (* msg sent *)
            if is_reliable (attribute conn) then
              let tx := tx_set_state SOCK_TX_PENDING tx in
              Next (set_sdev_pending (TAILQ_INSERT_TAIL (sdev_pending st) t)
                     (set_txs (<[t := tx]> (txs st)) st))
            else
              let tx := tx_set_state SOCK_TX_COMPLETED tx in
              Next (set_ep_evts (TAILQ_INSERT_TAIL (ep_evts st) t)
                     (set_txs (<[t := tx]> (txs st)) st))
      end
  end.

(** The timeout a queued tx is held against. *)
Definition queued_timeout (st : sock_state) (conn : cci_conn) : Z :=
  if negb (tx_timeout conn =? 0) then tx_timeout conn else ep_tx_timeout st.

(** The body of the loop of [sock_progress_queued], for the tx at [t].  The
    [TAILQ_REMOVE] at its head is commented out in the source. *)
Definition sock_progress_queued_tx (st : sock_state) (t : nat) : step :=
  match txs st !! t with
  | None => StepFault
  | Some tx =>
      match queued_connection tx with
      | None => StepFault
      | Some connection =>
          match conns st !! connection with
          | None => StepFault
          | Some conn =>
              let tx := tx_set_cycles (cycles tx + 1) tx in
              if negb (cycles tx mod SOCK_PROG_FREQ =? 0) then
                Next (set_txs (<[t := tx]> (txs st)) st)
              else
                let tx := tx_set_resends (resends tx + 1) tx in
                let timeout := queued_timeout st conn in
                if resends tx * SOCK_RESEND_TIME >=? timeout then
                  match sock_progress_queued_expire st t tx with
                  | expiry_go tx st => sock_progress_queued_send st t tx conn
                  | expiry_return => Stop (set_txs (<[t := tx]> (txs st)) st)
                  | expiry_fault => StepFault
                  end
                else sock_progress_queued_send st t tx conn
          end
      end
  end.

Definition sock_progress_pending (st : sock_state) : outcome unit :=
  match TAILQ_FOREACH_SAFE sock_progress_pending_tx (sdev_pending st) st with
  | Next st' | Stop st' => Ret tt st'
  | StepAbort st' => Abort st'
  | StepFault => Fault
  end.

(** [sock_progress_queued]: the loop over the queued list, followed by the
    statement [while (!TAILQ_EMPTY(&sdev->queued));].  The mutexes are left
    out: [SockLinks.sock_progress_queued] has the lock of [sdev->lock] that
    the pass takes a second time. *)
Definition sock_progress_queued (st : sock_state) : outcome unit :=
  match TAILQ_FOREACH_SAFE sock_progress_queued_tx (sdev_queued st) st with
  | Next st' =>
      match sdev_queued st' with
      | [] => Ret tt st'
      | _ :: _ => Spin st'
      end
  | Stop st' => Ret tt st'
  | StepAbort st' => Abort st'
  | StepFault => Fault
  end.

Definition sock_progress_sends (st : sock_state) : outcome unit :=
  match sock_progress_pending st with
  | Ret _ st' => sock_progress_queued st'
  | o => o
  end.

(** *** send *)

(** The loop of [sock_sendv] over the segments (is the pointer non-NULL,
    the length): [None] for a NULL pointer with a length. *)
Fixpoint sum_segments (segs : list (bool * Z)) (data_len : Z) : option Z :=
  match segs with
  | [] => Some data_len
  | (ptr, l) :: segs' =>
      if negb ptr && negb (l =? 0) then None
      else sum_segments segs' (data_len + l)
  end.

(** "get a tx": the first idle descriptor if there is one; otherwise the
    local variable keeps the value it had. *)
Definition get_a_tx (tx : option nat) (st : sock_state)
  : option nat * sock_state :=
  match sep_idle_txs st with
  | t :: _ => (Some t, set_sep_idle_txs (TAILQ_REMOVE (sep_idle_txs st) t) st)
  | [] => (tx, st)
  end.

Definition sconn_set_seq (v : Z) (sc : sock_conn) : sock_conn :=
  {| sconn_status := sconn_status sc; sin_port := sin_port sc;
     sin_addr := sin_addr sc; id := id sc; peer_id := peer_id sc;
     sconn_seq := v; sconn_ack := sconn_ack sc |}.

(** [sock_sendv] from "get a tx" to its end. *)
Definition sock_sendv_queue (tx : option nat) (st : sock_state)
    (connection : nat) (conn : cci_conn) (p : nat) (sconn : sock_conn)
    (header_len data_len context flags_ : Z) : outcome cci_status :=
  let reliable := is_reliable (attribute conn) in
  let '(tx, st) := get_a_tx tx st in
  match tx with
  | None => Ret CCI_ENOBUFS st
  | Some t =>
      match txs st !! t with
      | None => Fault
      | Some old =>
          let st :=
            if reliable
            then set_sconns (<[p := sconn_set_seq (sconn_seq sconn + 1) sconn]> (sconns st)) st
            else st in
          let tx :=
            {| msg_type := SOCK_MSG_SEND; flags := flags_; state := state old;
               seq := if reliable then sconn_seq sconn else seq old;
               cycles := 0; resends := 0;
               len := sizeof_sock_header_t
                      + (if reliable then sizeof_sock_seq_ack_t else 0)
                      + (header_len + data_len);
               evt_type := CCI_EVENT_SEND;
               evt_info := info_send connection context CCI_SUCCESS |} in
          if negb (len tx <=? ep_buffer_len st) then
            Abort (set_txs (<[t := tx]> (txs st)) st)
          else
            let tx := tx_set_state SOCK_TX_QUEUED tx in
            let st := set_sdev_queued (TAILQ_INSERT_TAIL (sdev_queued st) t)
                        (set_txs (<[t := tx]> (txs st)) st) in
            match sock_progress_sends st with
            | Ret _ st =>
                if negb reliable then Ret CCI_SUCCESS st
                else
                  match txs st !! t with
                  | None => Fault
                  | Some tx =>
                      if negb (Z.land (flags tx) CCI_FLAG_BLOCKING =? 0) then
                        (* while (tx->state != SOCK_TX_COMPLETED) usleep(..) *)
                        if bool_decide (state tx = SOCK_TX_COMPLETED) then
                          match evt_info tx with
                          | info_send _ _ status =>
                              Ret status
                                (set_sep_idle_txs (TAILQ_INSERT_HEAD (sep_idle_txs st) t)
                                  (set_ep_evts (TAILQ_REMOVE (ep_evts st) t) st))
                          | _ => Fault
                          end
                        else Spin st
                      else Ret CCI_SUCCESS st
                  end
            | Abort st => Abort st
            | Spin st => Spin st
            | Starved => Starved
            | Fault => Fault
            end
      end
  end.

(** [sock_sendv].  [tx] is the value the uninitialised local variable [tx]
    holds on entry ([None] for NULL); memory allocation is taken to succeed.
    On an unreliable connection the code first packs through [tx->buffer]
    and sends a scratch buffer. *)
Definition sock_sendv (tx : option nat) (st : sock_state) (connection : nat)
    (header_len : Z) (segs : list (bool * Z)) (context flags_ : Z)
  : outcome cci_status :=
  if negb (sglobals st) then Ret CCI_ENODEV st
  else
    match sum_segments segs 0 with
    | None => Ret CCI_EINVAL st
    | Some data_len =>
        match conns st !! connection with
        | None => Fault
        | Some conn =>
            if uint32 (header_len + data_len) >? max_send_size conn
            then Ret CCI_EMSGSIZE st
            else
              match priv conn with
              | None => Fault
              | Some p =>
                  match sconns st !! p with
                  | None => Fault
                  | Some sconn =>
                      if is_reliable (attribute conn) then
                        sock_sendv_queue tx st connection conn p sconn
                          header_len data_len context flags_
                      else
                        (* if unreliable, try to send *)
                        match tx ≫= (λ t, (λ d, (t, d)) <$> txs st !! t) with
                        | None => Fault
                        | Some (t, d) =>
                            let len_ := sizeof_sock_header_t + header_len + data_len in
                            let st := set_txs (<[t := tx_set_len len_ d]> (txs st)) st in
                            let '(ret, e, k) := sock_sendto (kernel st) (errno st) len_ in
                            let st := set_errno e (set_kernel k st) in
                            if ret =? 0 then Ret CCI_SUCCESS st
                            else
                              sock_sendv_queue tx st connection conn p sconn
                                header_len data_len context flags_
                        end
                  end
              end
        end
    end.

(** [sock_send]: one segment when there are data, none otherwise. *)
Definition sock_send (tx : option nat) (st : sock_state) (connection : nat)
    (header_len : Z) (data_ptr : bool) (data_len : Z) (context flags_ : Z)
  : outcome cci_status :=
  let segs := if data_ptr && negb (data_len =? 0) then [(data_ptr, data_len)] else [] in
  sock_sendv tx st connection header_len segs context flags_.

(** *** connect *)

(** [htons] on a little-endian host, of a value cut to 16 bits. *)
Definition htons (port : Z) : Z :=
  let p := port mod 2 ^ 16 in (p mod 256) * 256 + p / 256.

(** a [sock_conn_t] fresh from [calloc] *)
Definition sock_conn_zero : sock_conn :=
  {| sconn_status := SOCK_CONN_CLOSED; sin_port := 0; sin_addr := 0; id := 0;
     peer_id := 0; sconn_seq := 0; sconn_ack := 0 |}.

Definition sconn_set_sin (status : sock_conn_status) (port addr : Z)
    (sc : sock_conn) : sock_conn :=
  {| sconn_status := status; sin_port := port; sin_addr := addr; id := id sc;
     peer_id := peer_id sc; sconn_seq := sconn_seq sc;
     sconn_ack := sconn_ack sc |}.

Definition sconn_set_id (v : Z) (sc : sock_conn) : sock_conn :=
  {| sconn_status := sconn_status sc; sin_port := sin_port sc;
     sin_addr := sin_addr sc; id := v; peer_id := peer_id sc;
     sconn_seq := sconn_seq sc; sconn_ack := sconn_ack sc |}.

(** [tx->seq = random() << 16; tx->seq |= random() & 0xFFFF] *)
Definition random_seq (rnd : list Z) : option (Z * list Z) :=
  match rnd with
  | r1 :: r2 :: rnd' =>
      Some (Z.lor (uint64 (Z.shiftl r1 16)) (Z.land r2 65535), rnd')
  | _ => None
  end.

(** [sock_connect] from "get a tx" to its end; [s] is where [sconn] points. *)
Definition sock_connect_queue (tx : option nat) (st : sock_state)
    (connection s : nat) (data_len context : Z) : outcome cci_status :=
  let '(tx, st) := get_a_tx tx st in
  match tx with
  | None => Ret CCI_ENOBUFS st
  | Some t =>
      match txs st !! t with
      | None => Fault
      | Some old =>
          match sock_get_id st with
          | Ret new_id st =>
              match sconns st !! s, random_seq (prng st) with
              | None, _ => Fault
              | Some _, None => Starved
              | Some sconn, Some (seq_, rnd) =>
                  let st := set_prng rnd
                              (set_sconns (<[s := sconn_set_id new_id sconn]> (sconns st)) st) in
                  let tx :=
                    {| msg_type := SOCK_MSG_CONN_REQUEST; flags := flags old;
                       state := state old; seq := seq_; cycles := 0; resends := 0;
                       len := sizeof_sock_header_t + sizeof_sock_seq_ack_t + data_len;
                       evt_type := CCI_EVENT_CONNECT_SUCCESS;
                       evt_info := info_other context connection |} in
                  if negb (len tx <=? ep_buffer_len st) then
                    Abort (set_txs (<[t := tx]> (txs st)) st)
                  else
                    let tx := tx_set_state SOCK_TX_QUEUED tx in
                    let st := set_sdev_queued (TAILQ_INSERT_TAIL (sdev_queued st) t)
                                (set_txs (<[t := tx]> (txs st)) st) in
                    match sock_progress_sends st with
                    | Ret _ st => Ret CCI_SUCCESS st
                    | Abort st => Abort st
                    | Spin st => Spin st
                    | Starved => Starved
                    | Fault => Fault
                    end
              end
          | Abort st => Abort st
          | Spin st => Spin st
          | Starved => Starved
          | Fault => Fault
          end
      end
  end.

(** [sock_connect].  [sconn] and [tx] are the values the uninitialised
    local variables hold on entry: the function never assigns [sconn], and
    assigns [tx] only when the idle list is not empty; [ai] is the value of
    the unassigned local of [sock_getaddrinfo].  The new connection and its
    private part are allocated at the end of the tables (allocation is
    taken to succeed); the [out:] exit frees them again. *)
Definition sock_connect (getaddrinfo : string -> Z * Z) (ai : Z)
    (sconn tx : option nat) (st : sock_state) (server_uri : string)
    (port data_len attribute_ context flags_ : Z) : outcome cci_status :=
  if negb (sglobals st) then Ret CCI_ENODEV st
  else
    let connection := length (conns st) in
    let p := length (sconns st) in
    let conn :=
      {| attribute := attribute_; max_send_size := SOCK_AM_SIZE;
         uri := server_uri; tx_timeout := 0; priv := Some p |} in
    let st := set_conns (conns st ++ [conn])
                (set_sconns (sconns st ++ [sock_conn_zero]) st) in
    match sconn ≫= (λ s, (λ sc, (s, sc)) <$> sconns st !! s) with
    | None => Fault
    | Some (s, sc) =>
        let sc := sconn_set_sin SOCK_CONN_ACTIVE (htons port) 0 sc in
        let st := set_sconns (<[s := sc]> (sconns st)) st in
        match sock_getaddrinfo_ai ai getaddrinfo server_uri with
        | None => Fault
        | Some (inl ret) =>
            (* out: *)
            Ret ret (set_conns (take connection (conns st))
                      (set_sconns (take p (sconns st)) st))
        | Some (inr in_) =>
            let sc := sconn_set_sin SOCK_CONN_ACTIVE (htons port) in_ sc in
            let st := set_sconns (<[s := sc]> (sconns st)) st in
            sock_connect_queue tx st connection s data_len context
        end
    end.

(** *** RMA *)

(** [sock_rma] *)
Definition sock_rma (st : sock_state) (connection : nat) (header_len : Z)
    (local_handle local_offset remote_handle remote_offset data_len : Z)
    (context flags_ : Z) : outcome cci_status :=
  if negb (sglobals st) then Ret CCI_ENODEV st
  else Ret CCI_ERR_NOT_IMPLEMENTED st.

End Transport.

(** *** Sample states *)

(** Sample values for the constants of core_sock.h. *)
Definition sample_core_sock_h : core_sock_h :=
  {| SOCK_BLOCK_SIZE := 64; SOCK_PROG_FREQ := 1; SOCK_RESEND_TIME := 1;
     SOCK_AM_SIZE := 8192; sizeof_sock_header_t := 8;
     sizeof_sock_seq_ack_t := 16 |}.

(** an idle descriptor *)
Definition sample_tx : sock_tx :=
  {| msg_type := SOCK_MSG_other 0; flags := 0; state := SOCK_TX_IDLE; seq := 0;
     cycles := 0; resends := 0; len := 0; evt_type := CCI_EVENT_NONE;
     evt_info := info_none |}.

(** the descriptor of a send on connection 0, as [sock_sendv] sets it up *)
Definition sample_send_tx (st : sock_tx_state) (flags_ : Z) : sock_tx :=
  {| msg_type := SOCK_MSG_SEND; flags := flags_; state := st; seq := 0;
     cycles := 0; resends := 0; len := 29; evt_type := CCI_EVENT_SEND;
     evt_info := info_send 0 0 CCI_SUCCESS |}.

(** a connection with the given attribute and send timeout *)
Definition sample_connection (attribute_ timeout : Z) : cci_conn :=
  {| attribute := attribute_; max_send_size := 8192; uri := "ip://peer";
     tx_timeout := timeout; priv := Some 0%nat |}.

(** One endpoint (send timeout 64) with one connection and one tx. *)
Definition sample_state (conn : cci_conn) (tx : sock_tx)
    (idle queued pending : list nat) : sock_state :=
  {| sglobals := true; txs := [tx]; conns := [conn];
     sconns := [sock_conn_zero]; ep_tx_timeout := 64; ep_buffer_len := 8232;
     ep_evts := []; sep_idle_txs := idle; sep_ids := [0; 0];
     sdev_queued := queued; sdev_pending := pending; kernel := []; errno := 0;
     prng := [] |}.

(** the tx of a send on the connection sits on the queued list *)
Definition queued_state (attribute_ : Z) : sock_state :=
  sample_state (sample_connection attribute_ 0) (sample_send_tx SOCK_TX_QUEUED 0)
    [] [0%nat] [].

(** the tx of a send with the given flags is in flight on an RU connection
    with the given send timeout; no tx is idle *)
Definition pending_state (timeout flags_ : Z) : sock_state :=
  sample_state (sample_connection CCI_CONN_ATTR_RU timeout)
    (sample_send_tx SOCK_TX_PENDING flags_) [] [] [0%nat].

(** an RU connection and one idle tx *)
Definition idle_state : sock_state :=
  sample_state (sample_connection CCI_CONN_ATTR_RU 0) sample_tx [0%nat] [] [].

(** a resolver that knows the name "localhost" and nothing else *)
Definition sample_getaddrinfo (name : string) : Z * Z :=
  if bool_decide (name = "localhost") then (0, 2130706433) else (-2, 0).

End Sock.

(* ===================================================================== *)
(** ** The ccieth receive path: entry point and sequences of packets *)
(* ===================================================================== *)

Module CciethRecv.
Import Ccieth.

(** [ETH_HLEN] of linux/if_ether.h *)
Definition ETH_HLEN : Z := 14.

(** ccieth_wire.h is not part of the sources: the packet type tags and the
    offset of the type byte in [struct ccieth_pkt_header_generic] are
    parameters. *)
Class ccieth_wire_h := {
  CCIETH_PKT_CONNECT_REQUEST : Z;
  CCIETH_PKT_CONNECT_ACCEPT : Z;
  CCIETH_PKT_CONNECT_REJECT : Z;
  CCIETH_PKT_CONNECT_ACK : Z;
  CCIETH_PKT_MSG : Z;
  offsetof_type : nat
}.

(** [skb_push(skb, len)]: the last [len] bytes of the headroom become the
    head of the data; [None] when the headroom is too short (the kernel
    panics).  The decoded header is that of the frame after the push. *)
Definition skb_push (headroom : list Z) (skb : sk_buff) (len : Z)
  : option sk_buff :=
  if Z.of_nat (length headroom) <? len then None
  else
    Some {| skb_hdr := skb_hdr skb;
            skb_data := drop (length headroom - Z.to_nat len) headroom
                        ++ skb_data skb |}.

Section Recv.
Context `{ccieth_wire_h}.

(** the four connect packet types, which [ccieth_recv] hands to
    [ccieth_defer_connect_recv] *)
Definition is_connect_type (type : Z) : bool :=
  (type =? CCIETH_PKT_CONNECT_REQUEST) || (type =? CCIETH_PKT_CONNECT_ACCEPT)
  || (type =? CCIETH_PKT_CONNECT_REJECT) || (type =? CCIETH_PKT_CONNECT_ACK).

(** [ccieth_recv].  [clone] tells whether [skb_share_check] gives an skb
    back; [headroom] are the bytes in front of [skb->data], which hold the
    Ethernet header; [ccieth_defer_connect_recv] is defined in a file that
    is not part of the sources and is a parameter. *)
Definition ccieth_recv
    (ccieth_defer_connect_recv : driver -> Z -> Z -> sk_buff -> kresult driver)
    (hdr_size : Z) (d : driver) (ifp_ : Z) (clone : bool)
    (headroom : list Z) (skb : sk_buff) : kresult driver :=
  if negb clone then KReturn 0 d
  else
    match skb_push headroom skb ETH_HLEN with
    | None => KBug
    | Some skb =>
        match skb_data skb !! offsetof_type with
        | None => KReturn (- EINVAL) d
        | Some type =>
            if is_connect_type type then
              ccieth_defer_connect_recv d ifp_ type skb
            else if type =? CCIETH_PKT_MSG then
              ccieth_recv_msg hdr_size d ifp_ skb
            else KReturn (- EINVAL) d
        end
    end.

End Recv.

(** A run of MSG frames through [ccieth_recv_msg], one after the other: the
    return codes and the final state, [None] if a call hits [BUG_ON]. *)
Fixpoint ccieth_recv_msgs (hdr_size : Z) (d : driver) (ifp_ : Z)
    (skbs : list sk_buff) : option (list Z * driver) :=
  match skbs with
  | [] => Some ([], d)
  | skb :: skbs' =>
      match ccieth_recv_msg hdr_size d ifp_ skb with
      | KBug => None
      | KReturn err d' =>
          match ccieth_recv_msgs hdr_size d' ifp_ skbs' with
          | Some (errs, d'') => Some (err :: errs, d'')
          | None => None
          end
      end
  end.

(** the event slots of endpoint [id], free and queued together *)
Definition slots_of (d : driver) (id : Z) : option nat :=
  (fun ep => (length (free_event_list ep) + length (event_list ep))%nat)
    <$> ccieth_ep_idr d !! id.

(** the free event slots of endpoint [id] *)
Definition free_of (d : driver) (id : Z) : list ccieth_endpoint_event :=
  match ccieth_ep_idr d !! id with
  | Some ep => free_event_list ep
  | None => []
  end.

(** the payload of a MSG frame: [msg_len] bytes after the header *)
Definition msg_payload (hdr_size : Z) (skb : sk_buff) : list Z :=
  take (Z.to_nat (msg_len (skb_hdr skb)))
    (drop (Z.to_nat hdr_size) (skb_data skb)).

(** the RECV event [ccieth__recv_msg] builds for a frame *)
Definition recv_event (hdr_size : Z) (conn : ccieth_connection)
    (skb : sk_buff) : ccieth_endpoint_event :=
  {| event_type := CCIETH_IOCTL_EVENT_RECV;
     event_data_length := msg_len (skb_hdr skb);
     event_recv_user_conn_id := user_conn_id conn;
     event_buffer := msg_payload hdr_size skb |}.

(** A MSG frame for connection [conn_id] of endpoint [ep_id] that passes the
    length checks against [max] and has kernel sizes. *)
Definition msg_for (hdr_size max ep_id conn_id : Z) (skb : sk_buff) : Prop :=
  dst_ep_id (skb_hdr skb) = ep_id
  /\ dst_conn_id (skb_hdr skb) = conn_id
  /\ sizes_in_range hdr_size skb
  /\ msg_len (skb_hdr skb) <= max
  /\ hdr_size + msg_len (skb_hdr skb) <= skb_len skb.

(** Endpoint [ep_id] is attached to [ifp_], has [free] as its free slots and
    [evs] as its queued events, and its connection [conn_id] is [conn]. *)
Definition endpoint_with (d : driver) (ifp_ max ep_id conn_id : Z)
    (conn : ccieth_connection) (free evs : list ccieth_endpoint_event)
  : Prop :=
  exists ep,
    ccieth_ep_idr d !! ep_id = Some ep
    /\ ifp ep = Some ifp_
    /\ max_send_size ep = max
    /\ connection_idr ep !! conn_id = Some conn
    /\ free_event_list ep = free
    /\ event_list ep = evs.

(** sample values for the wire constants *)
Definition sample_wire_h : ccieth_wire_h :=
  {| CCIETH_PKT_CONNECT_REQUEST := 1; CCIETH_PKT_CONNECT_ACCEPT := 2;
     CCIETH_PKT_CONNECT_REJECT := 3; CCIETH_PKT_CONNECT_ACK := 4;
     CCIETH_PKT_MSG := 5; offsetof_type := 14%nat |}.

(** a frame of three payload bytes and the fourteen bytes in front of it *)
Definition sample_headroom : list Z :=
  [0; 0; 0; 0; 0; 0; 0; 0; 0; 0; 0; 0; 134; 102].

Definition sample_short_skb (type : Z) : sk_buff :=
  {| skb_hdr := {| dst_ep_id := 5; dst_conn_id := 3; msg_seqnum := 0; msg_len := 1 |};
     skb_data := [type; 0; 65] |}.

(** a stand-in for [ccieth_defer_connect_recv] that takes the packet *)
Definition sample_defer (d : driver) (ifp_ type : Z) (skb : sk_buff)
  : kresult driver := KReturn 0 d.

End CciethRecv.

(* ===================================================================== *)
(** ** The sock transport: start-up, and observations on its state *)
(* ===================================================================== *)

Module SockSetup.
Import Sock.

(** *** Observations *)

Section Observations.
Context `{core_sock_h}.

(** the bit of [id] in the endpoint's ID bitmap *)
Definition id_taken (st : sock_state) (id : Z) : bool :=
  match sep_ids st !! Z.to_nat (id / SOCK_BLOCK_SIZE) with
  | Some b => Z.testbit b (id mod SOCK_BLOCK_SIZE)
  | None => false
  end.

(** [n] calls of [sock_get_id], one after the other *)
Fixpoint sock_get_ids (n : nat) (st : sock_state) : outcome (list Z) :=
  match n with
  | O => Ret [] st
  | S n' =>
      match sock_get_id st with
      | Ret id st' =>
          match sock_get_ids n' st' with
          | Ret ids st'' => Ret (id :: ids) st''
          | o => o
          end
      | Abort st' => Abort st'
      | Spin st' => Spin st'
      | Starved => Starved
      | Fault => Fault
      end
  end.

End Observations.

(** What one visit of the pending pass makes of a descriptor. *)
Definition pending_visited (expired : bool) (tx tx' : sock_tx) : Prop :=
  msg_type tx' = msg_type tx /\ flags tx' = flags tx /\ state tx' = state tx
  /\ seq tx' = seq tx /\ len tx' = len tx /\ evt_type tx' = evt_type tx
  /\ cycles tx' = cycles tx + 1
  /\ resends tx' = resends tx + 1
  /\ exists connection context status,
       evt_info tx = info_send connection context status
       /\ evt_info tx' =
            info_send connection context
              (if expired then CCI_ETIMEDOUT else status).

(** The kernel never reports an error through an errno of -1 or of 0. *)
Definition errnos_positive (k : list sysres) : Prop :=
  forall e, sys_error e ∈ k -> 0 < e.

(** *** sock_init *)

(** The loop over [conf_argv]: every argument that starts with "ip=" sets
    the address.  [inet_addr] is libc's. *)
Fixpoint parse_conf_argv (inet_addr : string -> Z) (args : list string)
    (ip_ : Z) : Z :=
  match args with
  | [] => ip_
  | arg :: args' =>
      parse_conf_argv inet_addr args'
        (if String.prefix "ip=" arg
         then inet_addr (String.substring 3 (String.length arg - 3) arg)
         else ip_)
  end.

(** the last argument of the form "ip=..." *)
Fixpoint last_ip_arg (args : list string) : option string :=
  match args with
  | [] => None
  | arg :: args' =>
      match last_ip_arg args' with
      | Some a => Some a
      | None =>
          if String.prefix "ip=" arg
          then Some (String.substring 3 (String.length arg - 3) arg)
          else None
      end
  end.

(** *** sock_create_endpoint *)

(** core_sock.h is not part of the sources: the endpoint constants are
    parameters. *)
Class core_sock_ep_h := {
  SOCK_EP_RX_CNT : Z;
  SOCK_EP_TX_CNT : Z;
  SOCK_EP_MAX_HDR_SIZE : Z;
  SOCK_EP_BUF_LEN : Z;
  SOCK_EP_TX_TIMEOUT : Z;
  SOCK_EP_HASH_SIZE : nat;
  SOCK_NUM_BLOCKS : nat
}.

(** [sock_ep_t] *)
Record sock_ep := {
  ids : list Z;
  sock : Z;
  conn_hash : list (list nat);
  sep_txs : list nat;
  idle_txs : list nat;
  rxs : list nat;
  idle_rxs : list nat
}.

(** [cci__ep_t] with the one field of its public part that is written *)
Record cci__ep := {
  max_recv_buffer_count : Z;
  max_hdr_size : Z;
  rx_buf_cnt : Z;
  tx_buf_cnt : Z;
  buffer_len : Z;
  tx_timeout_ : Z;
  ep_priv : option sock_ep
}.

(** What [sock_create_endpoint] leaves: its return value and [*endpoint]
    ([None] once it has been freed); or it has used a NULL pointer. *)
Inductive create_result :=
| CreateRet (ret : cci_status) (endpoint : option cci__ep)
| CreateFault.

Section Create.
Context `{core_sock_ep_h}.

(** [sock_create_endpoint].  [driver_] is [dev->driver]; [socket_] is what
    [socket(2)] returns and [errno_] the errno it leaves; memory allocation
    is taken to succeed.  On a driver mismatch the code jumps to [out:]
    with [ep] still NULL and unlinks it. *)
Definition sock_create_endpoint (sglobals_ : bool) (driver_ : string)
    (ep : cci__ep) (socket_ errno_ : Z) : create_result :=
  if negb sglobals_ then CreateRet CCI_ENODEV (Some ep)
  else if negb (bool_decide (driver_ = "sock")) then CreateFault
  else
    if socket_ =? -1 then CreateRet (foreign_code errno_) None
    else
      CreateRet CCI_SUCCESS
        (Some {| max_recv_buffer_count := SOCK_EP_RX_CNT;
                 max_hdr_size := SOCK_EP_MAX_HDR_SIZE;
                 rx_buf_cnt := SOCK_EP_RX_CNT;
                 tx_buf_cnt := SOCK_EP_TX_CNT;
                 buffer_len := SOCK_EP_BUF_LEN;
                 tx_timeout_ := SOCK_EP_TX_TIMEOUT;
                 ep_priv :=
                   Some {| ids := replicate SOCK_NUM_BLOCKS 0;
                           sock := socket_;
                           conn_hash := replicate SOCK_EP_HASH_SIZE [];
                           sep_txs := []; idle_txs := []; rxs := [];
                           idle_rxs := [] |} |}).

End Create.

(** The transport state [st] is that of the endpoint [ep]. *)
Definition state_of_endpoint (ep : cci__ep) (st : sock_state) : Prop :=
  exists sep,
    ep_priv ep = Some sep
    /\ sglobals st = true
    /\ ep_tx_timeout st = tx_timeout_ ep
    /\ ep_buffer_len st = buffer_len ep
    /\ sep_idle_txs st = idle_txs sep
    /\ sep_ids st = ids sep.

(** *** Samples *)

Definition sample_core_sock_ep_h : core_sock_ep_h :=
  {| SOCK_EP_RX_CNT := 1024; SOCK_EP_TX_CNT := 128;
     SOCK_EP_MAX_HDR_SIZE := 32; SOCK_EP_BUF_LEN := 8232;
     SOCK_EP_TX_TIMEOUT := 64; SOCK_EP_HASH_SIZE := 4%nat;
     SOCK_NUM_BLOCKS := 2%nat |}.

Definition sample_ep0 : cci__ep :=
  {| max_recv_buffer_count := 0; max_hdr_size := 0; rx_buf_cnt := 0;
     tx_buf_cnt := 0; buffer_len := 0; tx_timeout_ := 0; ep_priv := None |}.

(** the sample state of an RU connection, as a fresh endpoint has it *)
Definition fresh_state : sock_state :=
  sample_state (sample_connection CCI_CONN_ATTR_RU 0) sample_tx [] [] [].

(** a stand-in for [inet_addr]: two addresses it knows, 0 for "0.0.0.0",
    [INADDR_NONE] for anything else *)
Definition sample_inet_addr (s : string) : Z :=
  if bool_decide (s = "10.0.0.1") then 16777226
  else if bool_decide (s = "10.0.0.2") then 33554442
  else if bool_decide (s = "0.0.0.0") then 0
  else 4294967295.

End SockSetup.

(* ===================================================================== *)
(** ** The send path of the sock transport, with link fields and mutexes *)
(* ===================================================================== *)

(** [Sock] keeps, for every list head, the sequence of the elements given
    to it, and leaves the mutexes out.  That describes the code as long as
    a descriptor is on one list at a time and no mutex is taken twice.
    This module follows the pointers instead.  A descriptor has one link
    field, [dentry], for the queued, the pending and the idle list, and
    its event has one, [entry], for the endpoint's event queue.  The TAILQ
    macros are those of BSD's sys/queue.h (the header is not part of the
    sources).  The mutexes are initialised with default attributes: a
    thread that locks a mutex it holds blocks for good.  One thread
    runs.  On well-formed lists the macros of this module act as the list
    operations of [Sock] do ([SockQueueProps]). *)
Module SockLinks.
Import Sock.

(** The four list heads: [sdev->queued], [sdev->pending], [sep->idle_txs]
    and [ep->evts]. *)
Inductive head :=
| queued
| pending
| idle_txs
| evts.

(** The two link fields: [tx->dentry] and [tx->evt.entry]. *)
Inductive link :=
| dentry
| entry.

(** The address of a pointer to an element: [&head->tqh_first] or
    [&elm->field.tqe_next].  Elements are named by the address of their
    descriptor. *)
Inductive ptr :=
| tqh_first_of (h : head)
| tqe_next_of (f : link) (t : nat).

(** [TAILQ_ENTRY]; a link field that was never used holds two NULLs. *)
Record tailq_entry := {
  tqe_next : option nat;
  tqe_prev : option ptr
}.

(** [TAILQ_HEAD] *)
Record tailq_head := {
  tqh_first : option nat;
  tqh_last : ptr
}.

(** The mutexes: [sdev->lock], [ep->lock], [sep->lock] and the [lock] of
    the [sock_conn_t] at an address. *)
Inductive mutex :=
| sdev_lock
| ep_lock
| sep_lock
| sconn_lock (p : nat).

#[global] Instance head_eq_dec : EqDecision head.
Proof. solve_decision. Defined.
#[global] Instance link_eq_dec : EqDecision link.
Proof. solve_decision. Defined.
#[global] Instance ptr_eq_dec : EqDecision ptr.
Proof. solve_decision. Defined.
#[global] Instance mutex_eq_dec : EqDecision mutex.
Proof. solve_decision. Defined.

(** The memory of the transport (one device, one endpoint) and its
    environment: what the kernel will answer to the next [sendto] calls,
    and [errno]. *)
Record mem := {
  m_sglobals : bool;               (* sglobals != NULL *)
  m_txs : list sock_tx;            (* tx descriptors, by address *)
  m_dentry : list tailq_entry;     (* tx->dentry, by address of the tx *)
  m_entry : list tailq_entry;      (* tx->evt.entry, by address of the tx *)
  m_conns : list cci_conn;
  m_sconns : list sock_conn;
  m_tx_timeout : Z;                (* ep->tx_timeout *)
  m_buffer_len : Z;                (* ep->buffer_len *)
  m_queued : tailq_head;           (* sdev->queued *)
  m_pending : tailq_head;          (* sdev->pending *)
  m_idle_txs : tailq_head;         (* sep->idle_txs *)
  m_evts : tailq_head;             (* ep->evts *)
  m_held : list mutex;             (* the mutexes that are locked *)
  m_kernel : list sysres;
  m_errno : Z
}.

Definition with_txs (v : list sock_tx) (m : mem) : mem :=
  {| m_sglobals := m_sglobals m; m_txs := v; m_dentry := m_dentry m;
     m_entry := m_entry m; m_conns := m_conns m; m_sconns := m_sconns m;
     m_tx_timeout := m_tx_timeout m; m_buffer_len := m_buffer_len m;
     m_queued := m_queued m; m_pending := m_pending m;
     m_idle_txs := m_idle_txs m; m_evts := m_evts m; m_held := m_held m;
     m_kernel := m_kernel m; m_errno := m_errno m |}.

Definition with_sconns (v : list sock_conn) (m : mem) : mem :=
  {| m_sglobals := m_sglobals m; m_txs := m_txs m; m_dentry := m_dentry m;
     m_entry := m_entry m; m_conns := m_conns m; m_sconns := v;
     m_tx_timeout := m_tx_timeout m; m_buffer_len := m_buffer_len m;
     m_queued := m_queued m; m_pending := m_pending m;
     m_idle_txs := m_idle_txs m; m_evts := m_evts m; m_held := m_held m;
     m_kernel := m_kernel m; m_errno := m_errno m |}.

Definition with_held (v : list mutex) (m : mem) : mem :=
  {| m_sglobals := m_sglobals m; m_txs := m_txs m; m_dentry := m_dentry m;
     m_entry := m_entry m; m_conns := m_conns m; m_sconns := m_sconns m;
     m_tx_timeout := m_tx_timeout m; m_buffer_len := m_buffer_len m;
     m_queued := m_queued m; m_pending := m_pending m;
     m_idle_txs := m_idle_txs m; m_evts := m_evts m; m_held := v;
     m_kernel := m_kernel m; m_errno := m_errno m |}.

Definition with_kernel (k : list sysres) (e : Z) (m : mem) : mem :=
  {| m_sglobals := m_sglobals m; m_txs := m_txs m; m_dentry := m_dentry m;
     m_entry := m_entry m; m_conns := m_conns m; m_sconns := m_sconns m;
     m_tx_timeout := m_tx_timeout m; m_buffer_len := m_buffer_len m;
     m_queued := m_queued m; m_pending := m_pending m;
     m_idle_txs := m_idle_txs m; m_evts := m_evts m; m_held := m_held m;
     m_kernel := k; m_errno := e |}.

(** the link fields of one kind, by descriptor *)
Definition links (f : link) (m : mem) : list tailq_entry :=
  match f with
  | dentry => m_dentry m
  | entry => m_entry m
  end.

Definition with_links (f : link) (v : list tailq_entry) (m : mem) : mem :=
  {| m_sglobals := m_sglobals m; m_txs := m_txs m;
     m_dentry := match f with dentry => v | entry => m_dentry m end;
     m_entry := match f with dentry => m_entry m | entry => v end;
     m_conns := m_conns m; m_sconns := m_sconns m;
     m_tx_timeout := m_tx_timeout m; m_buffer_len := m_buffer_len m;
     m_queued := m_queued m; m_pending := m_pending m;
     m_idle_txs := m_idle_txs m; m_evts := m_evts m; m_held := m_held m;
     m_kernel := m_kernel m; m_errno := m_errno m |}.

Definition head_of (h : head) (m : mem) : tailq_head :=
  match h with
  | queued => m_queued m
  | pending => m_pending m
  | idle_txs => m_idle_txs m
  | evts => m_evts m
  end.

Definition with_head (h : head) (v : tailq_head) (m : mem) : mem :=
  {| m_sglobals := m_sglobals m; m_txs := m_txs m; m_dentry := m_dentry m;
     m_entry := m_entry m; m_conns := m_conns m; m_sconns := m_sconns m;
     m_tx_timeout := m_tx_timeout m; m_buffer_len := m_buffer_len m;
     m_queued := match h with queued => v | _ => m_queued m end;
     m_pending := match h with pending => v | _ => m_pending m end;
     m_idle_txs := match h with idle_txs => v | _ => m_idle_txs m end;
     m_evts := match h with evts => v | _ => m_evts m end;
     m_held := m_held m; m_kernel := m_kernel m; m_errno := m_errno m |}.

(** What a call does with control. *)
Inductive result (A : Type) :=
| Ok (v : A) (m : mem)      (* it goes on, or returns, with v *)
| Aborted (m : mem)         (* an assert() fails *)
| Spinning (m : mem)        (* it loops forever, the memory staying m *)
| Deadlock (m : mem)        (* it blocks on a mutex that it holds itself *)
| Faulted                   (* it uses an invalid pointer *)
| Cyclic.                   (* a list walk takes more steps than there are
                               descriptors: the links form a cycle *)
Arguments Ok {A} v m.
Arguments Aborted {A} m.
Arguments Spinning {A} m.
Arguments Deadlock {A} m.
Arguments Faulted {A}.
Arguments Cyclic {A}.

(** Statements of the code: memory in, a result out. *)
Definition M (A : Type) : Type := mem -> result A.

#[global] Instance M_ret : MRet M := fun A v m => Ok v m.
#[global] Instance M_bind : MBind M := fun A B f c m =>
  match c m with
  | Ok v m' => f v m'
  | Aborted m' => Aborted m'
  | Spinning m' => Spinning m'
  | Deadlock m' => Deadlock m'
  | Faulted => Faulted
  | Cyclic => Cyclic
  end.

Definition get : M mem := fun m => Ok m m.
Definition put (m : mem) : M unit := fun _ => Ok tt m.
Definition fault {A : Type} : M A := fun _ => Faulted.
Definition abort {A : Type} : M A := fun m => Aborted m.
Definition spin {A : Type} : M A := fun m => Spinning m.

(** the value behind a pointer that must be valid *)
Definition deref {A : Type} (o : option A) : M A :=
  match o with
  | Some v => mret v
  | None => fault
  end.

(** *** Mutexes *)

Definition pthread_mutex_lock (l : mutex) : M unit := fun m =>
  if bool_decide (l ∈ m_held m) then Deadlock m
  else Ok tt (with_held (l :: m_held m) m).

(** Unlocking a mutex that is not locked is undefined. *)
Definition pthread_mutex_unlock (l : mutex) : M unit := fun m =>
  if bool_decide (l ∈ m_held m)
  then Ok tt (with_held (List.filter (fun x => negb (bool_decide (x = l)))
                           (m_held m)) m)
  else Faulted.

(** *** Tail queues *)

Definition rd_head (h : head) : M tailq_head :=
  m ← get; mret (head_of h m).

Definition wr_first (h : head) (v : option nat) : M unit :=
  m ← get;
  put (with_head h {| tqh_first := v; tqh_last := tqh_last (head_of h m) |} m).

Definition wr_last (h : head) (v : ptr) : M unit :=
  m ← get;
  put (with_head h {| tqh_first := tqh_first (head_of h m); tqh_last := v |} m).

Definition rd_link (f : link) (t : nat) : M tailq_entry :=
  m ← get; deref (links f m !! t).

Definition wr_next (f : link) (t : nat) (v : option nat) : M unit :=
  e ← rd_link f t;
  m ← get;
  put (with_links f (<[t := {| tqe_next := v; tqe_prev := tqe_prev e |}]>
                       (links f m)) m).

Definition wr_prev (f : link) (t : nat) (v : option ptr) : M unit :=
  e ← rd_link f t;
  m ← get;
  put (with_links f (<[t := {| tqe_next := tqe_next e; tqe_prev := v |}]>
                       (links f m)) m).

(** [*p = v] *)
Definition store (p : ptr) (v : option nat) : M unit :=
  match p with
  | tqh_first_of h => wr_first h v
  | tqe_next_of f t => wr_next f t v
  end.

Definition TAILQ_INIT (h : head) : tailq_head :=
  {| tqh_first := None; tqh_last := tqh_first_of h |}.

Definition TAILQ_INSERT_TAIL (h : head) (elm : nat) (f : link) : M unit :=
  wr_next f elm None;;
  hd ← rd_head h;
  wr_prev f elm (Some (tqh_last hd));;
  store (tqh_last hd) (Some elm);;
  wr_last h (tqe_next_of f elm).

Definition TAILQ_INSERT_HEAD (h : head) (elm : nat) (f : link) : M unit :=
  hd ← rd_head h;
  wr_next f elm (tqh_first hd);;
  match tqh_first hd with
  | Some first => wr_prev f first (Some (tqe_next_of f elm))
  | None => wr_last h (tqe_next_of f elm)
  end;;
  wr_first h (Some elm);;
  wr_prev f elm (Some (tqh_first_of h)).

(** [TAILQ_REMOVE] writes through [elm->field.tqe_prev] whatever list the
    element is on: the head it is given is used only when the element has
    no successor. *)
Definition TAILQ_REMOVE (h : head) (elm : nat) (f : link) : M unit :=
  e ← rd_link f elm;
  prev ← deref (tqe_prev e);
  match tqe_next e with
  | Some next => wr_prev f next (Some prev)
  | None => wr_last h prev
  end;;
  store prev (tqe_next e).

(** How the body of a loop leaves: on to the next element, or out of the
    function. *)
Inductive ctl :=
| Continue
| Return.

(** [TAILQ_FOREACH_SAFE]: the successor is read before the body runs. *)
Fixpoint foreach_from (fuel : nat) (f : link) (body : nat -> M ctl)
    (var : option nat) : M ctl :=
  match var with
  | None => mret Continue
  | Some t =>
      match fuel with
      | O => fun _ => Cyclic
      | S fuel' =>
          e ← rd_link f t;
          r ← body t;
          match r with
          | Continue => foreach_from fuel' f body (tqe_next e)
          | Return => mret Return
          end
      end
  end.

Definition TAILQ_FOREACH_SAFE (h : head) (f : link) (body : nat -> M ctl)
  : M ctl :=
  m ← get;
  foreach_from (length (m_txs m)) f body (tqh_first (head_of h m)).

(** The elements of a list as its links spell them, from the head on. *)
Fixpoint walk (fuel : nat) (l : list tailq_entry) (var : option nat)
  : list nat :=
  match var, fuel with
  | Some t, S fuel' =>
      t :: walk fuel' l (match l !! t with
                         | Some e => tqe_next e
                         | None => None
                         end)
  | _, _ => []
  end.

Definition tailq (h : head) (f : link) (m : mem) : list nat :=
  walk (S (length (m_txs m))) (links f m) (tqh_first (head_of h m)).

(** The pointer points into the memory. *)
Definition valid (p : ptr) (m : mem) : Prop :=
  match p with
  | tqh_first_of _ => True
  | tqe_next_of f t => (t < length (links f m))%nat
  end.

(** Two memories with the same objects: they differ at most in the list
    heads and the link fields. *)
Definition same_objects (m m' : mem) : Prop :=
  m_sglobals m' = m_sglobals m
  /\ m_txs m' = m_txs m
  /\ m_conns m' = m_conns m
  /\ m_sconns m' = m_sconns m
  /\ m_tx_timeout m' = m_tx_timeout m
  /\ m_buffer_len m' = m_buffer_len m
  /\ m_held m' = m_held m
  /\ m_kernel m' = m_kernel m
  /\ m_errno m' = m_errno m.

(** *** Well-formed lists *)

(** The pointer that [tqh_last] holds when the elements of [l] follow the
    pointer [p]: the address of the [tqe_next] of the last of them, or [p]
    when there is none. *)
Fixpoint last_ptr (f : link) (p : ptr) (l : list nat) : ptr :=
  match l with
  | [] => p
  | t :: l' => last_ptr f (tqe_next_of f t) l'
  end.

(** The link fields [ls] chain the elements of [l] behind the pointer [p]:
    the [tqe_next] of an element is the element after it, and its
    [tqe_prev] the address of the pointer that leads to it. *)
Fixpoint chain (f : link) (ls : list tailq_entry) (p : ptr) (l : list nat)
  : Prop :=
  match l with
  | [] => True
  | t :: l' =>
      ls !! t = Some {| tqe_next := List.head l'; tqe_prev := Some p |}
      /\ chain f ls (tqe_next_of f t) l'
  end.

(** The list at the head [h] is well formed and holds the elements of [l],
    in this order, each once: what [TAILQ_INIT] leaves, and then every
    insertion of an element that is on no list and every removal of an
    element that is on this one. *)
Definition is_tailq (h : head) (f : link) (l : list nat) (m : mem) : Prop :=
  NoDup l
  /\ tqh_first (head_of h m) = List.head l
  /\ chain f (links f m) (tqh_first_of h) l
  /\ tqh_last (head_of h m) = last_ptr f (tqh_first_of h) l.

(** the link fields after [TAILQ_INSERT_TAIL] of [t] behind the pointer
    [lp] *)
Definition linked_tail (f : link) (ls : list tailq_entry) (lp : ptr) (t : nat)
  : list tailq_entry :=
  let ls1 := <[t := {| tqe_next := None; tqe_prev := Some lp |}]> ls in
  match lp with
  | tqe_next_of f' p =>
      if bool_decide (f' = f) then
        match ls1 !! p with
        | Some e => <[p := {| tqe_next := Some t; tqe_prev := tqe_prev e |}]> ls1
        | None => ls1
        end
      else ls1
  | tqh_first_of _ => ls1
  end.

(** the link fields after [TAILQ_REMOVE] of [t] *)
Definition unlinked (f : link) (ls : list tailq_entry) (t : nat)
  : list tailq_entry :=
  match ls !! t with
  | Some e =>
      let ls1 :=
        match tqe_next e with
        | Some n =>
            match ls !! n with
            | Some en =>
                <[n := {| tqe_next := tqe_next en; tqe_prev := tqe_prev e |}]> ls
            | None => ls
            end
        | None => ls
        end in
      match tqe_prev e with
      | Some (tqe_next_of f' p) =>
          if bool_decide (f' = f) then
            match ls1 !! p with
            | Some ep =>
                <[p := {| tqe_next := tqe_next e; tqe_prev := tqe_prev ep |}]> ls1
            | None => ls1
            end
          else ls1
      | _ => ls1
      end
  | None => ls
  end.

(** *** Descriptors and connections *)

Definition rd_tx (t : nat) : M sock_tx :=
  m ← get; deref (m_txs m !! t).

Definition wr_tx (t : nat) (v : sock_tx) : M unit :=
  _ ← rd_tx t;
  m ← get; put (with_txs (<[t := v]> (m_txs m)) m).

Definition rd_conn (connection : nat) : M cci_conn :=
  m ← get; deref (m_conns m !! connection).

Definition rd_sconn (p : option nat) : M sock_conn :=
  m ← get; deref (p ≫= (λ a, m_sconns m !! a)).

(** [sock_sendto] on the endpoint's socket: its return value *)
Definition sock_sendto_call (len : Z) : M Z :=
  m ← get;
  let '(r, e, k) := sock_sendto (m_kernel m) (m_errno m) len in
  put (with_kernel k e m);;
  mret r.

(** the [again:] loop of [sock_progress_queued]: the last return value of
    [sock_sendto] *)
Definition sock_send_again_call (len : Z) : M Z :=
  m ← get;
  match sock_send_again (S (S (length (m_kernel m)))) (m_kernel m)
          (m_errno m) len with
  | Some (r, e, k) => put (with_kernel k e m);; mret r
  | None => fault
  end.

Section Transport.
Context `{core_sock_h}.

(** *** The progress passes *)

(** The body of the loop of [sock_progress_pending], for the tx at [t]. *)
Definition sock_progress_pending_tx (t : nat) : M ctl :=
  tx ← rd_tx t;
  match evt_info tx with
  | info_send connection context _ =>
      conn ← rd_conn connection;
      let tx := tx_set_cycles (cycles tx + 1) tx in
      let tx := tx_set_resends (resends tx + 1) tx in
      wr_tx t tx;;
      m ← get;
      if (resends tx >=? m_tx_timeout m) || (resends tx >=? tx_timeout conn)
      then
        (* dequeue *)
        TAILQ_REMOVE pending t dentry;;
        wr_tx t (tx_set_evt_info (info_send connection context CCI_ETIMEDOUT) tx);;
        pthread_mutex_lock ep_lock;;
        TAILQ_INSERT_TAIL evts t entry;;
        pthread_mutex_unlock ep_lock;;
        mret Continue
      else
        _ ← rd_sconn (priv conn);
        r ← sock_sendto_call (len tx);
        m ← get;
        if r =? -1 then
          if m_errno m =? EINTR then
            (* break, then assert(ret == left) *)
            if r =? len tx then mret Continue else abort
          else
            (* give up for now *)
            pthread_mutex_unlock sdev_lock;;
            mret Return
        else mret Continue
  | _ => fault
  end.

(** [sock_progress_pending] *)
Definition sock_progress_pending : M unit :=
  pthread_mutex_lock sdev_lock;;
  r ← TAILQ_FOREACH_SAFE pending dentry sock_progress_pending_tx;
  match r with
  | Continue => pthread_mutex_unlock sdev_lock
  | Return => mret tt
  end.

(** The block under [if (tx->resends * SOCK_RESEND_TIME >= timeout)] of
    [sock_progress_queued].  There is no [continue] at its end. *)
Definition sock_progress_queued_expire (t : nat) : M ctl :=
  tx ← rd_tx t;
  r ← match msg_type tx with
      | SOCK_MSG_SEND =>
          i ← deref (set_send_status (evt_info tx) CCI_ETIMEDOUT);
          wr_tx t (tx_set_evt_info i tx);;
          mret Continue
      | SOCK_MSG_CONN_REQUEST | SOCK_MSG_CONN_REPLY | SOCK_MSG_CONN_ACK =>
          wr_tx t (tx_set_evt_type CCI_EVENT_CONNECT_TIMEOUT tx);;
          mret Continue
      | SOCK_MSG_other _ => mret Return
      end;
  match r with
  | Return => mret Return
  | Continue =>
      tx ← rd_tx t;
      if bool_decide (msg_type tx = SOCK_MSG_SEND)
         && negb (Z.land (flags tx) CCI_FLAG_SILENT =? 0)
      then
        (* if SILENT, put idle tx *)
        wr_tx t (tx_set_state SOCK_TX_IDLE tx);;
        pthread_mutex_lock sep_lock;;
        TAILQ_INSERT_HEAD idle_txs t dentry;;
        pthread_mutex_unlock sep_lock;;
        mret Continue
      else
        wr_tx t (tx_set_state SOCK_TX_COMPLETED tx);;
        pthread_mutex_lock ep_lock;;
        TAILQ_INSERT_TAIL evts t entry;;
        pthread_mutex_unlock ep_lock;;
        mret Continue
  end.

(** The loop body of [sock_progress_queued] from [left = tx->len] on:
    write the tx to the wire, then requeue it or file it.  [sdev->lock] is
    taken here a second time. *)
Definition sock_progress_queued_send (t : nat) (conn : cci_conn) : M ctl :=
  tx ← rd_tx t;
  _ ← rd_sconn (priv conn);
  r ← sock_send_again_call (len tx);
  m ← get;
  if (r =? -1) && negb (m_errno m =? EINTR) then
    (* requeue *)
    pthread_mutex_lock sdev_lock;;
    TAILQ_INSERT_HEAD queued t dentry;;
    pthread_mutex_unlock sdev_lock;;
    mret Return
  else
    (* msg sent *)
    if is_reliable (attribute conn) then
      wr_tx t (tx_set_state SOCK_TX_PENDING tx);;
      pthread_mutex_lock sdev_lock;;
      TAILQ_INSERT_TAIL pending t dentry;;
      pthread_mutex_unlock sdev_lock;;
      mret Continue
    else
      (* TODO handle SILENT flag *)
      wr_tx t (tx_set_state SOCK_TX_COMPLETED tx);;
      pthread_mutex_lock ep_lock;;
      TAILQ_INSERT_TAIL evts t entry;;
      pthread_mutex_unlock ep_lock;;
      mret Continue.

(** The body of the loop of [sock_progress_queued], for the tx at [t].  The
    [TAILQ_REMOVE] and the unlock at its head are commented out in the
    source. *)
Definition sock_progress_queued_tx (t : nat) : M ctl :=
  tx ← rd_tx t;
  connection ← deref (queued_connection tx);
  conn ← rd_conn connection;
  let tx := tx_set_cycles (cycles tx + 1) tx in
  wr_tx t tx;;
  if negb (cycles tx mod SOCK_PROG_FREQ =? 0) then mret Continue
  else
    let tx := tx_set_resends (resends tx + 1) tx in
    wr_tx t tx;;
    m ← get;
    let timeout :=
      if negb (tx_timeout conn =? 0) then tx_timeout conn
      else m_tx_timeout m in
    r ← (if resends tx * SOCK_RESEND_TIME >=? timeout
         then sock_progress_queued_expire t
         else mret Continue);
    match r with
    | Return => mret Return
    | Continue => sock_progress_queued_send t conn
    end.

(** [sock_progress_queued]: the mutex taken at its head is not released;
    after the loop comes the statement
    [while (!TAILQ_EMPTY(&sdev->queued));]. *)
Definition sock_progress_queued : M unit :=
  pthread_mutex_lock sdev_lock;;
  r ← TAILQ_FOREACH_SAFE queued dentry sock_progress_queued_tx;
  match r with
  | Return => mret tt
  | Continue =>
      hd ← rd_head queued;
      match tqh_first hd with
      | None => mret tt
      | Some _ => spin
      end
  end.

Definition sock_progress_sends : M unit :=
  sock_progress_pending;;
  sock_progress_queued.

(** *** send *)

(** [sock_sendv] from "get a tx" to its end. *)
Definition sock_sendv_queue (tx : option nat) (connection : nat)
    (conn : cci_conn) (header_len data_len context flags_ : Z)
  : M cci_status :=
  let reliable := is_reliable (attribute conn) in
  (* get a tx *)
  pthread_mutex_lock sep_lock;;
  idle ← rd_head idle_txs;
  tx ← match tqh_first idle with
       | Some t => TAILQ_REMOVE idle_txs t dentry;; mret (Some t)
       | None => mret tx
       end;
  pthread_mutex_unlock sep_lock;;
  match tx with
  | None => mret CCI_ENOBUFS
  | Some t =>
      (* tx bookkeeping, the event, the send header *)
      old ← rd_tx t;
      _ ← rd_sconn (priv conn);
      wr_tx t {| msg_type := SOCK_MSG_SEND; flags := flags_;
                 state := state old; seq := seq old; cycles := cycles old;
                 resends := resends old; len := sizeof_sock_header_t;
                 evt_type := CCI_EVENT_SEND;
                 evt_info := info_send connection context CCI_SUCCESS |};;
      (* if reliable, add seq and ack *)
      seq_ ← (if reliable then
                p ← deref (priv conn);
                pthread_mutex_lock (sconn_lock p);;
                sconn ← rd_sconn (Some p);
                m ← get;
                put (with_sconns
                       (<[p := sconn_set_seq (sconn_seq sconn + 1) sconn]>
                          (m_sconns m)) m);;
                pthread_mutex_unlock (sconn_lock p);;
                mret (sconn_seq sconn)
              else mret (seq old));
      let tx :=
        {| msg_type := SOCK_MSG_SEND; flags := flags_; state := state old;
           seq := seq_; cycles := 0; resends := 0;
           len := sizeof_sock_header_t
                  + (if reliable then sizeof_sock_seq_ack_t else 0)
                  + (header_len + data_len);
           evt_type := CCI_EVENT_SEND;
           evt_info := info_send connection context CCI_SUCCESS |} in
      wr_tx t tx;;
      m ← get;
      if negb (len tx <=? m_buffer_len m) then abort
      else
        wr_tx t (tx_set_state SOCK_TX_QUEUED tx);;
        pthread_mutex_lock sdev_lock;;
        TAILQ_INSERT_TAIL queued t dentry;;
        pthread_mutex_unlock sdev_lock;;
        sock_progress_sends;;
        if negb reliable then mret CCI_SUCCESS
        else
          tx ← rd_tx t;
          if negb (Z.land (flags tx) CCI_FLAG_BLOCKING =? 0) then
            (* while (tx->state != SOCK_TX_COMPLETED) usleep(..) *)
            if bool_decide (state tx = SOCK_TX_COMPLETED) then
              match evt_info tx with
              | info_send _ _ status =>
                  pthread_mutex_lock ep_lock;;
                  TAILQ_REMOVE evts t entry;;
                  pthread_mutex_unlock ep_lock;;
                  pthread_mutex_lock sep_lock;;
                  TAILQ_INSERT_HEAD idle_txs t dentry;;
                  pthread_mutex_unlock sep_lock;;
                  mret status
              | _ => fault
              end
            else spin
          else mret CCI_SUCCESS
  end.

(** [sock_sendv].  [tx] is the value that the uninitialised local variable
    [tx] holds on entry ([None] for NULL); memory allocation is taken to
    succeed.  On an unreliable connection the code first packs through
    [tx->buffer] and sends a scratch buffer. *)
Definition sock_sendv (tx : option nat) (connection : nat)
    (header_len : Z) (segs : list (bool * Z)) (context flags_ : Z)
  : M cci_status :=
  m ← get;
  if negb (m_sglobals m) then mret CCI_ENODEV
  else
    match sum_segments segs 0 with
    | None => mret CCI_EINVAL
    | Some data_len =>
        conn ← rd_conn connection;
        if uint32 (header_len + data_len) >? max_send_size conn
        then mret CCI_EMSGSIZE
        else
          sent ← (if is_reliable (attribute conn) then mret false
                  else
                    (* if unreliable, try to send *)
                    t ← deref tx;
                    d ← rd_tx t;
                    _ ← rd_sconn (priv conn);
                    let len_ := sizeof_sock_header_t + header_len + data_len in
                    wr_tx t (tx_set_len len_ d);;
                    r ← sock_sendto_call len_;
                    mret (r =? 0));
          if sent : bool then mret CCI_SUCCESS
          else
            sock_sendv_queue tx connection conn header_len data_len
              context flags_
    end.

(** [sock_send]: one segment when there are data, none otherwise. *)
Definition sock_send (tx : option nat) (connection : nat)
    (header_len : Z) (data_ptr : bool) (data_len : Z) (context flags_ : Z)
  : M cci_status :=
  let segs := if data_ptr && negb (data_len =? 0)
              then [(data_ptr, data_len)] else [] in
  sock_sendv tx connection header_len segs context flags_.

End Transport.

(** *** The pending pass on a descriptor *)

(** The test of the pending pass on the tx at [t], as the pass will make
    it: [tx->resends] after the increment against the two timeouts. *)
Definition tx_expired (m : mem) (t : nat) : bool :=
  match m_txs m !! t with
  | Some tx =>
      match evt_info tx with
      | info_send connection _ _ =>
          match m_conns m !! connection with
          | Some conn =>
              (resends tx + 1 >=? m_tx_timeout m)
              || (resends tx + 1 >=? tx_timeout conn)
          | None => false
          end
      | _ => false
      end
  | None => false
  end.

(** The tx at [t] is the descriptor of a send in flight: its event names a
    connection of the table whose private part exists. *)
Definition tx_in_flight (m : mem) (t : nat) : Prop :=
  exists tx connection context status conn sconn,
    m_txs m !! t = Some tx
    /\ evt_info tx = info_send connection context status
    /\ m_conns m !! connection = Some conn
    /\ priv conn ≫= (λ p, m_sconns m !! p) = Some sconn
    /\ len tx <> -1.

(** The two memories agree on everything but the descriptors, the list
    heads, the contents of the link fields and the environment of
    [sendto]; in particular the same mutexes are held. *)
Definition pass_frame (m m' : mem) : Prop :=
  m_sglobals m' = m_sglobals m
  /\ m_conns m' = m_conns m
  /\ m_sconns m' = m_sconns m
  /\ m_tx_timeout m' = m_tx_timeout m
  /\ m_buffer_len m' = m_buffer_len m
  /\ m_held m' = m_held m
  /\ length (m_txs m') = length (m_txs m)
  /\ length (m_dentry m') = length (m_dentry m)
  /\ length (m_entry m') = length (m_entry m).

(** *** Sample memories *)

(** One endpoint (send timeout 64) with one connection and one tx; the
    lists are empty and no mutex is held. *)
Definition sample_mem (conn : cci_conn) (tx : sock_tx) : mem :=
  {| m_sglobals := true; m_txs := [tx];
     m_dentry := [{| tqe_next := None; tqe_prev := None |}];
     m_entry := [{| tqe_next := None; tqe_prev := None |}];
     m_conns := [conn]; m_sconns := [sock_conn_zero];
     m_tx_timeout := 64; m_buffer_len := 8232;
     m_queued := TAILQ_INIT queued; m_pending := TAILQ_INIT pending;
     m_idle_txs := TAILQ_INIT idle_txs; m_evts := TAILQ_INIT evts;
     m_held := []; m_kernel := []; m_errno := 0 |}.

(** the memory a statement leaves *)
Definition after {A : Type} (c : M A) (m : mem) : mem :=
  match c m with
  | Ok _ m' => m'
  | _ => m
  end.

(** The tx of a send is in flight on an RU connection with the given send
    timeout: [TAILQ_INSERT_TAIL(&sdev->pending, tx, dentry)] has put it on
    the pending list.  No tx is idle. *)
Definition in_flight (timeout : Z) : mem :=
  after (TAILQ_INSERT_TAIL pending 0 dentry)
    (sample_mem (sample_connection CCI_CONN_ATTR_RU timeout)
       (sample_send_tx SOCK_TX_PENDING 0)).

(** The tx of a send is on the queued list, put there by
    [TAILQ_INSERT_TAIL(&sdev->queued, tx, dentry)]; the kernel will take
    one datagram. *)
Definition queued_one (attribute_ timeout : Z) : mem :=
  after (TAILQ_INSERT_TAIL queued 0 dentry)
    (with_kernel [sys_sent] 0
       (sample_mem (sample_connection attribute_ timeout)
          (sample_send_tx SOCK_TX_QUEUED 0))).

(** an RU connection and one idle tx *)
Definition one_idle : mem :=
  after (TAILQ_INSERT_TAIL idle_txs 0 dentry)
    (sample_mem (sample_connection CCI_CONN_ATTR_RU 0) sample_tx).

(** two descriptors and one RU connection; the first descriptor has been
    resent 63 times, the second never; the lists are empty *)
Definition two_txs (timeout : Z) : mem :=
  {| m_sglobals := true;
     m_txs := [tx_set_resends 63 (sample_send_tx SOCK_TX_PENDING 0);
               sample_send_tx SOCK_TX_PENDING 0];
     m_dentry := [{| tqe_next := None; tqe_prev := None |};
                  {| tqe_next := None; tqe_prev := None |}];
     m_entry := [{| tqe_next := None; tqe_prev := None |};
                 {| tqe_next := None; tqe_prev := None |}];
     m_conns := [sample_connection CCI_CONN_ATTR_RU timeout];
     m_sconns := [sock_conn_zero];
     m_tx_timeout := 64; m_buffer_len := 8232;
     m_queued := TAILQ_INIT queued; m_pending := TAILQ_INIT pending;
     m_idle_txs := TAILQ_INIT idle_txs; m_evts := TAILQ_INIT evts;
     m_held := []; m_kernel := [sys_error EAGAIN]; m_errno := 0 |}.

(** both descriptors are in flight: put on the pending list one after the
    other *)
Definition two_in_flight (timeout : Z) : mem :=
  after (TAILQ_INSERT_TAIL pending 1 dentry)
    (after (TAILQ_INSERT_TAIL pending 0 dentry) (two_txs timeout)).

End SockLinks.

(* ===================================================================== *)
(** ** rma_verify: option handling and the client's schedule of sizes *)
(* ===================================================================== *)

Module RmaVerify.

Definition ITERS : Z := 1.
Definition RMA_REG_LEN : Z := 4 * 1024 * 1024.

(** The globals [main] has set when the [getopt] loop ends. *)
Record options := {
  is_server : bool;
  is_client : bool;
  server_uri : option string;
  blocking : bool;
  ignore_os_handle : bool;
  reg_len : Z;                (* opts.reg_len *)
  length_ : Z;                (* length *)
  local_offset : Z;
  remote_offset : Z
}.

Definition set_lengths (o : options) (r l : Z) : options :=
  {| is_server := is_server o; is_client := is_client o;
     server_uri := server_uri o; blocking := blocking o;
     ignore_os_handle := ignore_os_handle o; reg_len := r; length_ := l;
     local_offset := local_offset o; remote_offset := remote_offset o |}.

(** [main] from the end of the [getopt] loop to the call of [cci_init]:
    [None] when it leaves through [print_usage]; otherwise the options with
    the two lengths settled, and whether the warning about offsets is
    printed. *)
Definition main_settle (o : options) : option (options * bool) :=
  if negb (is_server o) && negb (bool_decide (is_Some (server_uri o))) then None
  else if is_server o && is_client o then None
  else if blocking o && ignore_os_handle o then None
  else
    let r :=
      if reg_len o =? 0
      then (if length_ o =? 0 then RMA_REG_LEN else length_ o)
      else reg_len o in
    let l :=
      if length_ o =? 0
      then (if r =? 0 then RMA_REG_LEN else r)
      else length_ o in
    let warn :=
      (r =? l)
      && (negb (local_offset o =? 0) || negb (remote_offset o =? 0)) in
    Some (set_lengths o r l, warn).

(** [uint32_t] arithmetic *)
Definition uint32 (z : Z) : Z := z mod 2 ^ 32.

(** The loop of [do_client] over the sizes, on a run where every transfer
    completes and the connection stays up: the sizes tested, each with the
    number of iterations in force for it.  [current_size] is a [uint32_t],
    [iters] an [int]. *)
Fixpoint do_client_sizes (fuel : nat) (length current_size iters : Z)
  : option (list (Z * Z)) :=
  match fuel with
  | O => None
  | S fuel' =>
      if current_size <=? length then
        let current_size' := uint32 (current_size * 2) in
        let iters' :=
          if current_size' >=? 64 * 1024
          then (if iters >=? 32 then Z.quot iters 2 else iters)
          else iters in
        match do_client_sizes fuel' length current_size' iters' with
        | Some l => Some ((current_size, iters) :: l)
        | None => None
        end
      else Some []
  end.

Definition sample_options (r l : Z) : options :=
  {| is_server := false; is_client := true; server_uri := Some "ip://peer";
     blocking := false; ignore_os_handle := false; reg_len := r;
     length_ := l; local_offset := 0; remote_offset := 0 |}.

End RmaVerify.

(* ===================================================================== *)
(** ** The RMA engine *)
(* ===================================================================== *)

(** Modelled from the spec: the RMA engine behind [cci_rma] and
    [cci_rma_register] (spec sections 3 "RMA handle", 4.4 and 7).  Missing
    from the sources are the core's [cci_rma] and every transport that
    implements RMA: the sources hold the stubs of the sock transport
    ([sock_rma], [sock_rma_register]: [CCI_ERR_NOT_IMPLEMENTED]) and the
    test rma_verify.c, which calls [cci_rma].  Offsets and lengths are
    natural numbers, bytes and tokens integers. *)
Module Rma.
Import Sock.

(** Modelled from the spec: a registration record, "start address, length,
    protection flags (READ, WRITE)", the registered memory given by its
    bytes.  The endpoint pointer is the table the record is in. *)
Record registration := {
  reg_bytes : list Z;
  reg_flags : Z
}.

(** Modelled from the spec: the RMA registration tables of the two
    endpoints of a connection, by the "64-bit opaque token" of the
    handle. *)
Record rma_world := {
  local_regs : gmap Z registration;
  remote_regs : gmap Z registration
}.

(** the bytes [offset, offset + len) of a buffer, as far as it has them *)
Definition slice (bytes : list Z) (offset len : nat) : list Z :=
  take len (drop offset bytes).

(** [data] written over the bytes of a buffer from [offset] on *)
Definition write_at (offset : nat) (data bytes : list Z) : list Z :=
  take offset bytes ++ data ++ drop (offset + length data) bytes.

Definition in_region (r : registration) (offset len : nat) : bool :=
  (offset + len <=? length (reg_bytes r))%nat.

Definition allows (r : registration) (flag : Z) : bool :=
  negb (Z.land (reg_flags r) flag =? 0).

(** Modelled from the spec: "The engine segments length into fragments of
    size min(max_send_size, transport_mtu)".  A fragment is its offset in
    the transfer and its size; [fuel] bounds their number. *)
Fixpoint segments (fuel frag offset len : nat) : list (nat * nat) :=
  match fuel with
  | O => []
  | S fuel' =>
      match len with
      | O => []
      | _ =>
          let n := Nat.min frag len in
          (offset, n) :: segments fuel' frag (offset + n) (len - n)
      end
  end.

(** Modelled from the spec: the peer's handling of a WRITE packet, which
    carries "the remote token and the fragment's remote offset" and the
    data.  The peer rejects an "unknown/unauthorised handle"; a fragment
    that leaves the region is rejected as well. *)
Definition recv_write (regs : gmap Z registration) (token : Z)
    (offset : nat) (data : list Z) : option (gmap Z registration) :=
  match regs !! token with
  | Some r =>
      if allows r CCI_FLAG_WRITE && in_region r offset (length data)
      then Some (<[token := {| reg_bytes := write_at offset data (reg_bytes r);
                               reg_flags := reg_flags r |}]> regs)
      else None
  | None => None
  end.

(** Modelled from the spec: the peer's handling of a READ_REQ packet: the
    data of its READ_REPLY, "data for the requested window". *)
Definition recv_read_req (regs : gmap Z registration) (token : Z)
    (offset len : nat) : option (list Z) :=
  match regs !! token with
  | Some r =>
      if allows r CCI_FLAG_READ && in_region r offset len
      then Some (slice (reg_bytes r) offset len)
      else None
  | None => None
  end.

(** Modelled from the spec: a WRITE, fragment by fragment. *)
Fixpoint rma_write (frs : list (nat * nat)) (src : list Z)
    (local_offset : nat) (token : Z) (remote_offset : nat)
    (remote : gmap Z registration) : option (gmap Z registration) :=
  match frs with
  | [] => Some remote
  | (o, n) :: frs' =>
      match recv_write remote token (remote_offset + o)
              (slice src (local_offset + o) n) with
      | Some remote' =>
          rma_write frs' src local_offset token remote_offset remote'
      | None => None
      end
  end.

(** Modelled from the spec: a READ, fragment by fragment: the data of each
    READ_REPLY go to the local buffer at the fragment's local offset. *)
Fixpoint rma_read (frs : list (nat * nat)) (dst : list Z)
    (local_offset : nat) (token : Z) (remote_offset : nat)
    (remote : gmap Z registration) : option (list Z) :=
  match frs with
  | [] => Some dst
  | (o, n) :: frs' =>
      match recv_read_req remote token (remote_offset + o) n with
      | Some data =>
          rma_read frs' (write_at (local_offset + o) data dst) local_offset
            token remote_offset remote
      | None => None
      end
  end.

(** Modelled from the spec: [rma] of section 4.4, without the completion
    message, FENCE and the events.  "Requires a reliable connection (RO or
    RU).  UU fails with INVALID.  Exactly one of READ/WRITE set."  A local
    handle that is not registered and a local window that leaves its
    region are bad arguments; what the peer rejects gives [RMA_HANDLE],
    and the call then leaves the regions as they were. *)
Definition rma (max_send_size transport_mtu : positive) (w : rma_world)
    (attribute_ : Z) (local_handle : Z) (local_offset : nat)
    (remote_handle : Z) (remote_offset : nat) (len : nat) (flags_ : Z)
  : cci_status * rma_world :=
  let read := negb (Z.land flags_ CCI_FLAG_READ =? 0) in
  let write := negb (Z.land flags_ CCI_FLAG_WRITE =? 0) in
  if negb ((attribute_ =? CCI_CONN_ATTR_RO) || (attribute_ =? CCI_CONN_ATTR_RU))
  then (CCI_EINVAL, w)
  else if negb (xorb read write) then (CCI_EINVAL, w)
  else
    match local_regs w !! local_handle with
    | None => (CCI_EINVAL, w)
    | Some l =>
        if negb (in_region l local_offset len) then (CCI_EINVAL, w)
        else
          let frag := Pos.to_nat (Pos.min max_send_size transport_mtu) in
          let frs := segments len frag 0 len in
          if write then
            match rma_write frs (reg_bytes l) local_offset remote_handle
                    remote_offset (remote_regs w) with
            | Some remote' =>
                (CCI_SUCCESS,
                 {| local_regs := local_regs w; remote_regs := remote' |})
            | None => (CCI_ERR_RMA_HANDLE, w)
            end
          else
            match rma_read frs (reg_bytes l) local_offset remote_handle
                    remote_offset (remote_regs w) with
            | Some bytes =>
                (CCI_SUCCESS,
                 {| local_regs :=
                      <[local_handle := {| reg_bytes := bytes;
                                           reg_flags := reg_flags l |}]>
                        (local_regs w);
                    remote_regs := remote_regs w |})
            | None => (CCI_ERR_RMA_HANDLE, w)
            end
    end.


(** *** The check of rma_verify.c (from the source) *)




(** *** Samples *)



End Rma.

(* ===================================================================== *)
(** ** cci.h: the names of the event types *)
(* ===================================================================== *)

Module CciH.

(** [enum cci_event_type], by value *)
Definition CCI_EVENT_NONE : Z := 0.
Definition CCI_EVENT_SEND : Z := 1.
Definition CCI_EVENT_RECV : Z := 2.
Definition CCI_EVENT_CONNECT : Z := 3.
Definition CCI_EVENT_CONNECT_REQUEST : Z := 4.
Definition CCI_EVENT_ACCEPT : Z := 5.
Definition CCI_EVENT_KEEPALIVE_TIMEDOUT : Z := 6.
Definition CCI_EVENT_ENDPOINT_DEVICE_FAILED : Z := 7.

(** [cci_event_type_str] *)
Definition cci_event_type_str (type : Z) : string :=
  if type =? CCI_EVENT_NONE then "CCI_EVENT_NONE"
  else if type =? CCI_EVENT_SEND then "CCI_EVENT_SEND"
  else if type =? CCI_EVENT_RECV then "CCI_EVENT_RECV"
  else if type =? CCI_EVENT_CONNECT then "CCI_EVENT_CONNECT"
  else if type =? CCI_EVENT_CONNECT_REQUEST then "CCI_EVENT_CONNECT_REQUEST"
  else if type =? CCI_EVENT_ACCEPT then "CCI_EVENT_ACCEPT"
  else if type =? CCI_EVENT_KEEPALIVE_TIMEDOUT then "CCI_EVENT_KEEPALIVE_TIMEDOUT"
  else if type =? CCI_EVENT_ENDPOINT_DEVICE_FAILED
       then "CCI_EVENT_ENDPOINT_DEVICE_FAILED"
  else "Unknown event".

End CciH.

(* ===================================================================== *)
(** ** The GNI transport's header: time stamps *)
(* ===================================================================== *)

Module Gni.

(** [struct timeval]; both fields are [long] on LP64. *)
Record timeval := {
  tv_sec : Z;
  tv_usec : Z
}.

Definition long_range (z : Z) : bool := (- 2 ^ 63 <=? z) && (z <? 2 ^ 63).

(** [gni_tv_to_usecs]: the sum is computed in [long] ([None] when it
    overflows) and converted to [uint64_t]. *)
Definition gni_tv_to_usecs (tv : timeval) : option Z :=
  let m := tv_sec tv * 1000000 in
  if long_range m then
    let s := m + tv_usec tv in
    if long_range s then Some (s mod 2 ^ 64) else None
  else None.

(** a time value as [gettimeofday] gives it *)
Definition normal (tv : timeval) : Prop :=
  0 <= tv_sec tv < 2 ^ 40 /\ 0 <= tv_usec tv < 1000000.

(** [a] is not later than [b] *)
Definition tv_le (a b : timeval) : Prop :=
  tv_sec a < tv_sec b \/ (tv_sec a = tv_sec b /\ tv_usec a <= tv_usec b).

End Gni.

(* ===================================================================== *)
(** ** Properties of the ccieth receive path *)
(* ===================================================================== *)

Module CciethProps.
Import Ccieth.

Lemma to_int_small z : 0 <= z < 2 ^ 31 -> to_int z = z.
Proof.
  intros Hz. unfold to_int.
  rewrite Z.mod_small by lia. lia.
Qed.

Lemma size_t_wrap_small z : 0 <= z < 2 ^ 64 -> size_t_wrap z = z.
Proof. intros Hz. unfold size_t_wrap. now rewrite Z.mod_small. Qed.

Lemma skb_len_nonneg skb : 0 <= skb_len skb.
Proof. unfold skb_len. lia. Qed.

(** A copy whose window lies inside the frame succeeds. *)
Lemma skb_copy_bits_in_bounds skb offset len_ :
  0 <= offset -> 0 <= len_ -> skb_len skb < 2 ^ 31 ->
  offset + len_ <= skb_len skb ->
  fst (skb_copy_bits skb offset len_) = 0.
Proof.
  intros Ho Hl Hs Hb. unfold skb_copy_bits.
  pose proof (skb_len_nonneg skb) as Hn.
  rewrite !to_int_small by lia.
  destruct (offset >? skb_len skb - len_) eqn:E; [lia | reflexivity].
Qed.

(** What [ccieth_recv_msg] does once the checks have passed. *)
Lemma ccieth_recv_msg_addressed hdr_size d ifp_ skb ep conn :
  addressed_to hdr_size d ifp_ skb ep conn ->
  ccieth_recv_msg hdr_size d ifp_ skb =
    if bool_decide (status conn = CCIETH_CONNECTION_READY) then
      match ccieth__recv_msg hdr_size ep conn (skb_hdr skb) skb with
      | KReturn err ep' =>
          KReturn err (set_endpoint d (dst_ep_id (skb_hdr skb)) ep')
      | KBug => KBug
      end
    else if bool_decide (status conn = CCIETH_CONNECTION_REQUESTED)
            && bool_decide (attribute conn = CCIETH_CONNECT_ATTR_UU)
    then
      KReturn 0 (set_endpoint d (dst_ep_id (skb_hdr skb))
                   (set_connection ep (dst_conn_id (skb_hdr skb))
                      (ccieth_conn_uu_defer_recv_msg conn skb)))
    else KReturn (- EINVAL) d.
Proof.
  intros (Hh & He & Hi & Hm & Hs & Hc).
  unfold ccieth_recv_msg, skb_header_pointer.
  destruct (hdr_size <=? skb_len skb) eqn:E1; [| lia].
  rewrite He. rewrite bool_decide_true by exact Hi. cbn [negb].
  destruct (msg_len (skb_hdr skb) >? max_send_size ep) eqn:E2; [lia |].
  destruct (skb_len skb <? size_t_wrap (hdr_size + msg_len (skb_hdr skb))) eqn:E3;
    [lia |].
  cbn [orb]. rewrite Hc. reflexivity.
Qed.

(** Whenever [ccieth_recv_msg] changes the driver state, the packet had
    passed the checks. *)
Lemma ccieth_recv_msg_changed hdr_size d ifp_ skb err d' :
  ccieth_recv_msg hdr_size d ifp_ skb = KReturn err d' ->
  d' <> d ->
  exists ep conn, addressed_to hdr_size d ifp_ skb ep conn.
Proof.
  unfold ccieth_recv_msg, skb_header_pointer, addressed_to.
  destruct (hdr_size <=? skb_len skb) eqn:E1; [| intros [= _ <-]; done].
  destruct (ccieth_ep_idr d !! dst_ep_id (skb_hdr skb)) as [ep|] eqn:He;
    [| intros [= _ <-]; done].
  destruct (bool_decide (ifp ep = Some ifp_)) eqn:Hi; cbn [negb];
    [| intros [= _ <-]; done].
  apply bool_decide_eq_true in Hi.
  destruct (msg_len (skb_hdr skb) >? max_send_size ep) eqn:E2; cbn [orb];
    [intros [= _ <-]; done |].
  destruct (skb_len skb <? size_t_wrap (hdr_size + msg_len (skb_hdr skb))) eqn:E3;
    [intros [= _ <-]; done |].
  destruct (connection_idr ep !! dst_conn_id (skb_hdr skb)) as [conn|] eqn:Hc;
    [| intros [= _ <-]; done].
  intros _ _. exists ep, conn. repeat split; try done; lia.
Qed.

Lemma events_of_set_endpoint d id ep :
  events_of (set_endpoint d id ep) id = event_list ep.
Proof.
  unfold events_of, set_endpoint. cbn. now rewrite lookup_insert_eq.
Qed.

Lemma events_of_set_endpoint_ne d id ep e :
  e <> id -> events_of (set_endpoint d id ep) e = events_of d e.
Proof.
  intros Hne. unfold events_of, set_endpoint. cbn.
  now rewrite lookup_insert_ne by congruence.
Qed.

Lemma set_endpoint_same d id ep :
  ccieth_ep_idr d !! id = Some ep -> set_endpoint d id ep = d.
Proof.
  intros He. unfold set_endpoint. rewrite insert_id by exact He.
  now destruct d.
Qed.

Lemma ccieth__recv_msg_no_bug hdr_size ep conn skb :
  sizes_in_range hdr_size skb ->
  hdr_size + msg_len (skb_hdr skb) <= skb_len skb ->
  ccieth__recv_msg hdr_size ep conn (skb_hdr skb) skb <> KBug.
Proof.
  intros (Hh & Hs & Hm) Hb. unfold ccieth__recv_msg.
  destruct (free_event_list ep) as [|slot free]; [discriminate |].
  pose proof (skb_copy_bits_in_bounds skb hdr_size (msg_len (skb_hdr skb))
                ltac:(lia) ltac:(lia) Hs Hb) as Hc.
  destruct (skb_copy_bits skb hdr_size (msg_len (skb_hdr skb))) as [err bytes].
  cbn in Hc. subst err. cbn. discriminate.
Qed.

(** C10.  For every incoming MSG packet the payload is copied only after the
    two length checks: the call never reaches [BUG_ON]; a packet whose
    declared length exceeds [max_send_size], or which is shorter than header
    plus payload, is dropped with the state untouched; and whenever the call
    changes the state (which the copy does), both bounds hold. *)
Theorem recv_msg_copy_is_checked (hdr_size : Z) (d : driver) (ifp_ : Z)
    (skb : sk_buff) :
  sizes_in_range hdr_size skb ->
  ccieth_recv_msg hdr_size d ifp_ skb <> KBug
  /\ (forall ep,
        ccieth_ep_idr d !! dst_ep_id (skb_hdr skb) = Some ep ->
        msg_len (skb_hdr skb) > max_send_size ep
        \/ skb_len skb < hdr_size + msg_len (skb_hdr skb) ->
        ccieth_recv_msg hdr_size d ifp_ skb = KReturn (- EINVAL) d)
  /\ (forall err d',
        ccieth_recv_msg hdr_size d ifp_ skb = KReturn err d' ->
        d' <> d ->
        exists ep,
          ccieth_ep_idr d !! dst_ep_id (skb_hdr skb) = Some ep
          /\ msg_len (skb_hdr skb) <= max_send_size ep
          /\ hdr_size + msg_len (skb_hdr skb) <= skb_len skb).
Proof.
  intros Hr. pose proof Hr as (Hh & Hs & Hm).
  assert (Hw : size_t_wrap (hdr_size + msg_len (skb_hdr skb))
               = hdr_size + msg_len (skb_hdr skb)).
  { apply size_t_wrap_small. lia. }
  split; [| split].
  - destruct (ccieth_recv_msg hdr_size d ifp_ skb) as [err d'|] eqn:E;
      [discriminate |].
    exfalso. revert E.
    unfold ccieth_recv_msg, skb_header_pointer.
    destruct (hdr_size <=? skb_len skb); [| discriminate].
    destruct (ccieth_ep_idr d !! dst_ep_id (skb_hdr skb)) as [ep|];
      [| discriminate].
    destruct (negb (bool_decide (ifp ep = Some ifp_))); [discriminate |].
    destruct (msg_len (skb_hdr skb) >? max_send_size ep); cbn [orb];
      [discriminate |].
    rewrite Hw.
    destruct (skb_len skb <? hdr_size + msg_len (skb_hdr skb)) eqn:E3;
      [discriminate |].
    destruct (connection_idr ep !! dst_conn_id (skb_hdr skb)) as [conn|];
      [| discriminate].
    destruct (bool_decide (status conn = CCIETH_CONNECTION_READY)).
    + pose proof (ccieth__recv_msg_no_bug hdr_size ep conn skb Hr
                    ltac:(lia)) as Hn.
      destruct (ccieth__recv_msg hdr_size ep conn (skb_hdr skb) skb);
        [discriminate | congruence].
    + destruct (bool_decide (status conn = CCIETH_CONNECTION_REQUESTED)
                && bool_decide (attribute conn = CCIETH_CONNECT_ATTR_UU));
        discriminate.
  - intros ep He Hbad.
    unfold ccieth_recv_msg, skb_header_pointer.
    destruct (hdr_size <=? skb_len skb); [| reflexivity].
    rewrite He.
    destruct (negb (bool_decide (ifp ep = Some ifp_))); [reflexivity |].
    rewrite Hw.
    destruct (msg_len (skb_hdr skb) >? max_send_size ep) eqn:E2; cbn [orb];
      [reflexivity |].
    destruct (skb_len skb <? hdr_size + msg_len (skb_hdr skb)) eqn:E3;
      [reflexivity | lia].
  - intros err d' E Hne.
    destruct (ccieth_recv_msg_changed _ _ _ _ _ _ E Hne)
      as (ep & conn & _ & He & _ & Hmax & Hlen & _).
    exists ep. rewrite Hw in Hlen. auto.
Qed.

Lemma recv_msg_copy_is_checked_witness :
  sizes_in_range 4 sample_skb
  /\ ccieth_recv_msg 4
       (sample_driver (sample_ep [sample_slot]
          (sample_conn CCIETH_CONNECTION_READY CCIETH_CONNECT_ATTR_RU)))
       7 sample_skb <> KBug.
Proof.
  assert (Hr : sizes_in_range 4 sample_skb).
  { unfold sizes_in_range, skb_len. cbn. lia. }
  split; [exact Hr |].
  exact (proj1 (recv_msg_copy_is_checked 4 _ 7 sample_skb Hr)).
Defined.

Lemma events_of_lookup d id ep :
  ccieth_ep_idr d !! id = Some ep -> events_of d id = event_list ep.
Proof. intros He. unfold events_of. now rewrite He. Qed.

Lemma deferred_of_lookup d id cid ep conn :
  ccieth_ep_idr d !! id = Some ep ->
  connection_idr ep !! cid = Some conn ->
  deferred_of d id cid = deferred_recv conn.
Proof. intros He Hc. unfold deferred_of. now rewrite He, Hc. Qed.

(** Deferring a packet leaves every event queue as it was. *)
Lemma events_of_deferred d id cid ep conn' e :
  ccieth_ep_idr d !! id = Some ep ->
  events_of (set_endpoint d id (set_connection ep cid conn')) e = events_of d e.
Proof.
  intros He. destruct (decide (e = id)) as [-> | Hne].
  - rewrite events_of_set_endpoint. now rewrite (events_of_lookup d id ep).
  - now apply events_of_set_endpoint_ne.
Qed.

(** A delivery appends one RECV event for the connection. *)
Lemma ccieth__recv_msg_delivers hdr_size ep conn hdr skb err ep' :
  ccieth__recv_msg hdr_size ep conn hdr skb = KReturn err ep' ->
  event_list ep' <> event_list ep ->
  exists ev,
    event_list ep' = event_list ep ++ [ev]
    /\ event_type ev = CCIETH_IOCTL_EVENT_RECV
    /\ event_data_length ev = msg_len hdr
    /\ event_recv_user_conn_id ev = user_conn_id conn.
Proof.
  unfold ccieth__recv_msg.
  destruct (free_event_list ep) as [|slot free].
  { intros [= _ <-]. done. }
  destruct (skb_copy_bits skb hdr_size (msg_len hdr)) as [e bytes].
  destruct (e <? 0); [discriminate |].
  intros [= _ <-] _. cbn. eexists. split; [reflexivity |]. cbn. auto.
Qed.

(** C7.  Delivery by connection status.  A call of [ccieth_recv_msg] that
    queues an event does so for a READY connection, and the event is a RECV
    event; a MSG for a UU connection in state REQUESTED goes to the
    connection's deferred list and no event is queued; a MSG for a
    connection in any other state is dropped: [-EINVAL], nothing changes. *)
Theorem recv_msg_by_connection_status (hdr_size : Z) (d : driver) (ifp_ : Z)
    (skb : sk_buff) (err : Z) (d' : driver) :
  ccieth_recv_msg hdr_size d ifp_ skb = KReturn err d' ->
  let ep_id := dst_ep_id (skb_hdr skb) in
  let conn_id := dst_conn_id (skb_hdr skb) in
  (forall e, events_of d' e <> events_of d e ->
     exists ep conn ev,
       addressed_to hdr_size d ifp_ skb ep conn
       /\ status conn = CCIETH_CONNECTION_READY
       /\ e = ep_id
       /\ events_of d' e = events_of d e ++ [ev]
       /\ event_type ev = CCIETH_IOCTL_EVENT_RECV
       /\ event_recv_user_conn_id ev = user_conn_id conn)
  /\ (forall ep conn,
        addressed_to hdr_size d ifp_ skb ep conn ->
        status conn = CCIETH_CONNECTION_REQUESTED ->
        attribute conn = CCIETH_CONNECT_ATTR_UU ->
        err = 0
        /\ (forall e, events_of d' e = events_of d e)
        /\ deferred_of d' ep_id conn_id = deferred_of d ep_id conn_id ++ [skb])
  /\ (forall ep conn,
        addressed_to hdr_size d ifp_ skb ep conn ->
        status conn <> CCIETH_CONNECTION_READY ->
        ~ (status conn = CCIETH_CONNECTION_REQUESTED
           /\ attribute conn = CCIETH_CONNECT_ATTR_UU) ->
        err = - EINVAL /\ d' = d).
Proof.
  intros E ep_id conn_id. split; [| split].
  - intros e Hev.
    assert (Hne : d' <> d) by (intros ->; done).
    destruct (ccieth_recv_msg_changed _ _ _ _ _ _ E Hne) as (ep & conn & Ha).
    pose proof Ha as (_ & He & _).
    rewrite (ccieth_recv_msg_addressed _ _ _ _ _ _ Ha) in E.
    destruct (bool_decide (status conn = CCIETH_CONNECTION_READY)) eqn:Hs.
    + apply bool_decide_eq_true in Hs.
      destruct (ccieth__recv_msg hdr_size ep conn (skb_hdr skb) skb)
        as [err' ep'|] eqn:E'; [| discriminate].
      injection E as <- <-.
      destruct (decide (e = ep_id)) as [-> | Hd];
        [| now rewrite events_of_set_endpoint_ne in Hev].
      rewrite events_of_set_endpoint in Hev |- *.
      rewrite (events_of_lookup d ep_id ep He) in Hev |- *.
      destruct (ccieth__recv_msg_delivers _ _ _ _ _ _ _ E' Hev)
        as (ev & Hl & Ht & _ & Hu).
      exists ep, conn, ev. auto 10.
    + destruct (bool_decide (status conn = CCIETH_CONNECTION_REQUESTED)
                && bool_decide (attribute conn = CCIETH_CONNECT_ATTR_UU)).
      * injection E as <- <-. exfalso. apply Hev.
        now apply events_of_deferred.
      * injection E as <- <-. done.
  - intros ep conn Ha Hs Hat.
    pose proof Ha as (_ & He & _ & _ & _ & Hc).
    rewrite (ccieth_recv_msg_addressed _ _ _ _ _ _ Ha) in E.
    rewrite bool_decide_false in E by (rewrite Hs; discriminate).
    rewrite !bool_decide_true in E by assumption. cbn in E.
    injection E as <- <-. split; [reflexivity | split].
    + intros e. now apply events_of_deferred.
    + rewrite (deferred_of_lookup d ep_id conn_id ep conn He Hc).
      unfold deferred_of, set_endpoint, set_connection. cbn.
      subst ep_id conn_id. rewrite lookup_insert_eq. cbn.
      now rewrite lookup_insert_eq.
  - intros ep conn Ha Hs Hnot.
    rewrite (ccieth_recv_msg_addressed _ _ _ _ _ _ Ha) in E.
    rewrite bool_decide_false in E by exact Hs.
    destruct (bool_decide (status conn = CCIETH_CONNECTION_REQUESTED)) eqn:H1;
      destruct (bool_decide (attribute conn = CCIETH_CONNECT_ATTR_UU)) eqn:H2;
      cbn in E; try (injection E as <- <-; done).
    apply bool_decide_eq_true in H1, H2. tauto.
Qed.

Lemma recv_msg_by_connection_status_witness :
  let d := sample_driver (sample_ep [sample_slot]
             (sample_conn CCIETH_CONNECTION_REQUESTED CCIETH_CONNECT_ATTR_UU)) in
  exists d',
    ccieth_recv_msg 4 d 7 sample_skb = KReturn 0 d'
    /\ (forall e, events_of d' e = events_of d e)
    /\ deferred_of d' 5 3 = deferred_of d 5 3 ++ [sample_skb].
Proof.
  intros d.
  set (conn := sample_conn CCIETH_CONNECTION_REQUESTED CCIETH_CONNECT_ATTR_UU).
  set (ep := sample_ep [sample_slot] conn).
  set (d' := set_endpoint d 5
               (set_connection ep 3 (ccieth_conn_uu_defer_recv_msg conn sample_skb))).
  assert (E : ccieth_recv_msg 4 d 7 sample_skb = KReturn 0 d') by reflexivity.
  assert (Ha : addressed_to 4 d 7 sample_skb ep conn).
  { unfold addressed_to, skb_len, size_t_wrap. cbn. repeat split; try lia.
    all: reflexivity. }
  exists d'. split; [exact E |].
  destruct (recv_msg_by_connection_status 4 d 7 sample_skb 0 d' E)
    as (_ & Hdefer & _).
  destruct (Hdefer ep conn Ha eq_refl eq_refl) as (_ & Hev & Hd).
  split; [exact Hev | exact Hd].
Defined.

(** C6, as the code has it.  When a MSG packet arrives for a READY
    connection and the endpoint has no free event slot, the receiver drops
    the packet: the call returns [-ENOMEM], no event is queued and no frame
    is sent in reply. *)
Theorem recv_msg_no_event_slot (hdr_size : Z) (d : driver) (ifp_ : Z)
    (skb : sk_buff) (ep : ccieth_endpoint) (conn : ccieth_connection) :
  addressed_to hdr_size d ifp_ skb ep conn ->
  status conn = CCIETH_CONNECTION_READY ->
  free_event_list ep = [] ->
  ccieth_recv_msg hdr_size d ifp_ skb = KReturn (- ENOMEM) d.
Proof.
  intros Ha Hs Hf. pose proof Ha as (_ & He & _).
  rewrite (ccieth_recv_msg_addressed _ _ _ _ _ _ Ha).
  rewrite bool_decide_true by exact Hs.
  unfold ccieth__recv_msg. rewrite Hf.
  now rewrite set_endpoint_same.
Qed.

Lemma recv_msg_no_event_slot_witness :
  let conn := sample_conn CCIETH_CONNECTION_READY CCIETH_CONNECT_ATTR_RU in
  let d := sample_driver (sample_ep [] conn) in
  ccieth_recv_msg 4 d 7 sample_skb = KReturn (- ENOMEM) d.
Proof.
  intros conn d.
  apply (recv_msg_no_event_slot 4 d 7 sample_skb (sample_ep [] conn) conn).
  - unfold addressed_to, skb_len, size_t_wrap. cbn. repeat split; try lia.
    all: reflexivity.
  - reflexivity.
  - reflexivity.
Defined.

(** C6, as the spec states it, fails: on the sample state with no free
    event slot, a MSG for the READY connection gets no RNR NACK. *)
Lemma recv_msg_no_rnr_nack :
  let conn := sample_conn CCIETH_CONNECTION_READY CCIETH_CONNECT_ATTR_RU in
  let ep := sample_ep [] conn in
  let d := sample_driver ep in
  addressed_to 4 d 7 sample_skb ep conn
  /\ status conn = CCIETH_CONNECTION_READY
  /\ free_event_list ep = []
  /\ ~ replies_rnr_nack 4 d 7 sample_skb.
Proof.
  intros conn ep d.
  split; [| split; [reflexivity | split; [reflexivity |]]].
  { unfold addressed_to, skb_len, size_t_wrap. cbn. repeat split; try lia.
    all: reflexivity. }
  unfold replies_rnr_nack.
  replace (ccieth_recv_msg 4 d 7 sample_skb) with (KReturn (- ENOMEM) d)
    by reflexivity.
  intros (f & Hin & _). cbn in Hin. now apply elem_of_nil in Hin.
Qed.

End CciethProps.

(* ===================================================================== *)
(** ** Properties of the sock transport *)
(* ===================================================================== *)

Module SockProps.
Import Sock.

(** *** RMA *)

(** [sock_rma] moves no bytes: it returns [CCI_ENODEV] when the transport
    is not initialised and [CCI_ERR_NOT_IMPLEMENTED] otherwise, and the
    transport state is as it was. *)
Lemma sock_rma_not_implemented `{core_sock_h} (st : sock_state)
    (connection : nat)
    (header_len local_handle local_offset remote_handle remote_offset : Z)
    (data_len context flags_ : Z) :
  sock_rma st connection header_len local_handle local_offset remote_handle
      remote_offset data_len context flags_
  = Ret (if sglobals st then CCI_ERR_NOT_IMPLEMENTED else CCI_ENODEV) st.
Proof. unfold sock_rma. destruct (sglobals st); reflexivity. Qed.

(** *** URI resolution *)

Lemma substring_whole (s : string) : String.substring 0 (String.length s) s = s.
Proof. induction s as [|c s IH]; cbn; [reflexivity | now rewrite IH]. Qed.

Lemma prefix_ip_scheme (rest : string) :
  String.prefix "ip://" ("ip://" ++ rest) = true.
Proof. destruct rest; reflexivity. Qed.

Lemma after_ip_scheme (rest : string) :
  String.substring 5 (String.length ("ip://" ++ rest) - 5) ("ip://" ++ rest)
  = rest.
Proof.
  transitivity (String.substring 0 (String.length rest) rest);
    [| apply substring_whole].
  destruct rest; reflexivity.
Qed.

(** Every URI without the "ip://" prefix is refused with [CCI_EINVAL]. *)
Lemma sock_getaddrinfo_other_scheme (getaddrinfo : string -> Z * Z)
    (uri : string) :
  String.prefix "ip://" uri = false ->
  sock_getaddrinfo getaddrinfo uri = inl CCI_EINVAL.
Proof. intros Hp. unfold sock_getaddrinfo. now rewrite Hp. Qed.

(** C8, where the code departs from it.  For a URI "ip://" ++ rest the
    resolver is asked for all of [rest], a ":port" suffix included; so with
    a resolver that knows "localhost", "ip://localhost" resolves and
    "ip://localhost:5555" fails with the resolver's error. *)
Theorem sock_getaddrinfo_keeps_port (getaddrinfo : string -> Z * Z)
    (rest : string) :
  sock_getaddrinfo getaddrinfo ("ip://" ++ rest)
  = (let '(ret, addr) := getaddrinfo rest in
     if negb (ret =? 0) then inl (foreign_code ret) else inr addr)
  /\ sock_getaddrinfo sample_getaddrinfo "ip://localhost" = inr 2130706433
  /\ sock_getaddrinfo sample_getaddrinfo "ip://localhost:5555"
     = inl (foreign_code (-2)).
Proof.
  split; [| split; reflexivity].
  unfold sock_getaddrinfo. rewrite prefix_ip_scheme.
  cbv zeta. rewrite after_ip_scheme. reflexivity.
Qed.

(** Seen from [sock_connect] (the local [ai] of [sock_getaddrinfo] holding
    NULL): a URI with a port makes the call fail with the resolver's error,
    the new connection freed again; without the port the call gets as far
    as the tx allocation. *)
Lemma sock_connect_uri_with_port :
  let st := pending_state 0 0 in
  (exists st',
     @sock_connect sample_core_sock_h sample_getaddrinfo 0 (Some 0%nat) None st
       "ip://localhost:5555" 5555 0 CCI_CONN_ATTR_RU 0 0
     = Ret (foreign_code (-2)) st'
     /\ conns st' = conns st)
  /\ (exists st',
        @sock_connect sample_core_sock_h sample_getaddrinfo 0 (Some 0%nat) None st
          "ip://localhost" 5555 0 CCI_CONN_ATTR_RU 0 0
        = Ret CCI_ENOBUFS st'
        /\ (sin_addr <$> sconns st' !! 0%nat) = Some 2130706433).
Proof.
  intros st. split.
  - eexists. split; [vm_compute; reflexivity |]. reflexivity.
  - eexists. split; [vm_compute; reflexivity |]. reflexivity.
Qed.

(** *** The ID bitmap *)

Section IdBitmap.
Context `{core_sock_h}.

(** The mask as the bitmap sees it: one bit below offset 31, bits 31 to 63
    at offset 31. *)
Lemma int_shl_1_cases offset bit :
  int_shl_1 offset = Some bit ->
  (0 <= offset < 31 /\ uint64 bit = 2 ^ offset)
  \/ (offset = 31 /\ uint64 bit = 2 ^ 64 - 2 ^ 31).
Proof.
  unfold int_shl_1.
  destruct ((0 <=? offset) && (offset <? 31)) eqn:E1.
  - intros [= <-]. left. split; [lia |].
    rewrite Z.shiftl_1_l. unfold uint64. apply Z.mod_small.
    split; [lia |]. apply Z.pow_lt_mono_r; lia.
  - destruct (offset =? 31) eqn:E2; [| discriminate].
    intros [= <-]. right. split; [lia | reflexivity].
Qed.

(** The mask of an offset other than 0 has bit 0 clear. *)
Lemma int_shl_1_bit_0 offset bit :
  int_shl_1 offset = Some bit -> offset <> 0 ->
  Z.testbit (uint64 bit) 0 = false.
Proof.
  intros Hs Hne.
  destruct (int_shl_1_cases _ _ Hs) as [[Ho ->] | [_ ->]]; [| reflexivity].
  apply Z.pow2_bits_false. lia.
Qed.

(** Masking with a mask whose bit 0 is clear never gives 1. *)
Lemma land_mask_ne_1 x m : Z.testbit m 0 = false -> Z.land x m <> 1.
Proof.
  intros Hm E.
  assert (Hb : Z.testbit (Z.land x m) 0 = true) by now rewrite E.
  rewrite Z.land_spec, Hm in Hb. now rewrite andb_false_r in Hb.
Qed.

Lemma uint64_pow2 offset : 0 <= offset < 31 -> uint64 (2 ^ offset) = 2 ^ offset.
Proof.
  intros Ho. unfold uint64. apply Z.mod_small. split; [lia |].
  apply Z.pow_lt_mono_r; lia.
Qed.

(** What a successful [sock_get_id] did: the number drawn names block
    [id / SOCK_BLOCK_SIZE] and offset [id mod SOCK_BLOCK_SIZE]; the block had
    no bit of the offset's mask and has them all now; no other block
    changed. *)
Lemma sock_get_id_loop_ret rnd st id st' :
  sock_get_id_loop rnd st = Ret id st' ->
  exists b bit rnd',
    let block := Z.to_nat (id / SOCK_BLOCK_SIZE) in
    let offset := id mod SOCK_BLOCK_SIZE in
    0 <= id < 2 ^ 32
    /\ int_shl_1 offset = Some bit
    /\ sep_ids st !! block = Some b
    /\ Z.land b (uint64 bit) = 0
    /\ st' = set_prng rnd'
               (set_sep_ids (<[block := Z.lor b (uint64 bit)]> (sep_ids st)) st).
Proof.
  induction rnd as [|r rnd IH]; cbn [sock_get_id_loop]; [discriminate |].
  set (n := uint32 r).
  assert (Hn : 0 <= n < 2 ^ 32) by (apply Z.mod_pos_bound; lia).
  assert (Hid : uint32 (n / SOCK_BLOCK_SIZE * SOCK_BLOCK_SIZE
                        + n mod SOCK_BLOCK_SIZE) = n).
  { rewrite (Z.mul_comm (n / SOCK_BLOCK_SIZE)).
    rewrite <- (Z_div_mod_eq_full n SOCK_BLOCK_SIZE).
    unfold uint32. now apply Z.mod_small. }
  destruct (sep_ids st !! Z.to_nat (n / SOCK_BLOCK_SIZE)) as [b|] eqn:Hb;
    [| discriminate].
  destruct (int_shl_1 (n mod SOCK_BLOCK_SIZE)) as [bit|] eqn:Hs;
    [| discriminate].
  destruct (Z.land b (uint64 bit) =? 0) eqn:Hl; [| exact IH].
  rewrite Hid. intros [= <- <-].
  exists b, bit, rnd. cbv zeta. repeat split; try lia; try assumption.
Qed.

(** [sock_get_id] returns with the first number drawn when that number
    names a clear bit of the bitmap. *)
Lemma sock_get_id_first_draw st r rnd b :
  prng st = r :: rnd ->
  sep_ids st !! Z.to_nat (uint32 r / SOCK_BLOCK_SIZE) = Some b ->
  0 <= uint32 r mod SOCK_BLOCK_SIZE < 31 ->
  Z.land b (2 ^ (uint32 r mod SOCK_BLOCK_SIZE)) = 0 ->
  exists st', sock_get_id st = Ret (uint32 r) st'.
Proof.
  intros Hp Hb Ho Hl. unfold sock_get_id. rewrite Hp.
  cbn [sock_get_id_loop]. rewrite Hb. unfold int_shl_1.
  replace ((0 <=? uint32 r mod SOCK_BLOCK_SIZE)
           && (uint32 r mod SOCK_BLOCK_SIZE <? 31)) with true by lia.
  rewrite Z.shiftl_1_l, uint64_pow2, Hl by exact Ho. cbn [Z.eqb].
  rewrite (Z.mul_comm (uint32 r / SOCK_BLOCK_SIZE)).
  rewrite <- (Z_div_mod_eq_full (uint32 r) SOCK_BLOCK_SIZE).
  assert (Hu : uint32 (uint32 r) = uint32 r).
  { unfold uint32. apply Z.mod_small. apply Z.mod_pos_bound. lia. }
  rewrite Hu. eauto.
Qed.

(** C9, where the code departs from it.  The assertion of [sock_put_id]
    compares the masked block with 1, not with the mask: for an ID that
    [sock_get_id] has just returned and whose offset in its block is not 0,
    [sock_put_id] fails its assertion and the bit stays set. *)
Theorem sock_put_id_assert_fails (st : sock_state) (id : Z) (st' : sock_state) :
  sock_get_id st = Ret id st' ->
  id mod SOCK_BLOCK_SIZE <> 0 ->
  sock_put_id st' id = Abort st'.
Proof.
  intros Hg Hoff.
  destruct (sock_get_id_loop_ret _ _ _ _ Hg)
    as (b & bit & rnd' & Hid & Hs & Hb & Hl & ->).
  cbv zeta in Hs, Hb.
  unfold sock_put_id. cbn [sep_ids set_prng set_sep_ids].
  rewrite list_lookup_insert_eq by (apply lookup_lt_is_Some; eauto).
  rewrite Hs.
  destruct (Z.land (Z.lor b (uint64 bit)) (uint64 bit) =? 1) eqn:E;
    [| reflexivity].
  apply Z.eqb_eq in E. exfalso. revert E. apply land_mask_ne_1.
  now apply (int_shl_1_bit_0 (id mod SOCK_BLOCK_SIZE)).
Qed.

(** Clearing bit 0 of a 64-bit block undoes setting it. *)
Lemma clear_bit_0 b :
  0 <= b < 2 ^ 64 -> Z.land b 1 = 0 ->
  Z.land (Z.lor b 1) (uint64 (Z.lnot 1)) = b.
Proof.
  intros Hb Hl.
  assert (Hb0 : Z.testbit b 0 = false).
  { assert (E : Z.testbit (Z.land b 1) 0 = false) by now rewrite Hl.
    rewrite Z.land_spec in E. cbn in E. now rewrite andb_true_r in E. }
  change (uint64 (Z.lnot 1)) with (Z.ldiff (Z.ones 64) 1).
  rewrite <- (Z.mod_small b (2 ^ 64)) at 2 by exact Hb.
  rewrite <- Z.land_ones by lia.
  apply Z.bits_inj'. intros n Hn.
  rewrite !Z.land_spec, Z.lor_spec, Z.ldiff_spec.
  destruct (decide (n = 0)) as [-> | Hne].
  - rewrite Hb0. cbn. now rewrite andb_false_r.
  - change 1 with (2 ^ 0). rewrite Z.pow2_bits_false by lia.
    cbn [negb]. now rewrite orb_false_r, andb_true_r.
Qed.

(** Where the assertion holds, at offset 0, freeing the ID that was just
    allocated gives the bitmap back as it was. *)
Lemma sock_put_id_offset_0_restores (st : sock_state) (id : Z)
    (st' : sock_state) :
  Forall (fun b => 0 <= b < 2 ^ 64) (sep_ids st) ->
  sock_get_id st = Ret id st' ->
  id mod SOCK_BLOCK_SIZE = 0 ->
  exists st'', sock_put_id st' id = Ret tt st''
               /\ sep_ids st'' = sep_ids st.
Proof.
  intros Hr Hg Hoff.
  destruct (sock_get_id_loop_ret _ _ _ _ Hg)
    as (b & bit & rnd' & Hid & Hs & Hb & Hl & ->).
  cbv zeta in Hs, Hb, Hl. rewrite Hoff in Hs.
  injection Hs as <-. change (uint64 (Z.shiftl 1 0)) with 1 in Hl.
  change (uint64 (Z.shiftl 1 0)) with 1.
  assert (Hbr : 0 <= b < 2 ^ 64).
  { eapply (proj1 (Forall_lookup _ _) Hr). exact Hb. }
  unfold sock_put_id. cbn [sep_ids set_prng set_sep_ids].
  rewrite Hoff.
  rewrite list_lookup_insert_eq by (apply lookup_lt_is_Some; eauto).
  change (int_shl_1 0) with (Some 1). change (uint64 1) with 1.
  assert (Hset : Z.land (Z.lor b 1) 1 = 1).
  { rewrite Z.land_lor_distr_l, Hl. reflexivity. }
  cbv iota beta. change (uint64 1) with 1.
  rewrite Hset. cbn [Z.eqb Pos.eqb].
  eexists. split; [reflexivity |].
  cbn [sep_ids set_sep_ids].
  rewrite list_insert_insert_eq, clear_bit_0 by assumption.
  now apply list_insert_id.
Qed.

End IdBitmap.

Lemma sock_put_id_assert_fails_witness :
  let st := sample_state (sample_connection CCI_CONN_ATTR_RU 0) sample_tx [] [] [] in
  let st1 := set_prng [1] st in
  let st2 := set_prng [] (set_sep_ids [2; 0] st1) in
  @sock_get_id sample_core_sock_h st1 = Ret 1 st2
  /\ @sock_put_id sample_core_sock_h st2 1 = Abort st2.
Proof.
  intros st st1 st2.
  assert (Hg : @sock_get_id sample_core_sock_h st1 = Ret 1 st2) by reflexivity.
  split; [exact Hg |].
  apply (@sock_put_id_assert_fails sample_core_sock_h st1 1 st2 Hg).
  discriminate.
Defined.

(** *** The wire *)

(** A call of [sock_sendto] returns the length it was given, or it has used
    up an answer of the kernel. *)
Lemma sock_sendto_progress k e left ret e' k' :
  sock_sendto k e left = (ret, e', k') ->
  left - ret = 0 \/ (length k' < length k)%nat.
Proof.
  revert e. induction k as [|r k IH]; intros e; cbn [sock_sendto].
  - destruct (left =? 0) eqn:E0; intros [= <- <- <-]; left; lia.
  - destruct (left =? 0) eqn:E0; [intros [= <- <- <-]; left; lia |].
    destruct r as [|err].
    + intros [= <- <- <-]. left. lia.
    + destruct (err =? EINTR).
      * intros Hs. destruct (IH _ Hs) as [Hl | Hl]; [now left |].
        right. cbn [length]. lia.
      * intros [= <- <- <-]. right. cbn [length]. lia.
Qed.

(** The [again:] loop ends: the fuel the queued pass gives it is enough. *)
Lemma sock_send_again_total fuel k e left :
  (length k < fuel)%nat ->
  is_Some (sock_send_again fuel k e left).
Proof.
  revert k e left. induction fuel as [|fuel IH]; intros k e left Hf; [lia |].
  cbn [sock_send_again].
  destruct (sock_sendto k e left) as [[ret e'] k'] eqn:Es.
  destruct (ret =? -1); [eauto |].
  destruct (left - ret =? 0) eqn:E0; [eauto |].
  apply IH. destruct (sock_sendto_progress _ _ _ _ _ _ Es); lia.
Qed.

(** *** The progress passes *)

Section Progress.
Context `{core_sock_h}.

Lemma sock_progress_queued_expire_queued st t tx tx' st' :
  sock_progress_queued_expire st t tx = expiry_go tx' st' ->
  sdev_queued st' = sdev_queued st.
Proof.
  unfold sock_progress_queued_expire.
  destruct (msg_type tx); cbn;
    try destruct (set_send_status (evt_info tx) CCI_ETIMEDOUT); cbn;
    try discriminate.
  all: match goal with
       | |- context [if ?c then _ else _] => destruct c
       end; intros [= _ <-]; reflexivity.
Qed.

Lemma sock_progress_queued_send_queued st t tx conn st' :
  sock_progress_queued_send st t tx conn = Next st' ->
  sdev_queued st' = sdev_queued st.
Proof.
  unfold sock_progress_queued_send.
  destruct (priv conn ≫= λ p, sconns st !! p); [| discriminate].
  destruct (sock_send_again _ _ _ _) as [[[ret e] k]|]; [| discriminate].
  destruct ((ret =? -1) && negb (e =? EINTR)); [discriminate |].
  destruct (is_reliable (attribute conn)); intros [= <-]; reflexivity.
Qed.

(** Whatever the body of the queued pass does with a descriptor when it
    moves on to the next one (skip it, complete it locally, put it on the
    pending list), the queued list is the same afterwards. *)
Lemma queued_tx_keeps_queued (st : sock_state) (t : nat) (st' : sock_state) :
  sock_progress_queued_tx st t = Next st' ->
  sdev_queued st' = sdev_queued st.
Proof.
  unfold sock_progress_queued_tx.
  destruct (txs st !! t) as [tx|]; [| discriminate].
  destruct (queued_connection tx) as [connection|]; [| discriminate].
  destruct (conns st !! connection) as [conn|]; [| discriminate].
  cbn [cycles tx_set_cycles].
  destruct (negb ((cycles tx + 1) mod SOCK_PROG_FREQ =? 0)).
  { intros [= <-]. reflexivity. }
  match goal with |- context [if ?c then _ else _] => destruct c end.
  - destruct (sock_progress_queued_expire _ _ _) as [tx' st1| |] eqn:Ex;
      try discriminate.
    intros Hs. apply sock_progress_queued_send_queued in Hs.
    apply sock_progress_queued_expire_queued in Ex. congruence.
  - apply sock_progress_queued_send_queued.
Qed.

(** The whole loop leaves the queued list as it found it, unless it
    returns from inside. *)
Lemma queued_loop_keeps_queued q st st' :
  TAILQ_FOREACH_SAFE sock_progress_queued_tx q st = Next st' ->
  sdev_queued st' = sdev_queued st.
Proof.
  revert st. induction q as [|t q IH]; intros st; cbn.
  - intros [= <-]. reflexivity.
  - destruct (sock_progress_queued_tx st t) as [st1| | |] eqn:E;
      try discriminate.
    intros Hq. rewrite (IH _ Hq). now apply (queued_tx_keeps_queued st t).
Qed.


(** With a tx on the queued list, [sock_progress_queued] returns only from
    inside its loop: when the loop runs to its end, the function spins on
    the list it has not emptied. *)
Lemma sock_progress_queued_returns st st' :
  sock_progress_queued st = Ret tt st' ->
  sdev_queued st = []
  \/ TAILQ_FOREACH_SAFE sock_progress_queued_tx (sdev_queued st) st = Stop st'.
Proof.
  unfold sock_progress_queued.
  destruct (TAILQ_FOREACH_SAFE _ _ _) as [st1|st1|st1|] eqn:E; try discriminate.
  - apply queued_loop_keeps_queued in E.
    destruct (sdev_queued st1); [| discriminate].
    intros _. left. congruence.
  - intros [= <-]. now right.
Qed.

(** C4, where the code departs from it.  In the pending pass a connection
    timeout that is not set (0) does not fall back to the endpoint's: the
    descriptor of a send expires on its first pass, [CCI_ETIMEDOUT], whatever
    the endpoint timeout is. *)
Theorem pending_pass_expires_without_conn_timeout (st : sock_state) (t : nat)
    (tx : sock_tx) (connection : nat) (context : Z) (status : cci_status)
    (conn : cci_conn) :
  txs st !! t = Some tx ->
  evt_info tx = info_send connection context status ->
  conns st !! connection = Some conn ->
  tx_timeout conn = 0 ->
  0 <= resends tx ->
  sock_progress_pending_tx st t
  = Next (set_ep_evts (TAILQ_INSERT_TAIL (ep_evts st) t)
           (set_sdev_pending (TAILQ_REMOVE (sdev_pending st) t)
             (set_txs
                (<[t := tx_set_evt_info (info_send connection context CCI_ETIMEDOUT)
                          (tx_set_resends (resends tx + 1)
                             (tx_set_cycles (cycles tx + 1) tx))]> (txs st))
                st))).
Proof.
  intros Ht Hi Hc Hz Hr. unfold sock_progress_pending_tx.
  rewrite Ht, Hi, Hc. cbn [resends tx_set_resends tx_set_cycles].
  rewrite Hz.
  replace (resends tx + 1 >=? 0) with true by lia.
  now rewrite orb_true_r.
Qed.

(** In the queued pass the timeout is the connection's when it is set and
    the endpoint's otherwise. *)
Lemma queued_timeout_inherits st conn :
  queued_timeout st conn
  = if decide (tx_timeout conn = 0) then ep_tx_timeout st else tx_timeout conn.
Proof.
  unfold queued_timeout.
  destruct (decide (tx_timeout conn = 0)) as [-> | Hne]; [reflexivity |].
  now replace (tx_timeout conn =? 0) with false by lia.
Qed.

End Progress.


(** The reliability test takes an RO connection for an unreliable one: its
    descriptor is completed locally and never reaches the pending list. *)
Lemma queued_pass_ro_completed_locally :
  is_reliable CCI_CONN_ATTR_RO = false
  /\ exists st',
       @sock_progress_queued_tx sample_core_sock_h (queued_state CCI_CONN_ATTR_RO) 0
       = Next st'
       /\ (state <$> txs st' !! 0%nat) = Some SOCK_TX_COMPLETED
       /\ ep_evts st' = [0%nat]
       /\ sdev_pending st' = [].
Proof.
  split; [reflexivity |].
  eexists. split; [vm_compute; reflexivity |]. repeat split.
Qed.

Lemma pending_pass_expires_without_conn_timeout_witness :
  exists st',
    @sock_progress_pending_tx (pending_state 0 0) 0 = Next st'
    /\ ep_tx_timeout st' = 64
    /\ (evt_info <$> txs st' !! 0%nat) = Some (info_send 0 0 CCI_ETIMEDOUT)
    /\ ep_evts st' = [0%nat]
    /\ sdev_pending st' = [].
Proof.
  eexists. split.
  - apply (pending_pass_expires_without_conn_timeout (pending_state 0 0) 0
             (sample_send_tx SOCK_TX_PENDING 0) 0 0 CCI_SUCCESS
             (sample_connection CCI_CONN_ATTR_RU 0));
      [reflexivity | reflexivity | reflexivity | reflexivity | cbn; lia].
  - repeat split.
Defined.

(** *** send and connect *)

Section Send.
Context `{core_sock_h}.

(** The argument checks of [sock_sendv] come first and leave the state
    alone. *)
Lemma sock_sendv_argument_checks tx st connection header_len segs context
    flags_ :
  (sglobals st = false ->
   sock_sendv tx st connection header_len segs context flags_
   = Ret CCI_ENODEV st)
  /\ (sglobals st = true -> sum_segments segs 0 = None ->
      sock_sendv tx st connection header_len segs context flags_
      = Ret CCI_EINVAL st)
  /\ (forall data_len conn,
        sglobals st = true -> sum_segments segs 0 = Some data_len ->
        conns st !! connection = Some conn ->
        uint32 (header_len + data_len) > max_send_size conn ->
        sock_sendv tx st connection header_len segs context flags_
        = Ret CCI_EMSGSIZE st).
Proof.
  unfold sock_sendv. repeat split.
  - intros ->. reflexivity.
  - intros -> ->. reflexivity.
  - intros data_len conn -> -> -> Hm. cbn [negb].
    destruct (uint32 (header_len + data_len) >? max_send_size conn) eqn:E;
      [reflexivity | lia].
Qed.

(** With the local variable [tx] holding NULL on entry, a send on a
    reliable connection that passes the argument checks fails with
    [CCI_ENOBUFS], the state untouched, when no tx is idle. *)
Lemma sock_sendv_null_tx_enobufs st connection conn p sconn header_len segs
    data_len context flags_ :
  sglobals st = true ->
  sum_segments segs 0 = Some data_len ->
  conns st !! connection = Some conn ->
  uint32 (header_len + data_len) <= max_send_size conn ->
  priv conn = Some p ->
  sconns st !! p = Some sconn ->
  is_reliable (attribute conn) = true ->
  sep_idle_txs st = [] ->
  sock_sendv None st connection header_len segs context flags_
  = Ret CCI_ENOBUFS st.
Proof.
  intros Hg Hs Hc Hm Hp Hsc Hr Hi. unfold sock_sendv.
  rewrite Hg, Hs, Hc, Hp, Hsc, Hr. cbn [negb].
  destruct (uint32 (header_len + data_len) >? max_send_size conn) eqn:E; [lia |].
  unfold sock_sendv_queue, get_a_tx. now rewrite Hi.
Qed.

(** With an idle tx at hand the same call does not fail for want of a tx
    at the allocation: it goes on with the head of the idle list. *)
Lemma get_a_tx_idle tx st t idle :
  sep_idle_txs st = t :: idle ->
  get_a_tx tx st = (Some t, set_sep_idle_txs idle st).
Proof.
  intros Hi. unfold get_a_tx. rewrite Hi. cbn.
  now rewrite bool_decide_true.
Qed.

(** With no idle tx, the tx the call goes on with is whatever the local
    variable held on entry. *)
Lemma get_a_tx_empty tx st :
  sep_idle_txs st = [] -> get_a_tx tx st = (tx, st).
Proof. intros Hi. unfold get_a_tx. now rewrite Hi. Qed.

End Send.

End SockProps.

(* ===================================================================== *)
(** ** More on the ccieth receive path: what a call changes *)
(* ===================================================================== *)

Module CciethRecvProps.
Import Ccieth CciethRecv CciethProps.

(** Either the packet passes the checks or it is dropped with [-EINVAL]. *)
Lemma ccieth_recv_msg_cases hdr_size d ifp_ skb :
  ccieth_recv_msg hdr_size d ifp_ skb = KReturn (- EINVAL) d
  \/ exists ep conn, addressed_to hdr_size d ifp_ skb ep conn.
Proof.
  unfold ccieth_recv_msg, skb_header_pointer, addressed_to.
  destruct (hdr_size <=? skb_len skb) eqn:E1; [| now left].
  destruct (ccieth_ep_idr d !! dst_ep_id (skb_hdr skb)) as [ep|] eqn:He;
    [| now left].
  destruct (bool_decide (ifp ep = Some ifp_)) eqn:Hi; cbn [negb]; [| now left].
  apply bool_decide_eq_true in Hi.
  destruct (msg_len (skb_hdr skb) >? max_send_size ep) eqn:E2; cbn [orb];
    [now left |].
  destruct (skb_len skb <? size_t_wrap (hdr_size + msg_len (skb_hdr skb))) eqn:E3;
    [now left |].
  destruct (connection_idr ep !! dst_conn_id (skb_hdr skb)) as [conn|] eqn:Hc;
    [| now left].
  right. exists ep, conn. repeat split; try done; lia.
Qed.

(** The four ways a call of [ccieth_recv_msg] can return. *)
Lemma ccieth_recv_msg_outcomes hdr_size d ifp_ skb err d' :
  ccieth_recv_msg hdr_size d ifp_ skb = KReturn err d' ->
  (d' = d /\ (err = - EINVAL \/ err = - ENOMEM))
  \/ (err = 0
      /\ exists ep conn,
           addressed_to hdr_size d ifp_ skb ep conn
           /\ ((status conn = CCIETH_CONNECTION_READY
                /\ exists slot rest ev,
                     free_event_list ep = slot :: rest
                     /\ d' = set_endpoint d (dst_ep_id (skb_hdr skb))
                               (set_event_lists ep rest (event_list ep ++ [ev])))
               \/ (status conn = CCIETH_CONNECTION_REQUESTED
                   /\ attribute conn = CCIETH_CONNECT_ATTR_UU
                   /\ d' = set_endpoint d (dst_ep_id (skb_hdr skb))
                             (set_connection ep (dst_conn_id (skb_hdr skb))
                                (ccieth_conn_uu_defer_recv_msg conn skb))))).
Proof.
  intros E.
  destruct (ccieth_recv_msg_cases hdr_size d ifp_ skb) as [Hd | (ep & conn & Ha)].
  { rewrite Hd in E. injection E as <- <-. left. auto. }
  pose proof Ha as (_ & He & _).
  rewrite (ccieth_recv_msg_addressed _ _ _ _ _ _ Ha) in E.
  destruct (bool_decide (status conn = CCIETH_CONNECTION_READY)) eqn:Hs.
  - apply bool_decide_eq_true in Hs. unfold ccieth__recv_msg in E.
    destruct (free_event_list ep) as [|slot rest] eqn:Hf.
    + injection E as <- <-. left. split; [| auto].
      now apply set_endpoint_same.
    + destruct (skb_copy_bits skb hdr_size (msg_len (skb_hdr skb))) as [e bytes].
      destruct (e <? 0); [discriminate |].
      injection E as <- <-. right. split; [reflexivity |].
      exists ep, conn. split; [exact Ha |]. left. split; [exact Hs |].
      eexists slot, rest, _. split; [exact Hf | reflexivity].
  - destruct (bool_decide (status conn = CCIETH_CONNECTION_REQUESTED)) eqn:H1;
      destruct (bool_decide (attribute conn = CCIETH_CONNECT_ATTR_UU)) eqn:H2;
      cbn in E; injection E as <- <-; try (left; auto; fail).
    apply bool_decide_eq_true in H1, H2.
    right. split; [reflexivity |]. exists ep, conn. split; [exact Ha |].
    right. auto.
Qed.

(** With kernel sizes, the copy of a checked packet gives its payload. *)
Lemma skb_copy_bits_payload hdr_size skb :
  sizes_in_range hdr_size skb ->
  hdr_size + msg_len (skb_hdr skb) <= skb_len skb ->
  skb_copy_bits skb hdr_size (msg_len (skb_hdr skb)) = (0, msg_payload hdr_size skb).
Proof.
  intros (Hh & Hs & Hm) Hb. unfold skb_copy_bits, msg_payload.
  pose proof (skb_len_nonneg skb) as Hn.
  rewrite !to_int_small by lia.
  destruct (hdr_size >? skb_len skb - msg_len (skb_hdr skb)) eqn:E; [lia |].
  reflexivity.
Qed.

(** A packet of a run is addressed to the connection of the run. *)
Lemma msg_for_addressed hdr_size d ifp_ max ep_id conn_id conn free evs skb :
  endpoint_with d ifp_ max ep_id conn_id conn free evs ->
  msg_for hdr_size max ep_id conn_id skb ->
  exists ep,
    addressed_to hdr_size d ifp_ skb ep conn
    /\ free_event_list ep = free /\ event_list ep = evs.
Proof.
  intros (ep & He & Hi & Hmax & Hc & Hf & Hv) (Hde & Hdc & Hr & Hm & Hb).
  exists ep. split; [| auto].
  pose proof Hr as (Hh & Hs & Hl).
  unfold addressed_to. cbv zeta. rewrite Hde, Hdc.
  rewrite size_t_wrap_small by lia.
  repeat split; try done; lia.
Qed.

(** The delivery of a checked packet to a READY connection with a free
    slot, as a computation. *)
Lemma ccieth_recv_msg_delivery hdr_size d ifp_ skb ep conn slot rest :
  addressed_to hdr_size d ifp_ skb ep conn ->
  status conn = CCIETH_CONNECTION_READY ->
  free_event_list ep = slot :: rest ->
  sizes_in_range hdr_size skb ->
  ccieth_recv_msg hdr_size d ifp_ skb =
    KReturn 0 (set_endpoint d (dst_ep_id (skb_hdr skb))
                 (set_event_lists ep rest
                    (event_list ep ++ [recv_event hdr_size conn skb]))).
Proof.
  intros Ha Hs Hf Hr.
  pose proof Ha as (_ & _ & _ & _ & Hb & _).
  pose proof Hr as (Hh & Hl & Hm).
  rewrite size_t_wrap_small in Hb by lia.
  rewrite (ccieth_recv_msg_addressed _ _ _ _ _ _ Ha).
  rewrite bool_decide_true by exact Hs.
  unfold ccieth__recv_msg. rewrite Hf.
  rewrite (skb_copy_bits_payload hdr_size skb Hr Hb). reflexivity.
Qed.

Lemma slots_of_set_endpoint_ne d id ep e :
  e <> id -> slots_of (set_endpoint d id ep) e = slots_of d e.
Proof.
  intros Hne. unfold slots_of, set_endpoint. cbn.
  now rewrite lookup_insert_ne by congruence.
Qed.

Lemma free_of_set_endpoint_ne d id ep e :
  e <> id -> free_of (set_endpoint d id ep) e = free_of d e.
Proof.
  intros Hne. unfold free_of, set_endpoint. cbn.
  now rewrite lookup_insert_ne by congruence.
Qed.

(** X1.  The return code of [ccieth_recv_msg] tells what happened to the
    packet: the code is 0, [-EINVAL] or [-ENOMEM]; it is 0 exactly when the
    call changed the driver state (an event was queued or the packet was
    deferred), and a negative code means the packet was dropped and nothing
    changed. *)
Theorem recv_msg_return_code (hdr_size : Z) (d : driver) (ifp_ : Z)
    (skb : sk_buff) (err : Z) (d' : driver) :
  ccieth_recv_msg hdr_size d ifp_ skb = KReturn err d' ->
  (err = 0 \/ err = - EINVAL \/ err = - ENOMEM)
  /\ (err = 0 <-> d' <> d).
Proof.
  intros E.
  destruct (ccieth_recv_msg_outcomes _ _ _ _ _ _ E)
    as [(-> & Herr) | (-> & ep & conn & Ha & Hcase)].
  - split; [tauto |]. split; [| done].
    intros ->. unfold EINVAL, ENOMEM in Herr. lia.
  - split; [auto |]. split; [| reflexivity]. intros _ Heq.
    pose proof Ha as (_ & He & _ & _ & _ & Hc).
    destruct Hcase as [(_ & slot & rest & ev & Hf & ->) | (_ & _ & ->)].
    + apply (f_equal (fun x => events_of x (dst_ep_id (skb_hdr skb)))) in Heq.
      rewrite events_of_set_endpoint, (events_of_lookup d _ ep He) in Heq.
      cbn in Heq. apply (f_equal length) in Heq.
      rewrite length_app in Heq. cbn in Heq. lia.
    + apply (f_equal (fun x => deferred_of x (dst_ep_id (skb_hdr skb))
                                 (dst_conn_id (skb_hdr skb)))) in Heq.
      rewrite (deferred_of_lookup d _ _ ep conn He Hc) in Heq.
      unfold deferred_of, set_endpoint, set_connection in Heq. cbn in Heq.
      rewrite lookup_insert_eq in Heq. cbn in Heq.
      rewrite lookup_insert_eq in Heq. cbn in Heq.
      apply (f_equal length) in Heq.
      rewrite length_app in Heq. cbn in Heq. lia.
Qed.

Lemma recv_msg_return_code_witness :
  let d := sample_driver (sample_ep [sample_slot]
             (sample_conn CCIETH_CONNECTION_READY CCIETH_CONNECT_ATTR_RU)) in
  exists d',
    ccieth_recv_msg 4 d 7 sample_skb = KReturn 0 d' /\ d' <> d.
Proof.
  intros d.
  set (conn := sample_conn CCIETH_CONNECTION_READY CCIETH_CONNECT_ATTR_RU).
  set (d' := set_endpoint d 5
               (set_event_lists (sample_ep [sample_slot] conn) []
                  [recv_event 4 conn sample_skb])).
  assert (E : ccieth_recv_msg 4 d 7 sample_skb = KReturn 0 d') by reflexivity.
  exists d'. split; [exact E |].
  exact (proj1 (proj2 (recv_msg_return_code 4 d 7 sample_skb 0 d' E)) eq_refl).
Defined.

(** X2.  The receive path neither creates nor loses event slots.  After any
    call that returns, every endpoint has as many slots (free and queued
    together) as before, no endpoint appears or disappears, and the free
    list of an endpoint is a tail of what it was: a delivery takes the slot
    at the head. *)
Theorem recv_msg_conserves_slots (hdr_size : Z) (d : driver) (ifp_ : Z)
    (skb : sk_buff) (err : Z) (d' : driver) :
  ccieth_recv_msg hdr_size d ifp_ skb = KReturn err d' ->
  forall e,
    slots_of d' e = slots_of d e
    /\ free_of d' e `suffix_of` free_of d e.
Proof.
  intros E e.
  destruct (ccieth_recv_msg_outcomes _ _ _ _ _ _ E)
    as [(-> & _) | (_ & ep & conn & Ha & Hcase)]; [done |].
  pose proof Ha as (_ & He & _).
  destruct Hcase as [(_ & slot & rest & ev & Hf & ->) | (_ & _ & ->)].
  - destruct (decide (e = dst_ep_id (skb_hdr skb))) as [-> | Hne].
    + unfold slots_of, free_of, set_endpoint. cbn.
      rewrite lookup_insert_eq, He. cbn. rewrite Hf, length_app. cbn.
      split; [f_equal; lia |]. now exists [slot].
    + now rewrite slots_of_set_endpoint_ne, free_of_set_endpoint_ne.
  - destruct (decide (e = dst_ep_id (skb_hdr skb))) as [-> | Hne].
    + unfold slots_of, free_of, set_endpoint. cbn.
      rewrite lookup_insert_eq, He. cbn. done.
    + now rewrite slots_of_set_endpoint_ne, free_of_set_endpoint_ne.
Qed.

Lemma recv_msg_conserves_slots_witness :
  let conn := sample_conn CCIETH_CONNECTION_READY CCIETH_CONNECT_ATTR_RU in
  let d := sample_driver (sample_ep [sample_slot; sample_slot] conn) in
  exists d',
    ccieth_recv_msg 4 d 7 sample_skb = KReturn 0 d'
    /\ slots_of d' 5 = Some 2%nat
    /\ free_of d' 5 `suffix_of` [sample_slot; sample_slot].
Proof.
  intros conn d.
  set (d' := set_endpoint d 5
               (set_event_lists (sample_ep [sample_slot; sample_slot] conn)
                  [sample_slot] [recv_event 4 conn sample_skb])).
  assert (E : ccieth_recv_msg 4 d 7 sample_skb = KReturn 0 d') by reflexivity.
  exists d'. split; [exact E |].
  exact (recv_msg_conserves_slots 4 d 7 sample_skb 0 d' E 5).
Defined.

(** X3.  Payload fidelity.  A checked MSG packet for a READY connection of
    an endpoint with a free slot is delivered: the call returns 0, the slot
    at the head of the free list leaves it, and the event appended to the
    endpoint's queue is a RECV event that carries the connection's user id,
    the declared length, and as its buffer exactly the [msg_len] bytes that
    follow the header in the frame. *)
Theorem recv_msg_delivers_payload (hdr_size : Z) (d : driver) (ifp_ : Z)
    (skb : sk_buff) (ep : ccieth_endpoint) (conn : ccieth_connection)
    (slot : ccieth_endpoint_event) (rest : list ccieth_endpoint_event) :
  addressed_to hdr_size d ifp_ skb ep conn ->
  status conn = CCIETH_CONNECTION_READY ->
  free_event_list ep = slot :: rest ->
  sizes_in_range hdr_size skb ->
  exists d' ev,
    ccieth_recv_msg hdr_size d ifp_ skb = KReturn 0 d'
    /\ events_of d' (dst_ep_id (skb_hdr skb)) = event_list ep ++ [ev]
    /\ free_of d' (dst_ep_id (skb_hdr skb)) = rest
    /\ event_type ev = CCIETH_IOCTL_EVENT_RECV
    /\ event_recv_user_conn_id ev = user_conn_id conn
    /\ event_data_length ev = msg_len (skb_hdr skb)
    /\ Z.of_nat (length (event_buffer ev)) = msg_len (skb_hdr skb)
    /\ forall i : nat,
         (Z.of_nat i < msg_len (skb_hdr skb))%Z ->
         event_buffer ev !! i = skb_data skb !! (Z.to_nat hdr_size + i)%nat.
Proof.
  intros Ha Hs Hf Hr.
  pose proof Ha as (_ & _ & _ & _ & Hb & _).
  pose proof Hr as (Hh & Hl & Hm).
  rewrite size_t_wrap_small in Hb by lia.
  eexists _, (recv_event hdr_size conn skb).
  split; [exact (ccieth_recv_msg_delivery _ _ _ _ _ _ _ _ Ha Hs Hf Hr) |].
  rewrite events_of_set_endpoint.
  unfold free_of, set_endpoint. cbn. rewrite lookup_insert_eq. cbn.
  repeat (split; [reflexivity |]).
  unfold msg_payload. split.
  - rewrite length_take, length_drop. unfold skb_len in Hb. lia.
  - intros i Hi. rewrite lookup_take_lt by lia. now rewrite lookup_drop.
Qed.

Lemma recv_msg_delivers_payload_witness :
  let conn := sample_conn CCIETH_CONNECTION_READY CCIETH_CONNECT_ATTR_RU in
  let d := sample_driver (sample_ep [sample_slot] conn) in
  exists d' ev,
    ccieth_recv_msg 4 d 7 sample_skb = KReturn 0 d'
    /\ events_of d' 5 = [ev]
    /\ event_buffer ev !! 0%nat = Some 65
    /\ event_buffer ev !! 1%nat = Some 66
    /\ Z.of_nat (length (event_buffer ev)) = 2.
Proof.
  intros conn d.
  assert (Ha : addressed_to 4 d 7 sample_skb (sample_ep [sample_slot] conn) conn).
  { unfold addressed_to, skb_len, size_t_wrap. cbn. repeat split; try lia.
    all: reflexivity. }
  assert (Hr : sizes_in_range 4 sample_skb).
  { unfold sizes_in_range, skb_len. cbn. lia. }
  destruct (recv_msg_delivers_payload 4 d 7 sample_skb _ conn sample_slot []
              Ha eq_refl eq_refl Hr)
    as (d' & ev & E & Hev & _ & _ & _ & _ & Hlen & Hbuf).
  exists d', ev. split; [exact E |]. split; [exact Hev |].
  split; [| split; [| exact Hlen]].
  - rewrite (Hbuf 0%nat) by (cbn; lia). reflexivity.
  - rewrite (Hbuf 1%nat) by (cbn; lia). reflexivity.
Defined.

(** X4.  What a receive never touches.  Whatever the packet, a call that
    returns queues no frame for transmission, leaves every other endpoint
    as it was, and on the addressed endpoint keeps the interface, the size
    limit, every other connection, and the status, attribute and user id of
    the addressed connection; the events already queued stay at the front
    of the queue in their order. *)
Theorem recv_msg_footprint (hdr_size : Z) (d : driver) (ifp_ : Z)
    (skb : sk_buff) (err : Z) (d' : driver) :
  ccieth_recv_msg hdr_size d ifp_ skb = KReturn err d' ->
  xmit d' = xmit d
  /\ (forall e, e <> dst_ep_id (skb_hdr skb) ->
        ccieth_ep_idr d' !! e = ccieth_ep_idr d !! e)
  /\ (forall ep,
        ccieth_ep_idr d !! dst_ep_id (skb_hdr skb) = Some ep ->
        exists ep',
          ccieth_ep_idr d' !! dst_ep_id (skb_hdr skb) = Some ep'
          /\ ifp ep' = ifp ep
          /\ max_send_size ep' = max_send_size ep
          /\ event_list ep `prefix_of` event_list ep'
          /\ (forall c, c <> dst_conn_id (skb_hdr skb) ->
                connection_idr ep' !! c = connection_idr ep !! c)
          /\ (forall conn,
                connection_idr ep !! dst_conn_id (skb_hdr skb) = Some conn ->
                exists conn',
                  connection_idr ep' !! dst_conn_id (skb_hdr skb) = Some conn'
                  /\ status conn' = status conn
                  /\ attribute conn' = attribute conn
                  /\ user_conn_id conn' = user_conn_id conn
                  /\ deferred_recv conn `prefix_of` deferred_recv conn')).
Proof.
  intros E.
  destruct (ccieth_recv_msg_outcomes _ _ _ _ _ _ E)
    as [(-> & _) | (_ & ep0 & conn0 & Ha & Hcase)].
  { split; [reflexivity |]. split; [reflexivity |].
    intros ep He. exists ep. repeat split; try done.
    intros conn Hc. exists conn. repeat split; done. }
  pose proof Ha as (_ & He0 & _ & _ & _ & Hc0).
  destruct Hcase as [(_ & slot & rest & ev & Hf & ->) | (_ & _ & ->)].
  - split; [reflexivity |]. split.
    { intros e Hne. unfold set_endpoint. cbn.
      now rewrite lookup_insert_ne by congruence. }
    intros ep He. rewrite He0 in He. injection He as <-.
    eexists. split.
    { unfold set_endpoint. cbn. now rewrite lookup_insert_eq. }
    cbn. repeat split; try done.
    + now exists [ev].
    + intros conn Hc. exists conn. repeat split; done.
  - split; [reflexivity |]. split.
    { intros e Hne. unfold set_endpoint. cbn.
      now rewrite lookup_insert_ne by congruence. }
    intros ep He. rewrite He0 in He. injection He as <-.
    eexists. split.
    { unfold set_endpoint. cbn. now rewrite lookup_insert_eq. }
    cbn. repeat split; try done.
    + intros c Hne. now rewrite lookup_insert_ne by congruence.
    + intros conn Hc. rewrite Hc0 in Hc. injection Hc as <-.
      eexists. split; [now rewrite lookup_insert_eq |].
      cbn. repeat split; try done. now exists [skb].
Qed.

Lemma recv_msg_footprint_witness :
  let conn := sample_conn CCIETH_CONNECTION_REQUESTED CCIETH_CONNECT_ATTR_UU in
  let d := sample_driver (sample_ep [sample_slot] conn) in
  exists d',
    ccieth_recv_msg 4 d 7 sample_skb = KReturn 0 d'
    /\ xmit d' = []
    /\ forall e, e <> 5 -> ccieth_ep_idr d' !! e = ccieth_ep_idr d !! e.
Proof.
  intros conn d.
  set (d' := set_endpoint d 5
               (set_connection (sample_ep [sample_slot] conn) 3
                  (ccieth_conn_uu_defer_recv_msg conn sample_skb))).
  assert (E : ccieth_recv_msg 4 d 7 sample_skb = KReturn 0 d') by reflexivity.
  exists d'. split; [exact E |].
  destruct (recv_msg_footprint 4 d 7 sample_skb 0 d' E) as (Hx & Hother & _).
  split; [exact Hx | exact Hother].
Defined.

(** One more packet of a run, when the free list is empty. *)
Lemma recv_msgs_step_full hdr_size d ifp_ max ep_id conn_id conn evs skb :
  endpoint_with d ifp_ max ep_id conn_id conn [] evs ->
  status conn = CCIETH_CONNECTION_READY ->
  msg_for hdr_size max ep_id conn_id skb ->
  ccieth_recv_msg hdr_size d ifp_ skb = KReturn (- ENOMEM) d.
Proof.
  intros Hw Hs Hm.
  destruct (msg_for_addressed _ _ _ _ _ _ _ _ _ _ Hw Hm) as (ep & Ha & Hf & _).
  pose proof Ha as (_ & He & _).
  rewrite (ccieth_recv_msg_addressed _ _ _ _ _ _ Ha).
  rewrite bool_decide_true by exact Hs.
  unfold ccieth__recv_msg. rewrite Hf. now rewrite set_endpoint_same.
Qed.

(** One more packet of a run, when there is a free slot. *)
Lemma recv_msgs_step_slot hdr_size d ifp_ max ep_id conn_id conn slot rest evs skb :
  endpoint_with d ifp_ max ep_id conn_id conn (slot :: rest) evs ->
  status conn = CCIETH_CONNECTION_READY ->
  msg_for hdr_size max ep_id conn_id skb ->
  exists d',
    ccieth_recv_msg hdr_size d ifp_ skb = KReturn 0 d'
    /\ endpoint_with d' ifp_ max ep_id conn_id conn rest
         (evs ++ [recv_event hdr_size conn skb]).
Proof.
  intros Hw Hs Hm.
  destruct (msg_for_addressed _ _ _ _ _ _ _ _ _ _ Hw Hm) as (ep & Ha & Hf & Hv).
  pose proof Hm as (Hde & Hdc & Hr & _).
  destruct Hw as (ep1 & He1 & Hi & Hmax & Hc & _).
  pose proof Ha as (_ & He & _). rewrite Hde in He.
  rewrite He1 in He. injection He as ->.
  eexists. split.
  { exact (ccieth_recv_msg_delivery _ _ _ _ _ _ _ _ Ha Hs Hf Hr). }
  rewrite Hde. eexists. split.
  { unfold set_endpoint. cbn. now rewrite lookup_insert_eq. }
  cbn. rewrite Hv. auto.
Qed.

(** X5.  A run of packets fills the free slots and no more.  When [n]
    checked MSG packets for one READY connection arrive at an endpoint with
    [k] free slots, the first [min n k] calls return 0 and the others
    [-ENOMEM]; afterwards the queue holds the old events followed by one
    RECV event per delivered packet, in arrival order, and the free list is
    what is left of it after [min n k] slots. *)
Theorem recv_msgs_fill_slots (hdr_size : Z) (ifp_ max ep_id conn_id : Z)
    (conn : ccieth_connection) (skbs : list sk_buff) (d : driver)
    (free evs : list ccieth_endpoint_event) :
  endpoint_with d ifp_ max ep_id conn_id conn free evs ->
  status conn = CCIETH_CONNECTION_READY ->
  Forall (msg_for hdr_size max ep_id conn_id) skbs ->
  exists d',
    ccieth_recv_msgs hdr_size d ifp_ skbs =
      Some (replicate (min (length skbs) (length free)) 0
              ++ replicate (length skbs - length free) (- ENOMEM), d')
    /\ endpoint_with d' ifp_ max ep_id conn_id conn
         (drop (length skbs) free)
         (evs ++ (recv_event hdr_size conn <$> take (length free) skbs)).
Proof.
  intros Hw Hs Hall. revert d free evs Hw.
  induction Hall as [| skb skbs Hm Hall IH]; intros d free evs Hw.
  { exists d. cbn. rewrite drop_0, take_nil, app_nil_r. auto. }
  destruct free as [| slot rest].
  - pose proof (recv_msgs_step_full _ _ _ _ _ _ _ _ _ Hw Hs Hm) as E.
    destruct (IH d [] evs Hw) as (d' & E' & Hw').
    exists d'. cbn [ccieth_recv_msgs]. rewrite E, E'.
    rewrite drop_nil in Hw' |- *. cbn [length] in *.
    rewrite Nat.min_0_r in *. rewrite Nat.sub_0_r in *.
    split; [reflexivity | exact Hw'].
  - destruct (recv_msgs_step_slot _ _ _ _ _ _ _ _ _ _ _ Hw Hs Hm)
      as (d1 & E & Hw1).
    destruct (IH d1 rest _ Hw1) as (d' & E' & Hw').
    exists d'. cbn [ccieth_recv_msgs]. rewrite E, E'.
    cbn. rewrite <- app_assoc in Hw'. auto.
Qed.

Lemma recv_msgs_fill_slots_witness :
  let conn := sample_conn CCIETH_CONNECTION_READY CCIETH_CONNECT_ATTR_RU in
  let d := sample_driver (sample_ep [sample_slot] conn) in
  exists d',
    ccieth_recv_msgs 4 d 7 [sample_skb; sample_skb; sample_skb] =
      Some ([0; - ENOMEM; - ENOMEM], d')
    /\ endpoint_with d' 7 1024 5 3 conn [] [recv_event 4 conn sample_skb].
Proof.
  intros conn d.
  assert (Hw : endpoint_with d 7 1024 5 3 conn [sample_slot] []).
  { eexists. split; [reflexivity |]. cbn. auto 10. }
  assert (Hm : msg_for 4 1024 5 3 sample_skb).
  { unfold msg_for, sizes_in_range, skb_len. cbn. lia. }
  exact (recv_msgs_fill_slots 4 7 1024 5 3 conn
           [sample_skb; sample_skb; sample_skb] d [sample_slot] [] Hw eq_refl
           (Forall_cons_2 _ _ _ Hm (Forall_cons_2 _ _ _ Hm
              (Forall_cons_2 _ _ _ Hm (Forall_nil_2 _))))).
Defined.

(** A call of [ccieth_recv_msg] on a frame with kernel sizes returns. *)
Lemma ccieth_recv_msg_returns hdr_size d ifp_ skb :
  sizes_in_range hdr_size skb ->
  exists err d', ccieth_recv_msg hdr_size d ifp_ skb = KReturn err d'.
Proof.
  intros Hr.
  destruct (ccieth_recv_msg_cases hdr_size d ifp_ skb) as [Hd | (ep & conn & Ha)].
  { eauto. }
  pose proof Ha as (_ & _ & _ & _ & Hb & _).
  pose proof Hr as (Hh & Hl & Hm).
  rewrite size_t_wrap_small in Hb by lia.
  rewrite (ccieth_recv_msg_addressed _ _ _ _ _ _ Ha).
  destruct (bool_decide (status conn = CCIETH_CONNECTION_READY)).
  - pose proof (ccieth__recv_msg_no_bug hdr_size ep conn skb Hr Hb) as Hnb.
    destruct (ccieth__recv_msg hdr_size ep conn (skb_hdr skb) skb); [eauto | done].
  - destruct (_ && _); eauto.
Qed.

Section Entry.
Context `{ccieth_wire_h}.

(** X6.  The entry point [ccieth_recv] on a frame that is not a connect
    packet.  With the Ethernet header in the headroom and kernel sizes, the
    call returns 0, [-EINVAL] or [-ENOMEM] and never reaches [BUG_ON]; it
    queues no frame for transmission; and it changes the driver state only
    if the skb could be taken over, the type byte is [CCIETH_PKT_MSG] and
    the frame passes the checks of [ccieth_recv_msg].  A frame too short to
    hold the type byte, or of any other type, is dropped with [-EINVAL]. *)
Theorem ccieth_recv_other_than_connect
    (defer : driver -> Z -> Z -> sk_buff -> kresult driver)
    (hdr_size : Z) (d : driver) (ifp_ : Z) (clone : bool)
    (headroom : list Z) (skb pushed : sk_buff) :
  skb_push headroom skb ETH_HLEN = Some pushed ->
  sizes_in_range hdr_size pushed ->
  (forall type, skb_data pushed !! offsetof_type = Some type ->
                is_connect_type type = false) ->
  exists err d',
    ccieth_recv defer hdr_size d ifp_ clone headroom skb = KReturn err d'
    /\ (err = 0 \/ err = - EINVAL \/ err = - ENOMEM)
    /\ xmit d' = xmit d
    /\ (d' <> d ->
        clone = true
        /\ skb_data pushed !! offsetof_type = Some CCIETH_PKT_MSG
        /\ exists ep conn, addressed_to hdr_size d ifp_ pushed ep conn)
    /\ (skb_data pushed !! offsetof_type <> Some CCIETH_PKT_MSG ->
        clone = true -> err = - EINVAL).
Proof.
  intros Hp Hr Hnc. unfold ccieth_recv. rewrite Hp.
  destruct clone; cbn [negb].
  2:{ exists 0, d. repeat split; try done. auto. }
  destruct (skb_data pushed !! offsetof_type) as [type|] eqn:Ht.
  2:{ exists (- EINVAL), d. repeat split; try done. auto. }
  rewrite (Hnc type eq_refl).
  destruct (type =? CCIETH_PKT_MSG) eqn:Em.
  2:{ exists (- EINVAL), d. repeat split; try done. auto. }
  apply Z.eqb_eq in Em. subst type.
  destruct (ccieth_recv_msg_returns hdr_size d ifp_ pushed Hr) as (err & d' & E).
  exists err, d'. split; [exact E |].
  destruct (ccieth_recv_msg_outcomes _ _ _ _ _ _ E)
    as [(-> & Herr) | (-> & ep & conn & Ha & Hcase)].
  - split; [tauto |]. split; [reflexivity |]. split; [done |].
    intros Hm _. now destruct Hm.
  - split; [auto |]. split.
    { destruct Hcase as [(_ & slot & rest & ev & _ & ->) | (_ & _ & ->)];
        reflexivity. }
    split; [| done]. intros _. repeat split. eauto.
Qed.

End Entry.

Lemma ccieth_recv_other_than_connect_witness :
  let d := sample_driver (sample_ep [sample_slot]
             (sample_conn CCIETH_CONNECTION_READY CCIETH_CONNECT_ATTR_RU)) in
  exists err d',
    @ccieth_recv sample_wire_h sample_defer 4 d 7 true sample_headroom
      (sample_short_skb 9) = KReturn err d'
    /\ err = - EINVAL
    /\ xmit d' = xmit d.
Proof.
  intros d.
  assert (Hp : skb_push sample_headroom (sample_short_skb 9) ETH_HLEN
               = Some {| skb_hdr := skb_hdr (sample_short_skb 9);
                         skb_data := sample_headroom ++ [9; 0; 65] |})
    by reflexivity.
  assert (Hr : sizes_in_range 4
                 {| skb_hdr := skb_hdr (sample_short_skb 9);
                    skb_data := sample_headroom ++ [9; 0; 65] |}).
  { unfold sizes_in_range, skb_len. cbn. lia. }
  destruct (@ccieth_recv_other_than_connect sample_wire_h sample_defer 4 d 7
              true sample_headroom (sample_short_skb 9) _ Hp Hr)
    as (err & d' & E & _ & Hx & _ & Hother).
  { intros type [= <-]. reflexivity. }
  exists err, d'. split; [exact E |]. split; [| exact Hx].
  apply Hother; [| reflexivity]. cbn. discriminate.
Defined.

End CciethRecvProps.

(* ===================================================================== *)
(** ** More on the sock transport *)
(* ===================================================================== *)

Module SockMoreProps.
Import Sock SockSetup SockProps.

(** *** The wire *)

Lemma errnos_positive_cons r k :
  errnos_positive (r :: k) -> errnos_positive k.
Proof. intros Hk e He. apply Hk. now apply list_elem_of_further. Qed.

(** A call of [sock_sendto] for a length other than -1, with a kernel whose
    errnos are positive, does not return -1. *)
Lemma sock_sendto_not_minus_1 k e len_ ret e' k' :
  sock_sendto k e len_ = (ret, e', k') ->
  len_ <> -1 -> errnos_positive k ->
  ret <> -1 /\ errnos_positive k'.
Proof.
  intros E Hl. revert e E.
  induction k as [|r k IH]; intros e E Hk; cbn [sock_sendto] in E.
  - destruct (len_ =? 0); injection E as <- <- <-; split; (lia || exact Hk).
  - destruct (len_ =? 0); [injection E as <- <- <-; split; (lia || exact Hk) |].
    pose proof (errnos_positive_cons _ _ Hk) as Hk'.
    destruct r as [|err].
    + injection E as <- <- <-. split; [lia | exact Hk'].
    + destruct (err =? EINTR); [exact (IH _ E Hk') |].
      injection E as <- <- <-. split; [| exact Hk'].
      assert (0 < err) by (apply Hk; left). lia.
Qed.

(** X7.  [sock_sendto] reports a failure through its return value, not as
    -1.  For a datagram of positive length the call either returns that
    length, having skipped any number of [EINTR] answers, or it returns the
    errno of the first answer that is a failure other than [EINTR], which it
    also leaves in [errno]; with the positive errnos of a real kernel the
    value returned is positive, so it is neither the -1 both progress
    passes test for nor the 0 [sock_sendv] tests for. *)
Theorem sock_sendto_reports_errno (k : list sysres) (e len_ ret e' : Z)
    (k' : list sysres) :
  sock_sendto k e len_ = (ret, e', k') ->
  0 < len_ ->
  errnos_positive k ->
  0 < ret
  /\ exists pre,
       Forall (eq (sys_error EINTR)) pre
       /\ ((ret = len_ /\ (k = pre ++ sys_sent :: k' \/ (k = pre /\ k' = [])))
           \/ (ret = e' /\ ret <> EINTR /\ k = pre ++ sys_error ret :: k')).
Proof.
  intros E Hl. revert e E.
  induction k as [|r k IH]; intros e E Hk; cbn [sock_sendto] in E.
  - replace (len_ =? 0) with false in E by lia. injection E as <- <- <-.
    split; [exact Hl |]. exists []. split; [constructor |]. left. auto.
  - replace (len_ =? 0) with false in E by lia.
    pose proof (errnos_positive_cons _ _ Hk) as Hk'.
    destruct r as [|err].
    + injection E as <- <- <-. split; [exact Hl |].
      exists []. split; [constructor |]. left. auto.
    + destruct (err =? EINTR) eqn:Ei.
      * apply Z.eqb_eq in Ei. subst err.
        destruct (IH _ E Hk') as (Hpos & pre & Hpre & Hcase).
        split; [exact Hpos |]. exists (sys_error EINTR :: pre).
        split; [constructor; [reflexivity | exact Hpre] |].
        destruct Hcase as [(-> & [-> | (-> & ->)]) | (-> & Hne & ->)].
        -- left. split; [reflexivity |]. now left.
        -- left. split; [reflexivity |]. now right.
        -- right. auto.
      * injection E as <- <- <-.
        split; [apply Hk; left |].
        exists []. split; [constructor |]. right.
        split; [reflexivity |]. split; [lia | reflexivity].
Qed.

Lemma sock_sendto_reports_errno_witness :
  sock_sendto [sys_error EINTR; sys_error EAGAIN; sys_sent] 0 29
  = (EAGAIN, EAGAIN, [sys_sent])
  /\ 0 < EAGAIN.
Proof.
  split; [reflexivity |].
  refine (proj1 (sock_sendto_reports_errno
                   [sys_error EINTR; sys_error EAGAIN; sys_sent] 0 29
                   EAGAIN EAGAIN [sys_sent] eq_refl _ _)).
  - lia.
  - intros e He. apply elem_of_cons in He as [[= ->] | He]; [reflexivity |].
    apply elem_of_cons in He as [[= ->] | He]; [reflexivity |].
    apply elem_of_cons in He as [He | He]; [discriminate |].
    now apply elem_of_nil in He.
Defined.

Lemma filter_ext_elem_of (f g : nat -> bool) (l : list nat) :
  (forall x, x ∈ l -> f x = g x) -> List.filter f l = List.filter g l.
Proof.
  intros Hfg. apply List.filter_ext_in. intros x Hx. apply Hfg.
  now apply list_elem_of_In.
Qed.

(** *** The ID bitmap *)

Section Ids.
Context `{core_sock_h}.

Lemma testbit_land_pow2_0 b o :
  0 <= o -> Z.land b (2 ^ o) = 0 -> Z.testbit b o = false.
Proof.
  intros Ho Hl.
  assert (E : Z.testbit (Z.land b (2 ^ o)) o = false).
  { rewrite Hl. apply Z.bits_0. }
  rewrite Z.land_spec, Z.pow2_bits_true in E by exact Ho.
  now rewrite andb_true_r in E.
Qed.

(** Two non-negative numbers in the same block at the same offset are the
    same number. *)
Lemma same_block_offset i j :
  0 < SOCK_BLOCK_SIZE -> 0 <= i -> 0 <= j ->
  Z.to_nat (i / SOCK_BLOCK_SIZE) = Z.to_nat (j / SOCK_BLOCK_SIZE) ->
  i mod SOCK_BLOCK_SIZE = j mod SOCK_BLOCK_SIZE ->
  i = j.
Proof.
  intros HB Hi Hj Hblock Hoff.
  assert (Hd : i / SOCK_BLOCK_SIZE = j / SOCK_BLOCK_SIZE).
  { apply Z2Nat.inj; [apply Z.div_pos; lia | apply Z.div_pos; lia | exact Hblock]. }
  rewrite (Z_div_mod_eq_full i SOCK_BLOCK_SIZE).
  rewrite (Z_div_mod_eq_full j SOCK_BLOCK_SIZE).
  now rewrite Hd, Hoff.
Qed.

(** Writing the block of [id] changes the bit of another ID only if the
    new block differs from the old one at that ID's offset. *)
Lemma id_taken_insert st st' id b b' j :
  0 < SOCK_BLOCK_SIZE -> 0 <= id -> 0 <= j -> j <> id ->
  sep_ids st !! Z.to_nat (id / SOCK_BLOCK_SIZE) = Some b ->
  sep_ids st' = <[Z.to_nat (id / SOCK_BLOCK_SIZE) := b']> (sep_ids st) ->
  (forall o, 0 <= o -> o <> id mod SOCK_BLOCK_SIZE ->
             Z.testbit b' o = Z.testbit b o) ->
  id_taken st' j = id_taken st j.
Proof.
  intros HB Hid Hj Hne Hb Hs Hbits. unfold id_taken. rewrite Hs.
  destruct (decide (Z.to_nat (j / SOCK_BLOCK_SIZE)
                    = Z.to_nat (id / SOCK_BLOCK_SIZE))) as [Hblock | Hblock].
  - rewrite Hblock, Hb.
    rewrite list_lookup_insert_eq by (now apply lookup_lt_Some in Hb).
    apply Hbits; [apply Z.mod_pos_bound; lia |].
    intros Hoff. apply Hne.
    now apply same_block_offset.
  - now rewrite list_lookup_insert_ne by congruence.
Qed.

(** Writing the block of [id] leaves the bit of [j] as it was when the new
    block agrees with the old one at the offset of [j]. *)
Lemma id_taken_insert_at st st' id b b' j :
  sep_ids st !! Z.to_nat (id / SOCK_BLOCK_SIZE) = Some b ->
  sep_ids st' = <[Z.to_nat (id / SOCK_BLOCK_SIZE) := b']> (sep_ids st) ->
  (Z.to_nat (j / SOCK_BLOCK_SIZE) = Z.to_nat (id / SOCK_BLOCK_SIZE) ->
   Z.testbit b' (j mod SOCK_BLOCK_SIZE) = Z.testbit b (j mod SOCK_BLOCK_SIZE)) ->
  id_taken st' j = id_taken st j.
Proof.
  intros Hb Hs Hbits. unfold id_taken. rewrite Hs.
  destruct (decide (Z.to_nat (j / SOCK_BLOCK_SIZE)
                    = Z.to_nat (id / SOCK_BLOCK_SIZE))) as [Hblock | Hblock].
  - rewrite Hblock, Hb.
    rewrite list_lookup_insert_eq by (now apply lookup_lt_Some in Hb).
    now apply Hbits.
  - now rewrite list_lookup_insert_ne by congruence.
Qed.

(** The bits of the mask of offset 31. *)
Lemma high_mask_bits o :
  0 <= o -> Z.testbit (2 ^ 64 - 2 ^ 31) o = (31 <=? o) && (o <? 64).
Proof.
  intros Ho. change (2 ^ 64 - 2 ^ 31) with (Z.shiftl (Z.ones 33) 31).
  rewrite Z.shiftl_spec by exact Ho.
  destruct (decide (31 <= o)) as [Hge | Hlt].
  - rewrite Z.testbit_ones_nonneg by lia.
    replace (31 <=? o) with true by lia. cbn [andb].
    destruct (o <? 64) eqn:E; lia.
  - rewrite Z.testbit_neg_r by lia.
    now replace (31 <=? o) with false by lia.
Qed.

(** A block that shares no bit with a mask is clear wherever the mask is
    set. *)
Lemma testbit_land_mask_0 b m o :
  Z.land b m = 0 -> Z.testbit m o = true -> Z.testbit b o = false.
Proof.
  intros Hl Hm.
  assert (E : Z.testbit (Z.land b m) o = false).
  { rewrite Hl. apply Z.bits_0. }
  rewrite Z.land_spec, Hm in E. now rewrite andb_true_r in E.
Qed.

(** What an allocation does to the bitmap.  An ID at offset 31 takes the
    IDs above it in its block with it. *)
Lemma sock_get_id_taken st id st' :
  0 < SOCK_BLOCK_SIZE ->
  sock_get_id st = Ret id st' ->
  0 <= id
  /\ id mod SOCK_BLOCK_SIZE <= 31
  /\ id_taken st id = false
  /\ id_taken st' id = true
  /\ (forall j, 0 <= j -> j <> id ->
        j mod SOCK_BLOCK_SIZE <= 31 \/ id mod SOCK_BLOCK_SIZE <> 31 ->
        id_taken st' j = id_taken st j)
  /\ (id mod SOCK_BLOCK_SIZE = 31 ->
      forall j, 0 <= j ->
        Z.to_nat (j / SOCK_BLOCK_SIZE) = Z.to_nat (id / SOCK_BLOCK_SIZE) ->
        31 <= j mod SOCK_BLOCK_SIZE < 64 ->
        id_taken st j = false /\ id_taken st' j = true).
Proof.
  intros HB Hg.
  destruct (sock_get_id_loop_ret _ _ _ _ Hg)
    as (b & bit & rnd' & Hid & Hs & Hb & Hl & ->).
  cbv zeta in Hs, Hb, Hl.
  assert (Hin : sep_ids st !! Z.to_nat (id / SOCK_BLOCK_SIZE)
                = Some b -> (Z.to_nat (id / SOCK_BLOCK_SIZE)
                             < length (sep_ids st))%nat).
  { apply lookup_lt_Some. }
  specialize (Hin Hb).
  assert (Hoff : 0 <= id mod SOCK_BLOCK_SIZE) by (apply Z.mod_pos_bound; lia).
  destruct (int_shl_1_cases _ _ Hs) as [[Ho Hm] | [Ho Hm]]; rewrite Hm in *.
  - split; [lia |]. split; [lia |]. split; [| split; [| split]].
    + unfold id_taken. rewrite Hb. apply testbit_land_pow2_0; [lia | exact Hl].
    + unfold id_taken. cbn [sep_ids set_prng set_sep_ids].
      rewrite list_lookup_insert_eq by exact Hin.
      rewrite Z.lor_spec, Z.pow2_bits_true by lia. apply orb_true_r.
    + intros j Hj Hne _.
      apply (id_taken_insert st _ id b (Z.lor b (2 ^ (id mod SOCK_BLOCK_SIZE))));
        try assumption; try lia; [reflexivity |].
      intros o Ho' Hneo.
      rewrite Z.lor_spec, Z.pow2_bits_false by lia. apply orb_false_r.
    + lia.
  - split; [lia |]. split; [lia |]. split; [| split; [| split]].
    + unfold id_taken. rewrite Hb.
      apply (testbit_land_mask_0 _ _ _ Hl).
      rewrite high_mask_bits by lia. lia.
    + unfold id_taken. cbn [sep_ids set_prng set_sep_ids].
      rewrite list_lookup_insert_eq by exact Hin.
      rewrite Z.lor_spec, high_mask_bits by lia.
      replace (31 <=? id mod SOCK_BLOCK_SIZE) with true by lia.
      replace (id mod SOCK_BLOCK_SIZE <? 64) with true by lia.
      apply orb_true_r.
    + intros j Hj Hne [Hlow | Hnot]; [| lia].
      apply (id_taken_insert_at st _ id b (Z.lor b (2 ^ 64 - 2 ^ 31)));
        [exact Hb | reflexivity |].
      intros Hblock.
      assert (Hjo : 0 <= j mod SOCK_BLOCK_SIZE) by (apply Z.mod_pos_bound; lia).
      assert (Hlt : j mod SOCK_BLOCK_SIZE < 31).
      { destruct (decide (j mod SOCK_BLOCK_SIZE = 31)) as [E | E]; [| lia].
        exfalso. apply Hne. apply same_block_offset; try assumption; lia. }
      rewrite Z.lor_spec, high_mask_bits by lia.
      replace (31 <=? j mod SOCK_BLOCK_SIZE) with false by lia.
      apply orb_false_r.
    + intros _ j Hj Hblock Hjo. split.
      * unfold id_taken. rewrite Hblock, Hb.
        apply (testbit_land_mask_0 _ _ _ Hl).
        rewrite high_mask_bits by lia. lia.
      * unfold id_taken. cbn [sep_ids set_prng set_sep_ids].
        rewrite Hblock, list_lookup_insert_eq by exact Hin.
        rewrite Z.lor_spec, high_mask_bits by lia.
        replace (31 <=? j mod SOCK_BLOCK_SIZE) with true by lia.
        replace (j mod SOCK_BLOCK_SIZE <? 64) with true by lia.
        apply orb_true_r.
Qed.

(** An allocation uses up at least one random number. *)
Lemma sock_get_id_loop_draws rnd st id st' :
  sock_get_id_loop rnd st = Ret id st' ->
  exists used, used <> [] /\ rnd = used ++ prng st'.
Proof.
  induction rnd as [|r rnd IH]; cbn [sock_get_id_loop]; [discriminate |].
  destruct (sep_ids st !! _) as [b|]; [| discriminate].
  destruct (int_shl_1 _) as [bit|]; [| discriminate].
  destruct (Z.land b (uint64 bit) =? 0).
  - intros [= _ <-]. exists [r]. split; [discriminate | reflexivity].
  - intros Hg. destruct (IH Hg) as (used & _ & ->).
    exists (r :: used). split; [discriminate | reflexivity].
Qed.

(** X9.  One allocation from the ID bitmap.  [1 << offset] is computed in
    type [int]: one bit for an offset below 31, INT_MIN at offset 31, which
    the 64-bit block sees as bits 31 to 63, and undefined from offset 32
    on, where the model has no result.  So when [sock_get_id] returns an
    ID, its offset in its block is at most 31; the ID was free before the
    call and is taken after it; at least one random number has been used
    up, and nothing of the transport state but the bitmap and the random
    source is different.  For an ID at an offset below 31 the bit of no
    other ID has changed.  For an ID at offset 31 the IDs at offsets 32 to
    63 of its block were free and read as taken afterwards, and the IDs at
    offsets up to 31 are as they were. *)
Theorem sock_get_id_takes_one_free_id (st : sock_state) (id : Z)
    (st' : sock_state) :
  0 < SOCK_BLOCK_SIZE ->
  sock_get_id st = Ret id st' ->
  0 <= id < 2 ^ 32
  /\ id mod SOCK_BLOCK_SIZE <= 31
  /\ id_taken st id = false
  /\ id_taken st' id = true
  /\ (forall j, 0 <= j -> j <> id ->
        j mod SOCK_BLOCK_SIZE <= 31 \/ id mod SOCK_BLOCK_SIZE <> 31 ->
        id_taken st' j = id_taken st j)
  /\ (id mod SOCK_BLOCK_SIZE = 31 ->
      forall j, 0 <= j ->
        Z.to_nat (j / SOCK_BLOCK_SIZE) = Z.to_nat (id / SOCK_BLOCK_SIZE) ->
        31 <= j mod SOCK_BLOCK_SIZE < 64 ->
        id_taken st j = false /\ id_taken st' j = true)
  /\ length (sep_ids st') = length (sep_ids st)
  /\ (exists used, used <> [] /\ prng st = used ++ prng st')
  /\ set_prng (prng st) (set_sep_ids (sep_ids st) st') = st.
Proof.
  intros HB Hg.
  destruct (sock_get_id_taken st id st' HB Hg)
    as (_ & Hoff & Hfree & Htaken & Hother & Hhigh).
  pose proof (sock_get_id_loop_draws _ _ _ _ Hg) as Hdraw.
  destruct (sock_get_id_loop_ret _ _ _ _ Hg)
    as (b & bit & rnd' & Hid & _ & _ & _ & ->).
  split; [exact Hid |]. split; [exact Hoff |]. split; [exact Hfree |].
  split; [exact Htaken |]. split; [exact Hother |]. split; [exact Hhigh |].
  split.
  { cbn [sep_ids set_prng set_sep_ids]. apply length_insert. }
  split; [exact Hdraw |]. now destruct st.
Qed.

(** A run of allocations. *)
Lemma sock_get_ids_taken n st ids st' :
  0 < SOCK_BLOCK_SIZE ->
  sock_get_ids n st = Ret ids st' ->
  NoDup ids
  /\ (forall id, id ∈ ids ->
        0 <= id /\ id mod SOCK_BLOCK_SIZE <= 31
        /\ id_taken st id = false /\ id_taken st' id = true)
  /\ (forall j, 0 <= j -> j ∉ ids ->
        j mod SOCK_BLOCK_SIZE <= 31
        \/ Forall (fun id => id mod SOCK_BLOCK_SIZE <> 31) ids ->
        id_taken st' j = id_taken st j).
Proof.
  intros HB. revert st ids.
  induction n as [|n IH]; intros st ids; cbn [sock_get_ids].
  { intros [= <- <-]. split; [constructor |]. split; [| reflexivity].
    intros id Hin. now apply elem_of_nil in Hin. }
  destruct (sock_get_id st) as [id st1|st1|st1| |] eqn:Hg; try discriminate.
  destruct (sock_get_ids n st1) as [ids' st2|st2|st2| |] eqn:Hr;
    try discriminate.
  intros [= <- <-].
  destruct (sock_get_id_taken st id st1 HB Hg)
    as (Hid & Hoff & Hfree & Htaken & Hother & _).
  destruct (IH st1 ids' Hr) as (Hnd & Hin & Hout).
  assert (Hnew : id ∉ ids').
  { intros Hi. destruct (Hin id Hi) as (_ & _ & Hf & _). congruence. }
  split; [now apply NoDup_cons |]. split.
  - intros x Hx. apply elem_of_cons in Hx as [-> | Hx].
    + split; [exact Hid |]. split; [exact Hoff |]. split; [exact Hfree |].
      rewrite (Hout id Hid Hnew); [exact Htaken | now left].
    + destruct (Hin x Hx) as (Hx0 & Hxo & Hf & Ht).
      split; [exact Hx0 |]. split; [exact Hxo |]. split; [| exact Ht].
      rewrite <- (Hother x Hx0); [exact Hf | | now left].
      intros ->. contradiction.
  - intros j Hj Hnj Hcase. apply not_elem_of_cons in Hnj as [Hne Hnj].
    rewrite (Hout j Hj Hnj).
    + apply (Hother j Hj Hne).
      destruct Hcase as [Hlow | Hall]; [now left | right].
      now apply Forall_cons in Hall as [Hh _].
    + destruct Hcase as [Hlow | Hall]; [now left | right].
      now apply Forall_cons in Hall as [_ Ht].
Qed.

(** X10.  IDs handed out are unique.  However many IDs are allocated in a
    row (by draws whose offsets stay below 32, where the shift of
    [sock_get_id] is defined), no ID is returned twice; each of them has an
    offset of at most 31, was free at the start and is taken at the end.
    An ID that was not returned is as it was if its offset is at most 31,
    or if no returned ID has offset 31: an allocation at offset 31 takes
    offsets 32 to 63 of its block with it. *)
Theorem sock_get_ids_are_distinct (n : nat) (st : sock_state)
    (ids : list Z) (st' : sock_state) :
  0 < SOCK_BLOCK_SIZE ->
  sock_get_ids n st = Ret ids st' ->
  length ids = n
  /\ NoDup ids
  /\ (forall id, id ∈ ids ->
        id mod SOCK_BLOCK_SIZE <= 31
        /\ id_taken st id = false /\ id_taken st' id = true)
  /\ (forall j, 0 <= j -> j ∉ ids ->
        j mod SOCK_BLOCK_SIZE <= 31
        \/ Forall (fun id => id mod SOCK_BLOCK_SIZE <> 31) ids ->
        id_taken st' j = id_taken st j).
Proof.
  intros HB Hr.
  destruct (sock_get_ids_taken n st ids st' HB Hr) as (Hnd & Hin & Hout).
  split.
  { clear Hnd Hin Hout. revert st ids st' Hr.
    induction n as [|n IH]; intros st ids st'; cbn [sock_get_ids].
    - now intros [= <- _].
    - destruct (sock_get_id st) as [id st1|st1|st1| |]; try discriminate.
      destruct (sock_get_ids n st1) as [ids' st2|st2|st2| |] eqn:Hr;
        try discriminate.
      intros [= <- _]. cbn. f_equal. exact (IH _ _ _ Hr). }
  split; [exact Hnd |]. split; [| exact Hout].
  intros id Hi. destruct (Hin id Hi) as (_ & Ho & Hf & Ht). auto.
Qed.

(** X11.  Freeing an ID.  [sock_put_id] gets past its assertion only for an
    ID at offset 0 of its block whose bit is set; it then clears that bit
    and no other. *)
Theorem sock_put_id_returns_at_offset_0 (st : sock_state) (id : Z)
    (st' : sock_state) :
  0 < SOCK_BLOCK_SIZE ->
  0 <= id ->
  Forall (fun b => 0 <= b < 2 ^ 64) (sep_ids st) ->
  sock_put_id st id = Ret tt st' ->
  id mod SOCK_BLOCK_SIZE = 0
  /\ id_taken st id = true
  /\ id_taken st' id = false
  /\ (forall j, 0 <= j -> j <> id -> id_taken st' j = id_taken st j).
Proof.
  intros HB Hid Hrange. unfold sock_put_id.
  destruct (sep_ids st !! Z.to_nat (id / SOCK_BLOCK_SIZE)) as [b|] eqn:Hb;
    [| discriminate].
  assert (Hbr : 0 <= b < 2 ^ 64).
  { eapply (proj1 (Forall_lookup _ _) Hrange). exact Hb. }
  destruct (int_shl_1 (id mod SOCK_BLOCK_SIZE)) as [bit|] eqn:Hs;
    [| discriminate].
  destruct (Z.land b (uint64 bit) =? 1) eqn:Ea; [| discriminate].
  apply Z.eqb_eq in Ea.
  assert (Hoff : id mod SOCK_BLOCK_SIZE = 0).
  { destruct (decide (id mod SOCK_BLOCK_SIZE = 0)) as [E | E]; [exact E |].
    exfalso. revert Ea. apply land_mask_ne_1.
    now apply (int_shl_1_bit_0 (id mod SOCK_BLOCK_SIZE)). }
  rewrite Hoff in *. injection Hs as <-.
  change (uint64 (Z.shiftl 1 0)) with 1 in Ea.
  change (Z.lnot (Z.shiftl 1 0)) with (Z.lnot 1).
  intros [= <-].
  assert (Hmask : uint64 (Z.lnot 1) = Z.ldiff (Z.ones 64) 1) by reflexivity.
  assert (Hb0 : Z.testbit b 0 = true).
  { assert (E : Z.testbit (Z.land b 1) 0 = true) by now rewrite Ea.
    rewrite Z.land_spec in E. now apply andb_true_iff in E as [E _]. }
  split; [reflexivity |]. split; [| split].
  - unfold id_taken. now rewrite Hb, Hoff.
  - unfold id_taken. cbn [sep_ids set_sep_ids].
    rewrite list_lookup_insert_eq by (now apply lookup_lt_Some in Hb).
    rewrite Hoff, Hmask, Z.land_spec, Z.ldiff_spec. cbn. apply andb_false_r.
  - intros j Hj Hne.
    apply (id_taken_insert st _ id b (Z.land b (Z.ldiff (Z.ones 64) 1)));
      try assumption; [cbn [sep_ids set_sep_ids]; now rewrite Hmask |].
    intros o Ho' Hneo. rewrite Hoff in Hneo.
    rewrite Z.land_spec, Z.ldiff_spec.
    change 1 with (2 ^ 0) at 1. rewrite Z.pow2_bits_false by lia.
    cbn [negb]. rewrite andb_true_r.
    destruct (Z.testbit b o) eqn:Et; [| reflexivity]. cbn.
    destruct (decide (o < 64)) as [Hlt | Hge].
    + apply Z.ones_spec_low. lia.
    + exfalso.
      assert (Hf : Z.testbit b o = false); [| congruence].
      destruct (decide (b = 0)) as [-> | Hnz]; [apply Z.bits_0 |].
      apply Z.bits_above_log2; [lia |].
      assert (Z.log2 b < 64) by (apply Z.log2_lt_pow2; lia). lia.
Qed.

End Ids.

Lemma sock_get_id_takes_one_free_id_witness :
  let st := set_prng [31] fresh_state in
  exists st',
    @sock_get_id sample_core_sock_h st = Ret 31 st'
    /\ sep_ids st' = [2 ^ 64 - 2 ^ 31; 0]
    /\ @id_taken sample_core_sock_h st 31 = false
    /\ @id_taken sample_core_sock_h st' 31 = true
    /\ @id_taken sample_core_sock_h st 40 = false
    /\ @id_taken sample_core_sock_h st' 40 = true
    /\ @id_taken sample_core_sock_h st' 30 = false
    /\ prng st' = [].
Proof.
  intros st.
  assert (Hg : @sock_get_id sample_core_sock_h st
               = Ret 31 (set_prng [] (set_sep_ids [2 ^ 64 - 2 ^ 31; 0] st)))
    by reflexivity.
  eexists. split; [exact Hg |].
  destruct (@sock_get_id_takes_one_free_id sample_core_sock_h st 31 _
              ltac:(cbn; lia) Hg) as (_ & _ & Hf & Ht & Ho & Hh & _).
  split; [reflexivity |]. split; [exact Hf |]. split; [exact Ht |].
  destruct (Hh eq_refl 40 ltac:(lia) eq_refl
              ltac:(vm_compute; split; [discriminate | reflexivity]))
    as [Hf40 Ht40].
  split; [exact Hf40 |]. split; [exact Ht40 |].
  split; [| reflexivity].
  rewrite (Ho 30 ltac:(lia) ltac:(lia)
             ltac:(left; vm_compute; discriminate)). reflexivity.
Defined.

Lemma sock_get_ids_are_distinct_witness :
  let st := set_prng [1; 1; 2] fresh_state in
  exists st',
    @sock_get_ids sample_core_sock_h 2 st = Ret [1; 2] st'
    /\ NoDup [1; 2].
Proof.
  intros st.
  assert (Hg : @sock_get_ids sample_core_sock_h 2 st
               = Ret [1; 2] (set_prng [] (set_sep_ids [6; 0] st)))
    by reflexivity.
  eexists. split; [exact Hg |].
  exact (proj1 (proj2 (@sock_get_ids_are_distinct sample_core_sock_h 2 st
                         [1; 2] _ ltac:(cbn; lia) Hg))).
Defined.

Lemma sock_put_id_returns_at_offset_0_witness :
  let st := set_sep_ids [1; 0] fresh_state in
  @sock_put_id sample_core_sock_h st 0 = Ret tt (set_sep_ids [0; 0] st)
  /\ @id_taken sample_core_sock_h st 0 = true
  /\ @id_taken sample_core_sock_h (set_sep_ids [0; 0] st) 0 = false.
Proof.
  intros st.
  assert (Hp : @sock_put_id sample_core_sock_h st 0
               = Ret tt (set_sep_ids [0; 0] st)) by reflexivity.
  split; [exact Hp |].
  destruct (@sock_put_id_returns_at_offset_0 sample_core_sock_h st 0 _
              ltac:(cbn; lia) (Z.le_refl 0)
              ltac:(repeat constructor; cbn; lia) Hp)
    as (_ & Ht & Hf & _).
  split; [exact Ht | exact Hf].
Defined.

(** *** send and connect *)

Section SendConnect.
Context `{core_sock_h}.

(** For a datagram that is not empty, [sock_sendto] does not return 0. *)
Lemma sock_sendto_nonzero k e len_ ret e' k' :
  sock_sendto k e len_ = (ret, e', k') ->
  len_ <> 0 -> errnos_positive k ->
  ret <> 0.
Proof.
  intros E Hl. revert e E.
  induction k as [|r k IH]; intros e E Hk; cbn [sock_sendto] in E.
  - replace (len_ =? 0) with false in E by lia. now injection E as <- <- <-.
  - replace (len_ =? 0) with false in E by lia.
    pose proof (errnos_positive_cons _ _ Hk) as Hk'.
    destruct r as [|err].
    + now injection E as <- <- <-.
    + destruct (err =? EINTR); [exact (IH _ E Hk') |].
      injection E as <- <- <-.
      assert (0 < err) by (apply Hk; left). lia.
Qed.

(** X12.  The direct send of an unreliable message is never recognised as
    done.  On a connection the reliability test takes for unreliable,
    [sock_sendv] writes the message to the socket at once and returns
    [CCI_SUCCESS] only if [sock_sendto] returns 0; for a message that is
    not empty [sock_sendto] returns the length sent or an errno, never 0,
    so the call always goes on to queue the same message through the tx
    descriptor, whether the direct send succeeded or failed. *)
Theorem sock_sendv_unreliable_always_queues (st : sock_state) (t : nat)
    (d : sock_tx) (connection : nat) (conn : cci_conn) (p : nat)
    (sconn : sock_conn) (header_len : Z) (segs : list (bool * Z))
    (data_len context flags_ : Z) :
  sglobals st = true ->
  sum_segments segs 0 = Some data_len ->
  conns st !! connection = Some conn ->
  uint32 (header_len + data_len) <= max_send_size conn ->
  priv conn = Some p ->
  sconns st !! p = Some sconn ->
  is_reliable (attribute conn) = false ->
  txs st !! t = Some d ->
  sizeof_sock_header_t + header_len + data_len <> 0 ->
  errnos_positive (kernel st) ->
  exists ret e k,
    sock_sendto (kernel st) (errno st)
      (sizeof_sock_header_t + header_len + data_len) = (ret, e, k)
    /\ ret <> 0
    /\ sock_sendv (Some t) st connection header_len segs context flags_
       = sock_sendv_queue (Some t)
           (set_errno e
              (set_kernel k
                 (set_txs
                    (<[t := tx_set_len
                              (sizeof_sock_header_t + header_len + data_len) d]>
                       (txs st)) st)))
           connection conn p sconn header_len data_len context flags_.
Proof.
  intros Hg Hs Hc Hm Hp Hsc Hr Ht Hl Hk.
  destruct (sock_sendto (kernel st) (errno st)
              (sizeof_sock_header_t + header_len + data_len))
    as [[ret e] k] eqn:Es.
  pose proof (sock_sendto_nonzero _ _ _ _ _ _ Es Hl Hk) as Hret.
  exists ret, e, k. split; [reflexivity |]. split; [exact Hret |].
  unfold sock_sendv. rewrite Hg, Hs, Hc, Hp, Hsc, Hr. cbn [negb].
  destruct (uint32 (header_len + data_len) >? max_send_size conn) eqn:E; [lia |].
  cbn [mbind option_bind]. rewrite Ht. cbn [fmap option_fmap option_map].
  cbn [kernel errno set_txs]. rewrite Es.
  now replace (ret =? 0) with false by lia.
Qed.

(** [sock_getaddrinfo] is [sock_getaddrinfo_ai] with NULL in [ai]. *)
Lemma sock_getaddrinfo_ai_null (getaddrinfo : string -> Z * Z) (uri : string) :
  sock_getaddrinfo_ai 0 getaddrinfo uri
  = Some (sock_getaddrinfo getaddrinfo uri).
Proof.
  unfold sock_getaddrinfo_ai, sock_getaddrinfo.
  destruct (String.prefix "ip://" uri); [| reflexivity].
  cbv zeta. destruct (getaddrinfo _) as [ret addr].
  destruct (negb (ret =? 0)); reflexivity.
Qed.

(** Without the scheme "ip://" the resolver is not called and [ai] is not
    freed. *)
Lemma sock_getaddrinfo_ai_other_scheme (ai : Z)
    (getaddrinfo : string -> Z * Z) (uri : string) :
  String.prefix "ip://" uri = false ->
  sock_getaddrinfo_ai ai getaddrinfo uri
  = Some (sock_getaddrinfo getaddrinfo uri).
Proof.
  intros Hp. unfold sock_getaddrinfo_ai, sock_getaddrinfo. now rewrite Hp.
Qed.

(** When the resolver is called and fails, a value other than NULL in [ai]
    is freed. *)
Lemma sock_getaddrinfo_ai_garbage (ai : Z) (getaddrinfo : string -> Z * Z)
    (uri : string) (code : cci_status) :
  String.prefix "ip://" uri = true ->
  sock_getaddrinfo getaddrinfo uri = inl code ->
  ai <> 0 ->
  sock_getaddrinfo_ai ai getaddrinfo uri = None.
Proof.
  intros Hp Hr Ha. unfold sock_getaddrinfo_ai, sock_getaddrinfo in *.
  rewrite Hp in *. cbv zeta in *. destruct (getaddrinfo _) as [ret addr].
  destruct (negb (ret =? 0)); [| discriminate].
  now replace (ai =? 0) with false by lia.
Qed.

(** X13.  [sock_connect] when the URI cannot be resolved.  [sconn] points
    at a [sock_conn_t] of the endpoint.  [sock_getaddrinfo] leaves its
    local [ai] unassigned when the resolver fails and passes it to
    [freeaddrinfo].  If the URI lacks the scheme "ip://" (the resolver is
    not called), or if [ai] happens to hold NULL, the call returns the
    error code through its [out:] exit: the connection it had allocated is
    freed again, no tx is taken, nothing is queued and no ID is allocated;
    the only trace is in the [sock_conn_t] that [sconn] points at, which
    has been marked active.  If the resolver was called and [ai] holds
    anything else, the call frees an invalid pointer. *)
Theorem sock_connect_resolver_error (getaddrinfo : string -> Z * Z)
    (ai : Z) (s : nat) (tx : option nat) (st : sock_state)
    (server_uri : string)
    (port data_len attribute_ context flags_ : Z) (code : cci_status) :
  sglobals st = true ->
  (s < length (sconns st))%nat ->
  sock_getaddrinfo getaddrinfo server_uri = inl code ->
  (String.prefix "ip://" server_uri = false \/ ai = 0 ->
   exists st',
     sock_connect getaddrinfo ai (Some s) tx st server_uri port data_len
       attribute_ context flags_ = Ret code st'
     /\ conns st' = conns st
     /\ length (sconns st') = length (sconns st)
     /\ (forall q, q <> s -> sconns st' !! q = sconns st !! q)
     /\ (sconn_status <$> sconns st' !! s) = Some SOCK_CONN_ACTIVE
     /\ txs st' = txs st
     /\ sep_idle_txs st' = sep_idle_txs st
     /\ sdev_queued st' = sdev_queued st
     /\ sdev_pending st' = sdev_pending st
     /\ ep_evts st' = ep_evts st
     /\ sep_ids st' = sep_ids st
     /\ prng st' = prng st)
  /\ (String.prefix "ip://" server_uri = true -> ai <> 0 ->
      sock_connect getaddrinfo ai (Some s) tx st server_uri port data_len
        attribute_ context flags_ = Fault).
Proof.
  intros Hg Hs Hr.
  destruct (lookup_lt_is_Some_2 (sconns st) s Hs) as [sc Hsc].
  split.
  - intros Hai.
    assert (Ha : sock_getaddrinfo_ai ai getaddrinfo server_uri
                 = Some (inl code)).
    { rewrite <- Hr. destruct Hai as [Hp | ->].
      - now apply sock_getaddrinfo_ai_other_scheme.
      - apply sock_getaddrinfo_ai_null. }
    unfold sock_connect. rewrite Hg. cbn [negb].
    cbn [sconns conns set_conns set_sconns].
    cbn [mbind option_bind]. rewrite (lookup_app_l_Some _ _ _ _ Hsc).
    cbn [fmap option_fmap option_map]. rewrite Ha.
    eexists. split; [reflexivity |].
    cbn [sconns conns txs sep_idle_txs sdev_queued sdev_pending ep_evts sep_ids
         prng set_conns set_sconns].
    rewrite take_app_length.
    rewrite take_insert_lt by exact Hs. rewrite take_app_length.
    split; [reflexivity |].
    split; [apply length_insert |].
    split; [intros q Hq; now apply list_lookup_insert_ne |].
    split; [now rewrite list_lookup_insert_eq |].
    repeat split.
  - intros Hp Hne.
    unfold sock_connect. rewrite Hg. cbn [negb].
    cbn [sconns conns set_conns set_sconns].
    cbn [mbind option_bind]. rewrite (lookup_app_l_Some _ _ _ _ Hsc).
    cbn [fmap option_fmap option_map].
    now rewrite (sock_getaddrinfo_ai_garbage ai _ _ code Hp Hr Hne).
Qed.

End SendConnect.

Lemma sock_sendv_unreliable_always_queues_witness :
  let st := sample_state (sample_connection CCI_CONN_ATTR_UU 0) sample_tx
              [] [] [] in
  exists ret e k,
    sock_sendto (kernel st) (errno st) 13 = (ret, e, k)
    /\ ret = 13
    /\ @sock_sendv sample_core_sock_h (Some 0%nat) st 0 0 [(true, 5)] 0 0
       = @sock_sendv_queue sample_core_sock_h (Some 0%nat)
           (set_errno e (set_kernel k
              (set_txs (<[0%nat := tx_set_len 13 sample_tx]> (txs st)) st)))
           0 (sample_connection CCI_CONN_ATTR_UU 0) 0 sock_conn_zero 0 5 0 0.
Proof.
  intros st.
  destruct (@sock_sendv_unreliable_always_queues sample_core_sock_h st 0
              sample_tx 0 (sample_connection CCI_CONN_ATTR_UU 0) 0
              sock_conn_zero 0 [(true, 5)] 5 0 0)
    as (ret & e & k & Es & _ & Hq);
    try reflexivity.
  - vm_compute. discriminate.
  - vm_compute. discriminate.
  - intros x Hx. cbn in Hx. now apply elem_of_nil in Hx.
  - exists ret, e, k. split; [exact Es |]. split; [| exact Hq].
    cbn in Es. now injection Es as <- _ _.
Defined.

Lemma sock_connect_resolver_error_witness :
  (exists st',
     @sock_connect sample_core_sock_h sample_getaddrinfo 0 (Some 0%nat) None
       fresh_state "ip://localhost:5555" 5555 0 CCI_CONN_ATTR_RU 0 0
     = Ret (foreign_code (-2)) st'
     /\ conns st' = conns fresh_state
     /\ sep_ids st' = sep_ids fresh_state)
  /\ @sock_connect sample_core_sock_h sample_getaddrinfo 140737488347136
       (Some 0%nat) None
       fresh_state "ip://localhost:5555" 5555 0 CCI_CONN_ATTR_RU 0 0
     = Fault.
Proof.
  split.
  - destruct (proj1 (@sock_connect_resolver_error sample_core_sock_h
                       sample_getaddrinfo 0 0 None fresh_state
                       "ip://localhost:5555" 5555 0 CCI_CONN_ATTR_RU 0 0
                       (foreign_code (-2)) eq_refl ltac:(cbn; lia) eq_refl)
                (or_intror eq_refl))
      as (st' & E & Hc & _ & _ & _ & _ & _ & _ & _ & _ & Hi & _).
    exists st'. auto.
  - apply (proj2 (@sock_connect_resolver_error sample_core_sock_h
                    sample_getaddrinfo 140737488347136 0 None fresh_state
                    "ip://localhost:5555" 5555 0 CCI_CONN_ATTR_RU 0 0
                    (foreign_code (-2)) eq_refl ltac:(cbn; lia) eq_refl));
      [reflexivity | discriminate].
Defined.

(** *** Start-up *)

Section Startup.
Context `{core_sock_h}.

(** X15.  The address of a sock device.  Of the arguments of a device's
    configuration only those that start with "ip=" count, and the last of
    them wins: the address is [inet_addr] of what follows its prefix; with
    no such argument the address stays what it was (0 in [sock_init], so
    the device is not listed). *)
Theorem parse_conf_argv_last_wins (inet_addr : string -> Z)
    (args : list string) (ip0 : Z) :
  parse_conf_argv inet_addr args ip0
  = match last_ip_arg args with
    | Some a => inet_addr a
    | None => ip0
    end
  /\ (last_ip_arg args = None
      <-> forall arg, arg ∈ args -> String.prefix "ip=" arg = false).
Proof.
  split.
  - revert ip0. induction args as [|arg args IH]; intros ip0;
      cbn [parse_conf_argv last_ip_arg]; [reflexivity |].
    rewrite IH. destruct (last_ip_arg args); [reflexivity |].
    destruct (String.prefix "ip=" arg); reflexivity.
  - induction args as [|arg args IH]; cbn [last_ip_arg].
    { split; [| reflexivity]. intros _ arg Hin. now apply elem_of_nil in Hin. }
    destruct (last_ip_arg args) as [a|].
    + split; [discriminate |]. intros Hall.
      apply IH. intros x Hx. apply Hall. now right.
    + destruct (String.prefix "ip=" arg) eqn:Ep.
      * split; [discriminate |]. intros Hall.
        rewrite Hall in Ep by left. discriminate.
      * split; [| reflexivity]. intros _ x Hx.
        apply elem_of_cons in Hx as [-> | Hx]; [exact Ep |].
        now apply (proj1 IH).
Qed.

Context `{core_sock_ep_h}.

(** X16.  A fresh endpoint.  When [sock_create_endpoint] succeeds, the
    endpoint has the timeout and buffer length of the header, an ID bitmap
    of [SOCK_NUM_BLOCKS] blocks in which no ID is taken, and no tx
    descriptor at all: its idle list is empty, so a send on a reliable
    connection of this endpoint (the local [tx] being NULL) fails with
    [CCI_ENOBUFS] and changes nothing. *)
Theorem fresh_endpoint_has_no_tx (sglobals_ : bool) (driver_ : string)
    (ep0 : cci__ep) (socket_ errno_ : Z) (ep : cci__ep) (st : sock_state) :
  sock_create_endpoint sglobals_ driver_ ep0 socket_ errno_
  = CreateRet CCI_SUCCESS (Some ep) ->
  state_of_endpoint ep st ->
  driver_ = "sock"
  /\ socket_ <> -1
  /\ ep_tx_timeout st = SOCK_EP_TX_TIMEOUT
  /\ ep_buffer_len st = SOCK_EP_BUF_LEN
  /\ length (sep_ids st) = SOCK_NUM_BLOCKS
  /\ (forall id, id_taken st id = false)
  /\ (forall connection conn p sconn header_len segs data_len context flags_,
        conns st !! connection = Some conn ->
        sum_segments segs 0 = Some data_len ->
        uint32 (header_len + data_len) <= max_send_size conn ->
        priv conn = Some p ->
        sconns st !! p = Some sconn ->
        is_reliable (attribute conn) = true ->
        sock_sendv None st connection header_len segs context flags_
        = Ret CCI_ENOBUFS st).
Proof.
  unfold sock_create_endpoint.
  destruct sglobals_; cbn [negb]; [| discriminate].
  destruct (bool_decide (driver_ = "sock")) eqn:Ed; cbn [negb]; [| discriminate].
  apply bool_decide_eq_true in Ed.
  destruct (socket_ =? -1) eqn:Es; [discriminate |].
  intros [= <-] (sep & Hp & Hg & Ht & Hb & Hi & Hids).
  cbn in Hp. injection Hp as <-. cbn in Ht, Hb, Hi, Hids.
  split; [exact Ed |]. split; [lia |]. split; [exact Ht |].
  split; [exact Hb |]. split; [rewrite Hids; apply length_replicate |].
  split.
  - intros id. unfold id_taken. rewrite Hids.
    destruct (replicate SOCK_NUM_BLOCKS 0 !! _) as [b|] eqn:El; [| reflexivity].
    apply lookup_replicate in El as [-> _]. apply Z.bits_0.
  - intros connection conn p sconn header_len segs data_len context flags_
      Hc Hsum Hm Hpr Hsc Hr.
    now apply (sock_sendv_null_tx_enobufs st connection conn p sconn
                 header_len segs data_len).
Qed.

End Startup.

Lemma parse_conf_argv_last_wins_witness :
  parse_conf_argv sample_inet_addr ["ip=10.0.0.1"; "mtu=1500"; "ip=10.0.0.2"] 0
  = 33554442.
Proof.
  rewrite (proj1 (parse_conf_argv_last_wins sample_inet_addr
                    ["ip=10.0.0.1"; "mtu=1500"; "ip=10.0.0.2"] 0)).
  reflexivity.
Defined.

Lemma fresh_endpoint_has_no_tx_witness :
  exists ep,
    @sock_create_endpoint sample_core_sock_ep_h true "sock" sample_ep0 3 0
    = CreateRet CCI_SUCCESS (Some ep)
    /\ state_of_endpoint ep fresh_state
    /\ @sock_sendv sample_core_sock_h None fresh_state 0 0 [(true, 5)] 0 0
       = Ret CCI_ENOBUFS fresh_state.
Proof.
  eexists. split; [reflexivity |].
  assert (Hs : state_of_endpoint
                 {| max_recv_buffer_count := 1024; max_hdr_size := 32;
                    rx_buf_cnt := 1024; tx_buf_cnt := 128; buffer_len := 8232;
                    tx_timeout_ := 64;
                    ep_priv :=
                      Some {| ids := [0; 0]; sock := 3;
                              conn_hash := [[]; []; []; []]; sep_txs := [];
                              idle_txs := []; rxs := []; idle_rxs := [] |} |}
                 fresh_state).
  { eexists. split; [reflexivity |]. repeat split. }
  split; [exact Hs |].
  destruct (@fresh_endpoint_has_no_tx sample_core_sock_h
              sample_core_sock_ep_h true "sock" sample_ep0 3 0 _ fresh_state
              eq_refl Hs) as (_ & _ & _ & _ & _ & _ & Hsend).
  apply (Hsend 0%nat (sample_connection CCI_CONN_ATTR_RU 0) 0%nat
           sock_conn_zero 0 [(true, 5)] 5 0 0); try reflexivity.
  vm_compute. discriminate.
Defined.

End SockMoreProps.

(* ===================================================================== *)
(** ** The send path with link fields and mutexes: properties *)
(* ===================================================================== *)

Module SockLinksProps.
Import Sock.
Import SockLinks.

(** *** A send with an idle descriptor at hand *)

(** A send on an RU connection of an endpoint with an idle tx, every mutex
    free, does not return: the queued pass writes the descriptor to the
    wire, marks it pending and then locks [sdev->lock], which it has held
    since its first statement.  The descriptor is still on the queued
    list, the pending list is empty, no event is queued. *)
Lemma reliable_send_blocks_on_sdev_lock :
  exists m',
    @SockLinks.sock_send sample_core_sock_h None 0 0 true 5 7 0 one_idle
    = Deadlock m'
    /\ m_held m' = [sdev_lock]
    /\ (state <$> m_txs m' !! 0%nat) = Some SOCK_TX_PENDING
    /\ tailq queued dentry m' = [0%nat]
    /\ tailq pending dentry m' = []
    /\ tailq evts entry m' = [].
Proof. eexists. split; [vm_compute; reflexivity |]. repeat split. Qed.

(** *** A send without an idle descriptor *)


(** C5, where the code departs from it.  No tx is idle and the one tx of
    the endpoint is in flight on the pending list.  If the local variable
    [tx] of [sock_sendv] happens to hold NULL the send fails with
    [CCI_ENOBUFS] and nothing changes.  If it holds the address of the tx
    in flight, the send does not fail: it takes that tx over, overwrites
    its event and links it on the queued list, the pending pass times it
    out and unlinks it, and the call returns [CCI_SUCCESS].
    [sock_connect] in the same state writes through its unassigned [sconn]
    before it looks for a tx: with NULL there it faults, with the address
    of the connection's private part it fails with [CCI_ENOBUFS] after
    changing that connection and leaving a new one allocated. *)
Theorem tx_allocation_reads_unset_locals :
  let m := in_flight 0 in
  let st := pending_state 0 0 in
  tailq idle_txs dentry m = []
  /\ tailq pending dentry m = [0%nat]
  /\ @SockLinks.sock_sendv sample_core_sock_h None 0 0 [(true, 5)] 7 0 m
     = Ok CCI_ENOBUFS m
  /\ (exists m',
        @SockLinks.sock_sendv sample_core_sock_h (Some 0%nat) 0 0
          [(true, 5)] 7 0 m
        = Ok CCI_SUCCESS m'
        /\ (evt_info <$> m_txs m !! 0%nat) = Some (info_send 0 0 CCI_SUCCESS)
        /\ (evt_info <$> m_txs m' !! 0%nat)
           = Some (info_send 0 7 CCI_ETIMEDOUT)
        /\ tailq queued dentry m' = []
        /\ tailq evts entry m' = [0%nat])
  /\ sep_idle_txs st = []
  /\ @Sock.sock_connect sample_core_sock_h sample_getaddrinfo 0 None None st
       "ip://localhost" 5555 0 CCI_CONN_ATTR_RU 0 0 = Fault
  /\ (exists st',
        @Sock.sock_connect sample_core_sock_h sample_getaddrinfo 0
          (Some 0%nat) None st
          "ip://localhost" 5555 0 CCI_CONN_ATTR_RU 0 0 = Ret CCI_ENOBUFS st'
        /\ (sconn_status <$> sconns st' !! 0%nat) = Some SOCK_CONN_ACTIVE
        /\ (sconn_status <$> sconns st !! 0%nat) = Some SOCK_CONN_CLOSED
        /\ length (conns st') = 2%nat
        /\ length (conns st) = 1%nat).
Proof.
  intros m st. split; [reflexivity |]. split; [reflexivity |].
  split; [vm_compute; reflexivity |].
  split; [| split; [reflexivity |]; split; [reflexivity |]].
  - eexists. split; [vm_compute; reflexivity |]. repeat split.
  - eexists. split; [vm_compute; reflexivity |]. repeat split.
Qed.

(** *** The same paths on every memory *)

Section Steps.
Context `{core_sock_h}.

(** *** One statement after another *)

Lemma bind_ok {A B : Type} (c : M A) (f : A -> M B) m v m1 :
  c m = Ok v m1 -> (c ≫= f) m = f v m1.
Proof. intros E. unfold mbind, M_bind. now rewrite E. Qed.

Lemma bind_deadlock {A B : Type} (c : M A) (f : A -> M B) m m1 :
  c m = Deadlock m1 -> (c ≫= f) m = Deadlock m1.
Proof. intros E. unfold mbind, M_bind. now rewrite E. Qed.

Lemma rd_tx_ok t m tx : m_txs m !! t = Some tx -> rd_tx t m = Ok tx m.
Proof. intros E. unfold rd_tx, get, mbind, M_bind. now rewrite E. Qed.

Lemma wr_tx_ok t v m tx :
  m_txs m !! t = Some tx ->
  wr_tx t v m = Ok tt (with_txs (<[t := v]> (m_txs m)) m).
Proof.
  intros E. unfold wr_tx. now rewrite (bind_ok _ _ _ _ _ (rd_tx_ok _ _ _ E)).
Qed.

Lemma rd_conn_ok c m conn :
  m_conns m !! c = Some conn -> rd_conn c m = Ok conn m.
Proof. intros E. unfold rd_conn, get, mbind, M_bind. now rewrite E. Qed.

Lemma rd_sconn_ok p m sconn :
  p ≫= (λ a, m_sconns m !! a) = Some sconn -> rd_sconn p m = Ok sconn m.
Proof.
  intros E. unfold rd_sconn, get. unfold mbind at 1. unfold M_bind.
  now rewrite E.
Qed.

Lemma rd_link_ok f t m e : links f m !! t = Some e -> rd_link f t m = Ok e m.
Proof. intros E. unfold rd_link, get, mbind, M_bind. now rewrite E. Qed.

Lemma rd_head_ok h m : rd_head h m = Ok (head_of h m) m.
Proof. reflexivity. Qed.

Lemma pthread_mutex_lock_free l m :
  l ∉ m_held m ->
  pthread_mutex_lock l m = Ok tt (with_held (l :: m_held m) m).
Proof. intros Hl. unfold pthread_mutex_lock. now rewrite bool_decide_false. Qed.

Lemma pthread_mutex_lock_held l m :
  l ∈ m_held m -> pthread_mutex_lock l m = Deadlock m.
Proof. intros Hl. unfold pthread_mutex_lock. now rewrite bool_decide_true. Qed.

Lemma unlock_after_lock (l : mutex) (held : list mutex) :
  l ∉ held ->
  List.filter (fun x => negb (bool_decide (x = l))) (l :: held) = held.
Proof.
  intros Hl. cbn. rewrite bool_decide_true by reflexivity. cbn [negb].
  induction held as [|x held IH]; [reflexivity |].
  apply not_elem_of_cons in Hl as [Hne Hl]. cbn.
  rewrite bool_decide_false by congruence. cbn [negb].
  now rewrite IH.
Qed.

(** the datagram of a queued descriptor is taken by the kernel *)
Lemma sock_send_again_call_sent m k len_ :
  m_kernel m = sys_sent :: k -> 0 < len_ ->
  sock_send_again_call len_ m = Ok len_ (with_kernel k (m_errno m) m).
Proof.
  intros Hk Hl. unfold sock_send_again_call, get.
  unfold mbind at 1. unfold M_bind at 1.
  rewrite Hk. cbn [length sock_send_again sock_sendto].
  replace (len_ =? 0) with false by lia.
  replace (len_ =? -1) with false by lia.
  rewrite Z.sub_diag. cbn [Z.eqb]. reflexivity.
Qed.

(** *** The queued pass on a reliable connection *)

Lemma sock_progress_queued_tx_blocks (m : mem) (t : nat) (tx : sock_tx)
    (connection : nat) (conn : cci_conn) (sconn : sock_conn)
    (k : list sysres) :
  sdev_lock ∈ m_held m ->
  m_txs m !! t = Some tx ->
  queued_connection tx = Some connection ->
  m_conns m !! connection = Some conn ->
  priv conn ≫= (λ p, m_sconns m !! p) = Some sconn ->
  is_reliable (attribute conn) = true ->
  (cycles tx + 1) mod SOCK_PROG_FREQ = 0 ->
  (resends tx + 1) * SOCK_RESEND_TIME
  < (if negb (tx_timeout conn =? 0) then tx_timeout conn else m_tx_timeout m) ->
  0 < len tx ->
  m_kernel m = sys_sent :: k ->
  sock_progress_queued_tx t m
  = Deadlock
      (with_txs
         (<[t := tx_set_state SOCK_TX_PENDING
                   (tx_set_resends (resends tx + 1)
                      (tx_set_cycles (cycles tx + 1) tx))]> (m_txs m))
         (with_kernel k (m_errno m) m)).
Proof.
  intros Hl Ht Hc Hconn Hs Hr Hcy Hto Hlen Hk.
  assert (Hlt : (t < length (m_txs m))%nat) by (now apply lookup_lt_Some in Ht).
  unfold sock_progress_queued_tx.
  rewrite (bind_ok _ _ _ _ _ (rd_tx_ok _ _ _ Ht)). rewrite Hc.
  cbn [deref]. rewrite (bind_ok (mret connection) _ m connection m eq_refl).
  rewrite (bind_ok _ _ _ _ _ (rd_conn_ok _ _ _ Hconn)).
  rewrite (bind_ok _ _ _ _ _ (wr_tx_ok _ _ _ _ Ht)).
  cbn [cycles tx_set_cycles]. rewrite Hcy. cbn [Z.eqb negb].
  set (tx1 := tx_set_cycles (cycles tx + 1) tx).
  set (m1 := with_txs (<[t := tx1]> (m_txs m)) m).
  assert (Ht1 : m_txs m1 !! t = Some tx1) by (now apply list_lookup_insert_eq).
  rewrite (bind_ok _ _ _ _ _ (wr_tx_ok _ _ _ _ Ht1)).
  set (tx2 := tx_set_resends (resends tx1 + 1) tx1).
  set (m2 := with_txs (<[t := tx2]> (m_txs m1)) m1).
  assert (Ht2 : m_txs m2 !! t = Some tx2).
  { apply list_lookup_insert_eq. cbn. now rewrite length_insert. }
  rewrite (bind_ok get _ m2 m2 m2 eq_refl).
  cbn [resends tx2 tx_set_resends tx1 tx_set_cycles m_tx_timeout m2 m1 with_txs].
  replace ((resends tx + 1) * SOCK_RESEND_TIME >=?
           (if negb (tx_timeout conn =? 0) then tx_timeout conn
            else m_tx_timeout m)) with false by lia.
  rewrite (bind_ok (mret Continue) _ m2 Continue m2 eq_refl).
  unfold sock_progress_queued_send.
  rewrite (bind_ok _ _ _ _ _ (rd_tx_ok _ _ _ Ht2)).
  assert (Hs2 : priv conn ≫= (λ p, m_sconns m2 !! p) = Some sconn)
    by exact Hs.
  rewrite (bind_ok _ _ _ _ _ (rd_sconn_ok _ _ _ Hs2)).
  assert (Hk2 : m_kernel m2 = sys_sent :: k) by exact Hk.
  rewrite (bind_ok _ _ _ _ _ (sock_send_again_call_sent _ _ _ Hk2 Hlen)).
  set (m3 := with_kernel k (m_errno m2) m2).
  rewrite (bind_ok get _ m3 m3 m3 eq_refl).
  rewrite Hr.
  replace (len tx =? -1) with false by lia. cbn [andb].
  assert (Ht3 : m_txs m3 !! t = Some tx2) by exact Ht2.
  rewrite (bind_ok _ _ _ _ _ (wr_tx_ok _ _ _ _ Ht3)).
  rewrite (bind_deadlock _ _ _ _
             (pthread_mutex_lock_held sdev_lock
                (with_txs (<[t := tx_set_state SOCK_TX_PENDING tx2]> (m_txs m3))
                   m3) Hl)).
  f_equal. unfold with_txs, with_kernel, m3, m2, m1; cbn.
  now rewrite !list_insert_insert_eq.
Qed.


(** X21.  A queued send on a reliable connection blocks the caller.  The
    queued pass is entered with [sdev->lock] free and takes it.  The first
    descriptor on the queued list is due in this cycle, has not reached its
    timeout, and belongs to a connection that passes the transport's
    reliability test; the kernel takes its datagram.  The pass marks the
    descriptor pending and then locks [sdev->lock] again in order to put
    it on the pending list: it blocks there for good.  The descriptor has
    one more cycle and one more resend, it is not on the pending list, the
    queued list still holds it, and [sdev->lock] stays locked. *)
Theorem queued_pass_blocks_on_its_own_lock (m : mem) (t : nat) (tx : sock_tx)
    (e : tailq_entry) (connection : nat) (conn : cci_conn)
    (sconn : sock_conn) (k : list sysres) :
  sdev_lock ∉ m_held m ->
  tqh_first (m_queued m) = Some t ->
  m_dentry m !! t = Some e ->
  m_txs m !! t = Some tx ->
  queued_connection tx = Some connection ->
  m_conns m !! connection = Some conn ->
  priv conn ≫= (λ p, m_sconns m !! p) = Some sconn ->
  is_reliable (attribute conn) = true ->
  (cycles tx + 1) mod SOCK_PROG_FREQ = 0 ->
  (resends tx + 1) * SOCK_RESEND_TIME
  < (if negb (tx_timeout conn =? 0) then tx_timeout conn else m_tx_timeout m) ->
  0 < len tx ->
  m_kernel m = sys_sent :: k ->
  exists m',
    sock_progress_queued m = Deadlock m'
    /\ m_held m' = sdev_lock :: m_held m
    /\ m_txs m'
       = <[t := tx_set_state SOCK_TX_PENDING
                  (tx_set_resends (resends tx + 1)
                     (tx_set_cycles (cycles tx + 1) tx))]> (m_txs m)
    /\ m_kernel m' = k
    /\ m_queued m' = m_queued m
    /\ m_pending m' = m_pending m
    /\ m_dentry m' = m_dentry m
    /\ m_evts m' = m_evts m
    /\ m_entry m' = m_entry m.
Proof.
  intros Hl Hq He Ht Hc Hconn Hs Hr Hcy Hto Hlen Hk.
  assert (Hlt : (t < length (m_txs m))%nat) by (now apply lookup_lt_Some in Ht).
  eexists. split.
  - unfold sock_progress_queued.
    rewrite (bind_ok _ _ _ _ _ (pthread_mutex_lock_free _ _ Hl)).
    set (m0 := with_held (sdev_lock :: m_held m) m).
    apply bind_deadlock. unfold TAILQ_FOREACH_SAFE.
    rewrite (bind_ok get _ m0 m0 m0 eq_refl).
    change (head_of queued m0) with (m_queued m). rewrite Hq.
    change (m_txs m0) with (m_txs m).
    destruct (length (m_txs m)) as [|n]; [lia |].
    cbn [foreach_from].
    assert (He0 : links dentry m0 !! t = Some e) by exact He.
    rewrite (bind_ok _ _ _ _ _ (rd_link_ok _ _ _ _ He0)).
    apply bind_deadlock.
    apply (sock_progress_queued_tx_blocks m0 t tx connection conn sconn k);
      try assumption.
    cbn. left.
  - cbn. repeat split.
Qed.

(** *** A send that finds no descriptor *)

(** X14.  A send that finds no descriptor.  The call passes the argument
    checks on a reliable connection, the idle list is empty and the local
    [tx] holds NULL.  If [sep->lock] is free the call fails with
    [CCI_ENOBUFS] and leaves every list, link field, descriptor, mutex and
    connection as it was; if [sep->lock] is held it blocks on it with
    nothing changed. *)
Theorem sock_sendv_without_tx (m : mem) (connection : nat) (conn : cci_conn)
    (header_len : Z) (segs : list (bool * Z))
    (data_len context flags_ : Z) :
  m_sglobals m = true ->
  sum_segments segs 0 = Some data_len ->
  m_conns m !! connection = Some conn ->
  uint32 (header_len + data_len) <= max_send_size conn ->
  is_reliable (attribute conn) = true ->
  tqh_first (m_idle_txs m) = None ->
  sock_sendv None connection header_len segs context flags_ m
  = if bool_decide (sep_lock ∈ m_held m) then Deadlock m
    else Ok CCI_ENOBUFS m.
Proof.
  intros Hg Hsum Hconn Hmax Hr Hidle.
  unfold sock_sendv.
  rewrite (bind_ok get _ m m m eq_refl). rewrite Hg, Hsum. cbn [negb].
  rewrite (bind_ok _ _ _ _ _ (rd_conn_ok _ _ _ Hconn)).
  replace (uint32 (header_len + data_len) >? max_send_size conn) with false
    by lia.
  rewrite Hr. rewrite (bind_ok (mret false) _ m false m eq_refl).
  unfold sock_sendv_queue.
  destruct (bool_decide (sep_lock ∈ m_held m)) eqn:El.
  - apply bool_decide_eq_true in El.
    now rewrite (bind_deadlock _ _ _ _ (pthread_mutex_lock_held _ _ El)).
  - apply bool_decide_eq_false in El.
    rewrite (bind_ok _ _ _ _ _ (pthread_mutex_lock_free _ _ El)).
    set (m0 := with_held (sep_lock :: m_held m) m).
    rewrite (bind_ok _ _ _ _ _ (rd_head_ok idle_txs m0)).
    change (head_of idle_txs m0) with (m_idle_txs m). rewrite Hidle.
    rewrite (bind_ok (mret None) _ m0 None m0 eq_refl).
    assert (Hu : pthread_mutex_unlock sep_lock m0 = Ok tt m).
    { unfold pthread_mutex_unlock. cbn [m_held m0 with_held].
      rewrite bool_decide_true by left.
      rewrite unlock_after_lock by exact El.
      f_equal. now destruct m. }
    now rewrite (bind_ok _ _ _ _ _ Hu).
Qed.


(** *** An event queued twice *)

Lemma wr_next_ok f t v m e :
  links f m !! t = Some e ->
  wr_next f t v m
  = Ok tt (with_links f (<[t := {| tqe_next := v; tqe_prev := tqe_prev e |}]>
                           (links f m)) m).
Proof.
  intros E. unfold wr_next.
  now rewrite (bind_ok _ _ _ _ _ (rd_link_ok _ _ _ _ E)).
Qed.

Lemma wr_prev_ok f t v m e :
  links f m !! t = Some e ->
  wr_prev f t v m
  = Ok tt (with_links f (<[t := {| tqe_next := tqe_next e; tqe_prev := v |}]>
                           (links f m)) m).
Proof.
  intros E. unfold wr_prev.
  now rewrite (bind_ok _ _ _ _ _ (rd_link_ok _ _ _ _ E)).
Qed.

Lemma wr_last_ok h v m :
  wr_last h v m
  = Ok tt (with_head h {| tqh_first := tqh_first (head_of h m);
                          tqh_last := v |} m).
Proof. reflexivity. Qed.

Lemma tailq_head_eta (hd : tailq_head) :
  {| tqh_first := tqh_first hd; tqh_last := tqh_last hd |} = hd.
Proof. now destruct hd. Qed.

Lemma with_head_same h m : with_head h (head_of h m) m = m.
Proof. now destruct m, h. Qed.

Lemma links_with_links f v m : links f (with_links f v m) = v.
Proof. now destruct f. Qed.

Lemma store_valid p v m :
  valid p m ->
  exists m',
    store p v m = Ok tt m'
    /\ same_objects m m'
    /\ (forall f, length (links f m') = length (links f m))
    /\ (forall h, tqh_last (head_of h m') = tqh_last (head_of h m)).
Proof.
  destruct p as [h | f t]; cbn [valid store].
  - intros _. eexists. split; [reflexivity |].
    split; [unfold same_objects; cbn; auto 10 |].
    split; [intros []; reflexivity |].
    intros h'. destruct h, h'; reflexivity.
  - intros Ht. destruct (lookup_lt_is_Some_2 _ _ Ht) as [e He].
    rewrite (wr_next_ok _ _ _ _ _ He). eexists. split; [reflexivity |].
    split; [unfold same_objects; cbn; auto 10 |].
    split.
    + intros f'. destruct f, f'; cbn; rewrite ?length_insert; reflexivity.
    + intros h. destruct h; reflexivity.
Qed.

(** The first insertion at the tail of a list. *)
Lemma TAILQ_INSERT_TAIL_ok h elm f m :
  (elm < length (links f m))%nat ->
  valid (tqh_last (head_of h m)) m ->
  exists m',
    TAILQ_INSERT_TAIL h elm f m = Ok tt m'
    /\ same_objects m m'
    /\ (forall f', length (links f' m') = length (links f' m))
    /\ tqh_last (head_of h m') = tqe_next_of f elm.
Proof.
  intros Hlt Hv. destruct (lookup_lt_is_Some_2 _ _ Hlt) as [e He].
  unfold TAILQ_INSERT_TAIL.
  rewrite (bind_ok _ _ _ _ _ (wr_next_ok _ _ _ _ _ He)).
  set (m1 := with_links f _ m).
  rewrite (bind_ok _ _ _ _ _ (rd_head_ok h m1)).
  assert (Hh1 : head_of h m1 = head_of h m) by (now destruct h).
  rewrite Hh1.
  assert (He1 : links f m1 !! elm
                = Some {| tqe_next := None; tqe_prev := tqe_prev e |}).
  { unfold m1. rewrite links_with_links. now apply list_lookup_insert_eq. }
  rewrite (bind_ok _ _ _ _ _ (wr_prev_ok _ _ _ _ _ He1)).
  set (m2 := with_links f _ m1).
  assert (Hlen2 : forall f', length (links f' m2) = length (links f' m)).
  { intros f'. unfold m2, m1. destruct f, f'; cbn;
      rewrite ?length_insert; reflexivity. }
  assert (Hv2 : valid (tqh_last (head_of h m)) m2).
  { destruct (tqh_last (head_of h m)) as [h' | f' t']; cbn [valid] in *;
      [exact I | now rewrite Hlen2]. }
  destruct (store_valid _ (Some elm) _ Hv2) as (m3 & Es & Hobj & Hlen3 & Hlast).
  rewrite (bind_ok _ _ _ _ _ Es).
  eexists. split; [reflexivity |]. split.
  { destruct Hobj as (A1 & A2 & A3 & A4 & A5 & A6 & A7 & A8 & A9).
    unfold same_objects. cbn.
    rewrite A1, A2, A3, A4, A5, A6, A7, A8, A9. unfold m2, m1.
    destruct f, h; cbn; auto 10. }
  split.
  { intros f'. rewrite <- Hlen2, <- Hlen3. destruct f', h; reflexivity. }
  destruct h; reflexivity.
Qed.

(** A second insertion of the element that is the last of the list
    already: the element ends up as its own successor. *)
Lemma TAILQ_INSERT_TAIL_again h elm f m :
  (elm < length (links f m))%nat ->
  tqh_last (head_of h m) = tqe_next_of f elm ->
  TAILQ_INSERT_TAIL h elm f m
  = Ok tt (with_links f
             (<[elm := {| tqe_next := Some elm;
                          tqe_prev := Some (tqe_next_of f elm) |}]>
                (links f m)) m).
Proof.
  intros Hlt Hlast. destruct (lookup_lt_is_Some_2 _ _ Hlt) as [e He].
  unfold TAILQ_INSERT_TAIL.
  rewrite (bind_ok _ _ _ _ _ (wr_next_ok _ _ _ _ _ He)).
  set (m1 := with_links f _ m).
  rewrite (bind_ok _ _ _ _ _ (rd_head_ok h m1)).
  assert (Hh1 : head_of h m1 = head_of h m) by (now destruct h).
  rewrite Hh1, Hlast.
  assert (He1 : links f m1 !! elm
                = Some {| tqe_next := None; tqe_prev := tqe_prev e |}).
  { unfold m1. rewrite links_with_links. now apply list_lookup_insert_eq. }
  rewrite (bind_ok _ _ _ _ _ (wr_prev_ok _ _ _ _ _ He1)).
  set (m2 := with_links f _ m1).
  cbn [store].
  assert (He2 : links f m2 !! elm
                = Some {| tqe_next := None;
                          tqe_prev := Some (tqe_next_of f elm) |}).
  { unfold m2. rewrite links_with_links. apply list_lookup_insert_eq.
    unfold m1. rewrite links_with_links. now rewrite length_insert. }
  rewrite (bind_ok _ _ _ _ _ (wr_next_ok _ _ _ _ _ He2)).
  set (m3 := with_links f _ m2).
  rewrite wr_last_ok. f_equal.
  assert (Hh3 : head_of h m3 = head_of h m) by (now destruct h, f).
  assert (Hhd : {| tqh_first := tqh_first (head_of h m3);
                   tqh_last := tqe_next_of f elm |} = head_of h m3).
  { rewrite Hh3, <- Hlast. apply tailq_head_eta. }
  rewrite Hhd, with_head_same.
  unfold m3, m2, m1. rewrite !links_with_links, !list_insert_insert_eq.
  now destruct m, f.
Qed.


Lemma pthread_mutex_unlock_held l m :
  l ∈ m_held m ->
  pthread_mutex_unlock l m
  = Ok tt (with_held (List.filter (fun x => negb (bool_decide (x = l)))
                        (m_held m)) m).
Proof. intros Hl. unfold pthread_mutex_unlock. now rewrite bool_decide_true. Qed.

(** [lock; insert at the tail; unlock] on a mutex that is free *)
Lemma locked_insert_tail l h elm f m :
  l ∉ m_held m ->
  (elm < length (links f m))%nat ->
  valid (tqh_last (head_of h m)) m ->
  exists m',
    (pthread_mutex_lock l;; TAILQ_INSERT_TAIL h elm f;;
     pthread_mutex_unlock l;; mret Continue) m = Ok Continue m'
    /\ same_objects m m'
    /\ (forall f', length (links f' m') = length (links f' m))
    /\ tqh_last (head_of h m') = tqe_next_of f elm.
Proof.
  intros Hl Hlt Hv.
  rewrite (bind_ok _ _ _ _ _ (pthread_mutex_lock_free _ _ Hl)).
  set (m0 := with_held (l :: m_held m) m).
  assert (Hlt0 : (elm < length (links f m0))%nat) by (now destruct f).
  assert (Hv0 : valid (tqh_last (head_of h m0)) m0).
  { assert (E : head_of h m0 = head_of h m) by (now destruct h).
    rewrite E. destruct (tqh_last (head_of h m)) as [|f' t']; [exact I |].
    cbn [valid] in *. now destruct f'. }
  destruct (TAILQ_INSERT_TAIL_ok h elm f m0 Hlt0 Hv0)
    as (m1 & E1 & Hobj & Hlen & Hlast).
  rewrite (bind_ok _ _ _ _ _ E1).
  destruct Hobj as (A1 & A2 & A3 & A4 & A5 & A6 & A7 & A8 & A9).
  assert (Hl1 : l ∈ m_held m1) by (rewrite A7; left).
  rewrite (bind_ok _ _ _ _ _ (pthread_mutex_unlock_held _ _ Hl1)).
  eexists. split; [reflexivity |].
  split.
  { unfold same_objects. cbn. rewrite A1, A2, A3, A4, A5, A6, A7, A8, A9.
    cbn [m0 m_held with_held]. rewrite unlock_after_lock by exact Hl.
    auto 10. }
  split.
  { intros f'. transitivity (length (links f' m1)); [now destruct f' |].
    rewrite Hlen. now destruct f'. }
  rewrite <- Hlast. now destruct h.
Qed.

(** the same when the element is the last of the list already *)
Lemma locked_insert_tail_again l h elm f m :
  l ∉ m_held m ->
  (elm < length (links f m))%nat ->
  tqh_last (head_of h m) = tqe_next_of f elm ->
  (pthread_mutex_lock l;; TAILQ_INSERT_TAIL h elm f;;
   pthread_mutex_unlock l;; mret Continue) m
  = Ok Continue
      (with_links f
         (<[elm := {| tqe_next := Some elm;
                      tqe_prev := Some (tqe_next_of f elm) |}]>
            (links f m)) m).
Proof.
  intros Hl Hlt Hlast.
  rewrite (bind_ok _ _ _ _ _ (pthread_mutex_lock_free _ _ Hl)).
  set (m0 := with_held (l :: m_held m) m).
  assert (Hlt0 : (elm < length (links f m0))%nat) by (now destruct f).
  assert (Hlast0 : tqh_last (head_of h m0) = tqe_next_of f elm).
  { rewrite <- Hlast. now destruct h. }
  rewrite (bind_ok _ _ _ _ _ (TAILQ_INSERT_TAIL_again h elm f m0 Hlt0 Hlast0)).
  set (m1 := with_links f _ m0).
  assert (Hl1 : l ∈ m_held m1) by (destruct f; left).
  rewrite (bind_ok _ _ _ _ _ (pthread_mutex_unlock_held _ _ Hl1)).
  cbn [mret M_ret]. f_equal.
  assert (Hh : m_held m1 = l :: m_held m) by (now destruct f).
  rewrite Hh, unlock_after_lock by exact Hl.
  unfold m1, m0. now destruct m, f.
Qed.

Lemma walk_self_loop (l : list tailq_entry) (t : nat) (p : option ptr)
    (fuel : nat) :
  l !! t = Some {| tqe_next := Some t; tqe_prev := p |} ->
  walk fuel l (Some t) = replicate fuel t.
Proof.
  intros Hl. induction fuel as [|fuel IH]; [reflexivity |].
  cbn [walk replicate]. rewrite Hl. cbn [tqe_next]. now rewrite IH.
Qed.

(** The expiry block for a send that is not SILENT. *)
Lemma sock_progress_queued_expire_send (m : mem) (t : nat) (tx : sock_tx)
    (connection : nat) (context : Z) (status : cci_status) :
  ep_lock ∉ m_held m ->
  m_txs m !! t = Some tx ->
  (t < length (m_entry m))%nat ->
  valid (tqh_last (m_evts m)) m ->
  msg_type tx = SOCK_MSG_SEND ->
  evt_info tx = info_send connection context status ->
  Z.land (flags tx) CCI_FLAG_SILENT = 0 ->
  exists m',
    sock_progress_queued_expire t m = Ok Continue m'
    /\ same_objects
         (with_txs
            (<[t := tx_set_state SOCK_TX_COMPLETED
                      (tx_set_evt_info
                         (info_send connection context CCI_ETIMEDOUT) tx)]>
               (m_txs m)) m) m'
    /\ (forall f, length (links f m') = length (links f m))
    /\ tqh_last (m_evts m') = tqe_next_of entry t.
Proof.
  intros Hl Ht Hlt Hv Hm Hi Hsil.
  assert (Hlt' : (t < length (m_txs m))%nat) by (now apply lookup_lt_Some in Ht).
  set (tx3 := tx_set_evt_info (info_send connection context CCI_ETIMEDOUT) tx).
  set (m3 := with_txs (<[t := tx3]> (m_txs m)) m).
  assert (Ht3 : m_txs m3 !! t = Some tx3) by (now apply list_lookup_insert_eq).
  set (tx4 := tx_set_state SOCK_TX_COMPLETED tx3).
  set (m4 := with_txs (<[t := tx4]> (m_txs m3)) m3).
  assert (Hl4 : ep_lock ∉ m_held m4) by exact Hl.
  assert (Hlt4 : (t < length (links entry m4))%nat) by exact Hlt.
  assert (Hv4 : valid (tqh_last (head_of evts m4)) m4).
  { change (head_of evts m4) with (m_evts m).
    destruct (tqh_last (m_evts m)) as [|f' t']; [exact I |].
    cbn [valid] in *. now destruct f'. }
  destruct (locked_insert_tail ep_lock evts t entry m4 Hl4 Hlt4 Hv4)
    as (m5 & E5 & Hobj & Hlen5 & Hlast5).
  exists m5. split.
  - unfold sock_progress_queued_expire.
    rewrite (bind_ok _ _ _ _ _ (rd_tx_ok _ _ _ Ht)).
    rewrite Hm, Hi. cbn [set_send_status deref].
    assert (E3 : (mret (info_send connection context CCI_ETIMEDOUT)
                  ≫= λ i, wr_tx t (tx_set_evt_info i tx) ≫= λ _, mret Continue)
                   m = Ok Continue m3).
    { rewrite (bind_ok (mret (info_send connection context CCI_ETIMEDOUT)) _
                 m _ m eq_refl).
      now rewrite (bind_ok _ _ _ _ _ (wr_tx_ok _ _ _ _ Ht)). }
    rewrite (bind_ok _ _ _ _ _ E3).
    rewrite (bind_ok _ _ _ _ _ (rd_tx_ok _ _ _ Ht3)).
    replace (flags tx3) with (flags tx) by reflexivity. rewrite Hsil.
    cbn [Z.eqb negb]. rewrite andb_false_r.
    rewrite (bind_ok _ _ _ _ _ (wr_tx_ok _ _ _ _ Ht3)).
    exact E5.
  - split.
    { destruct Hobj as (A1 & A2 & A3 & A4 & A5 & A6 & A7 & A8 & A9).
      unfold same_objects. rewrite A1, A2, A3, A4, A5, A6, A7, A8, A9.
      cbn. rewrite list_insert_insert_eq. auto 10. }
    split; [exact Hlen5 | exact Hlast5].
Qed.

(** X22.  A queued send that times out on an unreliable connection is
    still sent, and its event is queued twice.  The descriptor of a send
    that is not SILENT has reached its timeout when the queued pass visits
    it; [ep->lock] is free and the event queue's tail pointer is valid.
    The expiry block completes it with [CCI_ETIMEDOUT] and appends its
    event to [ep->evts]; having no [continue], the pass then writes the
    message to the wire and appends the same event a second time.  The
    second [TAILQ_INSERT_TAIL] makes the event its own successor: from this
    event on a walk along [ep->evts] never reaches the end of the
    queue. *)
Theorem timed_out_event_is_queued_twice (m : mem) (t : nat) (tx : sock_tx)
    (connection : nat) (context : Z) (status : cci_status)
    (conn : cci_conn) (sconn : sock_conn) (k : list sysres) :
  ep_lock ∉ m_held m ->
  m_txs m !! t = Some tx ->
  (t < length (m_entry m))%nat ->
  valid (tqh_last (m_evts m)) m ->
  msg_type tx = SOCK_MSG_SEND ->
  evt_type tx = CCI_EVENT_SEND ->
  evt_info tx = info_send connection context status ->
  Z.land (flags tx) CCI_FLAG_SILENT = 0 ->
  m_conns m !! connection = Some conn ->
  priv conn ≫= (λ p, m_sconns m !! p) = Some sconn ->
  is_reliable (attribute conn) = false ->
  (cycles tx + 1) mod SOCK_PROG_FREQ = 0 ->
  (resends tx + 1) * SOCK_RESEND_TIME
  >= (if negb (tx_timeout conn =? 0) then tx_timeout conn else m_tx_timeout m) ->
  0 < len tx ->
  m_kernel m = sys_sent :: k ->
  exists m' tx',
    sock_progress_queued_tx t m = Ok Continue m'
    /\ m_txs m' !! t = Some tx'
    /\ state tx' = SOCK_TX_COMPLETED
    /\ evt_info tx' = info_send connection context CCI_ETIMEDOUT
    /\ resends tx' = resends tx + 1
    /\ m_kernel m' = k
    /\ m_held m' = m_held m
    /\ tqh_last (m_evts m') = tqe_next_of entry t
    /\ m_entry m' !! t
       = Some {| tqe_next := Some t; tqe_prev := Some (tqe_next_of entry t) |}
    /\ forall fuel, walk fuel (m_entry m') (Some t) = replicate fuel t.
Proof.
  intros Hl Ht Hlt Hv Hm Hty Hi Hsil Hconn Hs Hr Hcy Hto Hlen Hk.
  assert (Hc : queued_connection tx = Some connection).
  { unfold queued_connection. now rewrite Hty, Hi. }
  assert (Hlt' : (t < length (m_txs m))%nat) by (now apply lookup_lt_Some in Ht).
  set (tx1 := tx_set_cycles (cycles tx + 1) tx).
  set (m1 := with_txs (<[t := tx1]> (m_txs m)) m).
  assert (Ht1 : m_txs m1 !! t = Some tx1) by (now apply list_lookup_insert_eq).
  set (tx2 := tx_set_resends (resends tx1 + 1) tx1).
  set (m2 := with_txs (<[t := tx2]> (m_txs m1)) m1).
  assert (Ht2 : m_txs m2 !! t = Some tx2).
  { apply list_lookup_insert_eq. cbn. now rewrite length_insert. }
  destruct (sock_progress_queued_expire_send m2 t tx2 connection context status)
    as (m5 & E5 & Hobj & Hlen5 & Hlast5); try assumption.
  destruct Hobj as (A1 & A2 & A3 & A4 & A5 & A6 & A7 & A8 & A9).
  cbn [m_sglobals m_txs m_conns m_sconns m_tx_timeout m_buffer_len m_held
       m_kernel m_errno with_txs m2 m1] in A1, A2, A3, A4, A5, A6, A7, A8, A9.
  rewrite !list_insert_insert_eq in A2.
  set (tx4 := tx_set_state SOCK_TX_COMPLETED
                (tx_set_evt_info (info_send connection context CCI_ETIMEDOUT)
                   tx2)) in *.
  assert (Ht5 : m_txs m5 !! t = Some tx4).
  { rewrite A2. now apply list_lookup_insert_eq. }
  assert (Hs5 : priv conn ≫= (λ p, m_sconns m5 !! p) = Some sconn)
    by (now rewrite A4).
  assert (Hk5 : m_kernel m5 = sys_sent :: k) by (now rewrite A8).
  set (m6 := with_kernel k (m_errno m5) m5).
  set (m7 := with_txs (<[t := tx_set_state SOCK_TX_COMPLETED tx4]> (m_txs m6)) m6).
  assert (Hl7 : ep_lock ∉ m_held m7) by (cbn; now rewrite A7).
  assert (Hlt7 : (t < length (links entry m7))%nat).
  { change (links entry m7) with (links entry m5). now rewrite Hlen5. }
  assert (Hlast7 : tqh_last (head_of evts m7) = tqe_next_of entry t)
    by exact Hlast5.
  eexists _, (tx_set_state SOCK_TX_COMPLETED tx4). split.
  - unfold sock_progress_queued_tx.
    rewrite (bind_ok _ _ _ _ _ (rd_tx_ok _ _ _ Ht)). rewrite Hc.
    cbn [deref]. rewrite (bind_ok (mret connection) _ m connection m eq_refl).
    rewrite (bind_ok _ _ _ _ _ (rd_conn_ok _ _ _ Hconn)).
    rewrite (bind_ok _ _ _ _ _ (wr_tx_ok _ _ _ _ Ht)).
    cbn [cycles tx_set_cycles]. rewrite Hcy. cbn [Z.eqb negb].
    rewrite (bind_ok _ _ _ _ _ (wr_tx_ok _ _ _ _ Ht1)).
    rewrite (bind_ok get _ m2 m2 m2 eq_refl).
    cbn [resends tx_set_resends tx1 tx_set_cycles m_tx_timeout m2 m1 with_txs].
    replace ((resends tx + 1) * SOCK_RESEND_TIME >=?
             (if negb (tx_timeout conn =? 0) then tx_timeout conn
              else m_tx_timeout m)) with true by lia.
    rewrite (bind_ok _ _ _ _ _ E5).
    unfold sock_progress_queued_send.
    rewrite (bind_ok _ _ _ _ _ (rd_tx_ok _ _ _ Ht5)).
    rewrite (bind_ok _ _ _ _ _ (rd_sconn_ok _ _ _ Hs5)).
    assert (Hlen4 : 0 < len tx4) by exact Hlen.
    rewrite (bind_ok _ _ _ _ _ (sock_send_again_call_sent _ _ _ Hk5 Hlen4)).
    rewrite (bind_ok get _ m6 m6 m6 eq_refl).
    replace (len tx4 =? -1) with false by lia. cbn [andb].
    rewrite Hr.
    assert (Ht6 : m_txs m6 !! t = Some tx4) by exact Ht5.
    rewrite (bind_ok _ _ _ _ _ (wr_tx_ok _ _ _ _ Ht6)).
    apply (locked_insert_tail_again ep_lock evts t entry m7 Hl7 Hlt7 Hlast7).
  - cbn [m_txs m_kernel m_held m_evts m_entry with_links with_txs with_kernel
         m7 m6 links].
    split.
    { apply list_lookup_insert_eq. rewrite A2, length_insert. exact Hlt'. }
    split; [reflexivity |]. split; [reflexivity |]. split; [reflexivity |].
    split; [reflexivity |]. split; [exact A7 |]. split; [exact Hlast5 |].
    assert (He : <[t := {| tqe_next := Some t;
                           tqe_prev := Some (tqe_next_of entry t) |}]>
                   (m_entry m5) !! t
                 = Some {| tqe_next := Some t;
                           tqe_prev := Some (tqe_next_of entry t) |}).
    { apply list_lookup_insert_eq.
      change (m_entry m5) with (links entry m5). now rewrite Hlen5. }
    split; [exact He |].
    intros fuel. now apply (walk_self_loop _ _ _ _ He).
Qed.

End Steps.

Lemma queued_pass_blocks_on_its_own_lock_witness :
  let m := queued_one CCI_CONN_ATTR_RU 0 in
  exists m',
    @SockLinks.sock_progress_queued sample_core_sock_h m = Deadlock m'
    /\ m_held m' = [sdev_lock]
    /\ (state <$> m_txs m' !! 0%nat) = Some SOCK_TX_PENDING
    /\ tailq queued dentry m' = [0%nat]
    /\ tailq pending dentry m' = [].
Proof.
  intros m.
  destruct (@queued_pass_blocks_on_its_own_lock sample_core_sock_h m 0
              (sample_send_tx SOCK_TX_QUEUED 0)
              {| tqe_next := None; tqe_prev := Some (tqh_first_of queued) |}
              0 (sample_connection CCI_CONN_ATTR_RU 0) sock_conn_zero [])
    as (m' & E & Hh & Ht & _ & Hq & Hp & Hd & _);
    try reflexivity.
  - intros Hin. now apply elem_of_nil in Hin.
  - exists m'. split; [exact E |]. split; [exact Hh |].
    split; [now rewrite Ht |].
    unfold tailq. cbn [head_of links]. rewrite Hq, Hp, Hd, Ht.
    split; reflexivity.
Defined.

Lemma sock_sendv_without_tx_witness :
  let m := in_flight 0 in
  @SockLinks.sock_sendv sample_core_sock_h None 0 0 [(true, 5)] 7 0 m
  = Ok CCI_ENOBUFS m
  /\ @SockLinks.sock_sendv sample_core_sock_h None 0 0 [(true, 5)] 7 0
       (with_held [sep_lock] m)
     = Deadlock (with_held [sep_lock] m).
Proof.
  intros m. split.
  - rewrite (@sock_sendv_without_tx sample_core_sock_h m 0
               (sample_connection CCI_CONN_ATTR_RU 0) 0
               [(true, 5)] 5 7 0); try reflexivity.
    vm_compute. discriminate.
  - rewrite (@sock_sendv_without_tx sample_core_sock_h
               (with_held [sep_lock] m) 0
               (sample_connection CCI_CONN_ATTR_RU 0) 0
               [(true, 5)] 5 7 0); try reflexivity.
    vm_compute. discriminate.
Defined.

Lemma timed_out_event_is_queued_twice_witness :
  let m := queued_one CCI_CONN_ATTR_UU 1 in
  exists m',
    @SockLinks.sock_progress_queued_tx sample_core_sock_h 0 m = Ok Continue m'
    /\ (state <$> m_txs m' !! 0%nat) = Some SOCK_TX_COMPLETED
    /\ (evt_info <$> m_txs m' !! 0%nat) = Some (info_send 0 0 CCI_ETIMEDOUT)
    /\ m_entry m'
       = [{| tqe_next := Some 0%nat; tqe_prev := Some (tqe_next_of entry 0) |}]
    /\ walk 3 (m_entry m') (tqh_first (m_evts m')) = [0%nat; 0%nat; 0%nat].
Proof.
  intros m.
  destruct (@timed_out_event_is_queued_twice sample_core_sock_h m 0
              (sample_send_tx SOCK_TX_QUEUED 0) 0 0 CCI_SUCCESS
              (sample_connection CCI_CONN_ATTR_UU 1) sock_conn_zero [])
    as (m' & tx' & E & Ht & Hst & Hi & _ & _ & _ & _ & He & Hw);
    try reflexivity; try exact I; try (vm_compute; lia);
    try (vm_compute; discriminate).
  - intros Hin. now apply elem_of_nil in Hin.
  - exists m'. split; [exact E |]. rewrite Ht. cbn [fmap option_fmap option_map].
    split; [now rewrite Hst |]. split; [now rewrite Hi |].
    assert (Em : @SockLinks.sock_progress_queued_tx sample_core_sock_h 0 m
                 = Ok Continue
                     (after (@SockLinks.sock_progress_queued_tx
                               sample_core_sock_h 0) m))
      by (vm_compute; reflexivity).
    rewrite E in Em. injection Em as ->.
    split; reflexivity.
Defined.

End SockLinksProps.

(* ===================================================================== *)
(** ** The sock transport: well-formed lists *)
(* ===================================================================== *)

(** Where the lists of [SockLinks] are well formed, its macros act on them
    as the list operations of [Sock] do, and a pending pass does to the
    links what the pass of [Sock] does to its sequences. *)
Module SockQueueProps.
Import Sock SockSetup SockLinks SockMoreProps SockLinksProps.

(** *** Chains of link fields *)

Lemma chain_lt f ls p l t : chain f ls p l -> t ∈ l -> (t < length ls)%nat.
Proof.
  revert p. induction l as [|a l IH]; intros p Hc Hin; cbn in Hc.
  - now apply elem_of_nil in Hin.
  - destruct Hc as [Ha Hc]. apply elem_of_cons in Hin as [-> | Hin].
    + now apply lookup_lt_Some in Ha.
    + now apply (IH _ Hc).
Qed.

Lemma last_ptr_app f p l t :
  last_ptr f p (l ++ [t]) = tqe_next_of f t.
Proof. revert p. induction l as [|a l IH]; intros p; cbn; auto. Qed.

Lemma last_ptr_cases f p l :
  (l = [] /\ last_ptr f p l = p)
  \/ exists l' x, l = l' ++ [x] /\ last_ptr f p l = tqe_next_of f x.
Proof.
  destruct l as [|a l] using rev_ind; [left; auto |].
  right. exists l, a. split; [reflexivity | apply last_ptr_app].
Qed.

Lemma chain_insert_tail f ls p l t :
  chain f ls p l ->
  t ∉ l -> NoDup l -> (t < length ls)%nat ->
  p <> tqe_next_of f t ->
  (forall x, p = tqe_next_of f x -> x ∉ l) ->
  chain f (linked_tail f ls (last_ptr f p l) t) p (l ++ [t]).
Proof.
  revert p. induction l as [|a l IH]; intros p Hc Ht Hnd Hlt Hp Hpl.
  - cbn. split; [| exact I]. unfold linked_tail.
    destruct p as [h' | f' x].
    + now apply list_lookup_insert_eq.
    + destruct (bool_decide (f' = f)) eqn:Ef;
        [| now apply list_lookup_insert_eq].
      apply bool_decide_eq_true in Ef. subst f'.
      assert (Hx : x <> t) by congruence.
      rewrite list_lookup_insert_ne by congruence.
      destruct (ls !! x) as [e|] eqn:Hx';
        [| now apply list_lookup_insert_eq].
      rewrite list_lookup_insert_ne by congruence.
      now apply list_lookup_insert_eq.
  - cbn in Hc. destruct Hc as [Ha Hc].
    apply not_elem_of_cons in Ht as [Hta Ht].
    apply NoDup_cons in Hnd as [Hal Hnd].
    assert (Hla : (a < length ls)%nat) by (now apply lookup_lt_Some in Ha).
    cbn [app chain last_ptr]. split.
    + unfold linked_tail.
      destruct (last_ptr_cases f (tqe_next_of f a) l) as [[-> ->] | (l' & x & -> & ->)].
      * rewrite bool_decide_true by reflexivity.
        rewrite list_lookup_insert_ne by congruence. rewrite Ha.
        rewrite list_lookup_insert_eq by (now rewrite length_insert).
        reflexivity.
      * rewrite bool_decide_true by reflexivity.
        assert (Hxa : x <> a).
        { intros ->. apply Hal. apply elem_of_app. right. left. }
        assert (Hxt : x <> t).
        { intros ->. apply Ht. apply elem_of_app. right. left. }
        rewrite list_lookup_insert_ne by congruence.
        destruct (ls !! x) as [e|] eqn:Hx.
        -- rewrite list_lookup_insert_ne by congruence.
           rewrite list_lookup_insert_ne by congruence.
           rewrite Ha. do 2 f_equal. now destruct l'.
        -- rewrite list_lookup_insert_ne by congruence.
           rewrite Ha. do 2 f_equal. now destruct l'.
    + apply IH; try assumption.
      * congruence.
      * intros x [= ->]. exact Hal.
Qed.

Lemma chain_frame f ls ls' p l :
  chain f ls p l -> (forall x, x ∈ l -> ls' !! x = ls !! x) -> chain f ls' p l.
Proof.
  revert p. induction l as [|a l IH]; intros p Hc Hsame; cbn in *; [exact I |].
  destruct Hc as [Ha Hc]. split.
  - rewrite Hsame by left. exact Ha.
  - apply IH; [exact Hc |]. intros x Hx. apply Hsame. now right.
Qed.

Lemma linked_tail_length f ls lp t :
  length (linked_tail f ls lp t) = length ls.
Proof.
  unfold linked_tail. destruct lp as [h' | f' p]; [apply length_insert |].
  destruct (bool_decide (f' = f)); [| apply length_insert].
  destruct (_ !! p); rewrite ?length_insert; reflexivity.
Qed.

Lemma linked_tail_other f ls l p t x :
  x <> t -> tqe_next_of f x <> last_ptr f p l ->
  linked_tail f ls (last_ptr f p l) t !! x = ls !! x.
Proof.
  intros Hxt Hx. unfold linked_tail.
  destruct (last_ptr f p l) as [h' | f' y].
  - now rewrite list_lookup_insert_ne by congruence.
  - destruct (bool_decide (f' = f)) eqn:Ef.
    + apply bool_decide_eq_true in Ef. subst f'.
      assert (y <> x) by congruence.
      destruct (_ !! y); rewrite ?list_lookup_insert_ne by congruence;
        reflexivity.
    + now rewrite list_lookup_insert_ne by congruence.
Qed.

Lemma last_ptr_in f p l :
  last_ptr f p l = p \/ exists x, x ∈ l /\ last_ptr f p l = tqe_next_of f x.
Proof.
  destruct (last_ptr_cases f p l) as [[-> E] | (l' & x & -> & E)]; [now left |].
  right. exists x. split; [| exact E]. apply elem_of_app. right. left.
Qed.

Lemma unlinked_length f ls t : length (unlinked f ls t) = length ls.
Proof.
  unfold unlinked. destruct (ls !! t) as [e|]; [| reflexivity].
  set (ls1 := match tqe_next e with Some n => _ | None => ls end).
  assert (H1 : length ls1 = length ls).
  { unfold ls1. destruct (tqe_next e) as [n|]; [| reflexivity].
    destruct (ls !! n); [apply length_insert | reflexivity]. }
  destruct (tqe_prev e) as [[h' | f' p]|]; try exact H1.
  destruct (bool_decide (f' = f)); [| exact H1].
  destruct (ls1 !! p); [now rewrite length_insert | exact H1].
Qed.

Lemma chain_at f ls p l1 t l2 :
  chain f ls p (l1 ++ t :: l2) ->
  ls !! t = Some {| tqe_next := List.head l2;
                    tqe_prev := Some (last_ptr f p l1) |}.
Proof.
  revert p. induction l1 as [|a l1 IH]; intros p Hc; cbn in Hc.
  - exact (proj1 Hc).
  - cbn [last_ptr]. apply IH. exact (proj2 Hc).
Qed.

Lemma last_ptr_middle f p l1 t l2 :
  last_ptr f p (l1 ++ t :: l2)
  = match l2 with
    | [] => tqe_next_of f t
    | _ :: _ => last_ptr f p (l1 ++ l2)
    end.
Proof.
  revert p. induction l1 as [|a l1 IH]; intros p; cbn [app last_ptr].
  - destruct l2; reflexivity.
  - apply IH.
Qed.

Lemma unlinked_other f ls p l1 t l2 x :
  chain f ls p (l1 ++ t :: l2) ->
  List.head l2 <> Some x ->
  last_ptr f p l1 <> tqe_next_of f x ->
  unlinked f ls t !! x = ls !! x.
Proof.
  intros Hc Hn Hp. unfold unlinked. rewrite (chain_at _ _ _ _ _ _ Hc).
  cbn [tqe_next tqe_prev].
  set (ls1 := match List.head l2 with Some n => _ | None => ls end).
  assert (H1 : ls1 !! x = ls !! x).
  { unfold ls1. destruct (List.head l2) as [n|]; [| reflexivity].
    destruct (ls !! n); [| reflexivity].
    apply list_lookup_insert_ne. congruence. }
  destruct (last_ptr f p l1) as [h' | f' y]; [exact H1 |].
  destruct (bool_decide (f' = f)) eqn:Ef; [| exact H1].
  apply bool_decide_eq_true in Ef. subst f'.
  destruct (ls1 !! y); [| exact H1].
  rewrite list_lookup_insert_ne by congruence. exact H1.
Qed.

Lemma chain_remove f ls p l1 t l2 :
  chain f ls p (l1 ++ t :: l2) ->
  NoDup (l1 ++ t :: l2) ->
  (forall x, p = tqe_next_of f x -> x ∉ l1 ++ t :: l2) ->
  chain f (unlinked f ls t) p (l1 ++ l2).
Proof.
  revert p. induction l1 as [|a l1 IH]; intros p Hc Hnd Hp.
  - cbn [app] in *. destruct l2 as [|n l2]; [exact I |].
    pose proof Hc as Hc0. cbn in Hc. destruct Hc as (Ht & Hn & Hc).
    apply NoDup_cons in Hnd as [Htl Hnd].
    apply NoDup_cons in Hnd as [Hnl Hnd].
    assert (Hnt : n <> t).
    { intros ->. apply Htl. left. }
    cbn [chain]. split.
    + unfold unlinked. rewrite Ht. cbn [tqe_next tqe_prev List.head].
      rewrite Hn. cbn [tqe_next].
      assert (Hlt : (n < length ls)%nat) by (now apply lookup_lt_Some in Hn).
      destruct p as [h' | f' x];
        [now apply list_lookup_insert_eq |].
      destruct (bool_decide (f' = f)) eqn:Ef;
        [| now apply list_lookup_insert_eq].
      apply bool_decide_eq_true in Ef. subst f'.
      assert (Hxn : x <> n).
      { intros ->. apply (Hp n eq_refl). right. left. }
      destruct (_ !! x).
      * rewrite list_lookup_insert_ne by congruence.
        now apply list_lookup_insert_eq.
      * now apply list_lookup_insert_eq.
    + apply (chain_frame _ ls); [exact Hc |].
      intros x Hx. apply (unlinked_other f ls p [] t (n :: l2)); [exact Hc0 | |].
      * cbn. intros [= ->]. contradiction.
      * cbn. intros ->. apply (Hp x eq_refl). right. now right.
  - pose proof Hc as Hc0. cbn [app chain] in Hc. destruct Hc as [Ha Hc].
    cbn [app] in Hnd. apply NoDup_cons in Hnd as [Hal Hnd].
    cbn [app chain]. split.
    + pose proof (chain_at _ _ _ _ _ _ Hc) as Ht.
      assert (Hat : a <> t).
      { intros ->. apply Hal. apply elem_of_app. right. left. }
      assert (Hna : List.head l2 <> Some a).
      { destruct l2 as [|n l2]; [discriminate |]. cbn. intros [= ->].
        apply Hal. apply elem_of_app. right. right. left. }
      destruct l1 as [|b l1].
      * cbn [last_ptr app] in *. unfold unlinked. rewrite Ht.
        cbn [tqe_next tqe_prev]. rewrite bool_decide_true by reflexivity.
        set (ls1 := match List.head l2 with Some n => _ | None => ls end).
        assert (H1 : ls1 !! a = ls !! a).
        { unfold ls1. destruct (List.head l2) as [n|]; [| reflexivity].
          destruct (ls !! n); [| reflexivity].
          apply list_lookup_insert_ne. congruence. }
        rewrite H1, Ha. cbn [tqe_prev].
        apply list_lookup_insert_eq.
        assert (Hlen1 : length ls1 = length ls).
        { unfold ls1. destruct (List.head l2) as [n|]; [| reflexivity].
          destruct (ls !! n); [apply length_insert | reflexivity]. }
        rewrite Hlen1. now apply lookup_lt_Some in Ha.
      * rewrite (unlinked_other f ls p (a :: b :: l1) t l2 a Hc0 Hna).
        -- exact Ha.
        -- cbn [last_ptr].
           destruct (last_ptr_in f (tqe_next_of f b) l1)
             as [-> | (y & Hy & ->)].
           ++ intros [= ->]. apply Hal. left.
           ++ intros [= ->]. apply Hal. right. apply elem_of_app. now left.
    + apply IH; [exact Hc | exact Hnd |]. intros x [= ->]. exact Hal.
Qed.

(** An element is on one well-formed list of a link field at most: its
    [tqe_prev] leads back to one head. *)
Lemma chain_one_head f ls h1 h2 a1 x b1 a2 b2 :
  chain f ls (tqh_first_of h1) (a1 ++ x :: b1) ->
  chain f ls (tqh_first_of h2) (a2 ++ x :: b2) ->
  h1 = h2.
Proof.
  revert x b1 a2 b2.
  induction a1 as [|y1 a1 IH] using rev_ind; intros x b1 a2 b2 H1 H2.
  - pose proof (chain_at _ _ _ _ _ _ H1) as E1.
    pose proof (chain_at _ _ _ _ _ _ H2) as E2.
    rewrite E1 in E2. cbn [last_ptr] in E2.
    destruct (last_ptr_cases f (tqh_first_of h2) a2)
      as [[-> E] | (a2' & y2 & -> & E)]; rewrite E in E2; congruence.
  - pose proof (chain_at _ _ _ _ _ _ H1) as E1.
    pose proof (chain_at _ _ _ _ _ _ H2) as E2.
    rewrite E1 in E2. rewrite last_ptr_app in E2.
    destruct (last_ptr_cases f (tqh_first_of h2) a2)
      as [[-> E] | (a2' & y2 & -> & E)]; rewrite E in E2; [congruence |].
    assert (y1 = y2) as <- by congruence.
    rewrite <- app_assoc in H1, H2. cbn [app] in H1, H2.
    exact (IH _ _ _ _ H1 H2).
Qed.

Lemma is_tailq_disjoint h1 h2 f l1 l2 m x :
  is_tailq h1 f l1 m -> is_tailq h2 f l2 m -> h1 <> h2 ->
  x ∈ l1 -> x ∉ l2.
Proof.
  intros (_ & _ & H1 & _) (_ & _ & H2 & _) Hne Hx1 Hx2.
  destruct (list_elem_of_split _ _ Hx1) as (a1 & b1 & ->).
  destruct (list_elem_of_split _ _ Hx2) as (a2 & b2 & ->).
  exact (Hne (chain_one_head _ _ _ _ _ _ _ _ _ H1 H2)).
Qed.

(** *** The macros on a well-formed list *)

Lemma wr_first_ok h v m :
  wr_first h v m
  = Ok tt (with_head h {| tqh_first := v;
                          tqh_last := tqh_last (head_of h m) |} m).
Proof. reflexivity. Qed.

(** [TAILQ_INSERT_TAIL] when [tqh_last] points into the list of this head. *)
Lemma TAILQ_INSERT_TAIL_links h elm f m :
  (elm < length (links f m))%nat ->
  valid (tqh_last (head_of h m)) m ->
  tqh_last (head_of h m) <> tqe_next_of f elm ->
  (forall f' p, tqh_last (head_of h m) = tqe_next_of f' p -> f' = f) ->
  (forall h', tqh_last (head_of h m) = tqh_first_of h' -> h' = h) ->
  exists m',
    TAILQ_INSERT_TAIL h elm f m = Ok tt m'
    /\ same_objects m m'
    /\ links f m' = linked_tail f (links f m) (tqh_last (head_of h m)) elm
    /\ (forall f', f' <> f -> links f' m' = links f' m)
    /\ (forall h', h' <> h -> head_of h' m' = head_of h' m)
    /\ head_of h m'
       = {| tqh_first := match tqh_last (head_of h m) with
                         | tqh_first_of _ => Some elm
                         | tqe_next_of _ _ => tqh_first (head_of h m)
                         end;
            tqh_last := tqe_next_of f elm |}.
Proof.
  intros Hlt Hv Hne Hf Hh. destruct (lookup_lt_is_Some_2 _ _ Hlt) as [e He].
  unfold TAILQ_INSERT_TAIL.
  rewrite (bind_ok _ _ _ _ _ (wr_next_ok _ _ _ _ _ He)).
  set (m1 := with_links f _ m).
  rewrite (bind_ok _ _ _ _ _ (rd_head_ok h m1)).
  assert (Hh1 : head_of h m1 = head_of h m) by (now destruct h).
  rewrite Hh1.
  assert (He1 : links f m1 !! elm
                = Some {| tqe_next := None; tqe_prev := tqe_prev e |}).
  { unfold m1. rewrite links_with_links. now apply list_lookup_insert_eq. }
  rewrite (bind_ok _ _ _ _ _ (wr_prev_ok _ _ _ _ _ He1)).
  set (m2 := with_links f _ m1).
  assert (Hl2 : links f m2
                = <[elm := {| tqe_next := None;
                              tqe_prev := Some (tqh_last (head_of h m)) |}]>
                    (links f m)).
  { unfold m2, m1. rewrite !links_with_links. cbn [tqe_next].
    apply list_insert_insert_eq. }
  unfold linked_tail. cbn zeta.
  destruct (tqh_last (head_of h m)) as [h' | f' p] eqn:Elast.
  - pose proof (Hh h' eq_refl) as ->. cbn [store].
    rewrite (bind_ok _ _ _ _ _ (wr_first_ok h (Some elm) m2)).
    rewrite wr_last_ok. eexists. split; [reflexivity |].
    split; [unfold same_objects, m2, m1; destruct f, h; cbn; auto 10 |].
    split; [rewrite <- Hl2; destruct f, h; reflexivity |].
    split; [intros f' Hf'; destruct f, f', h; cbn; congruence |].
    split; [intros h' Hh'; destruct f, h, h'; cbn; congruence |].
    destruct f, h; reflexivity.
  - pose proof (Hf f' p eq_refl) as ->. cbn [store].
    rewrite bool_decide_true by reflexivity.
    assert (Hpe : p <> elm) by congruence.
    cbn [valid] in Hv. destruct (lookup_lt_is_Some_2 _ _ Hv) as [ep Hep].
    assert (Hp2 : links f m2 !! p = Some ep).
    { rewrite Hl2. now rewrite list_lookup_insert_ne by congruence. }
    rewrite (bind_ok _ _ _ _ _ (wr_next_ok _ _ _ _ _ Hp2)).
    rewrite wr_last_ok. rewrite <- Hl2, Hp2.
    eexists. split; [reflexivity |].
    split; [unfold same_objects, m2, m1; destruct f, h; cbn; auto 10 |].
    split; [destruct f, h; reflexivity |].
    split; [intros f' Hf'; destruct f, f', h; cbn; congruence |].
    split; [intros h' Hh'; destruct f, h, h'; cbn; congruence |].
    destruct f, h; reflexivity.
Qed.

Lemma is_tailq_valid_last h f l m :
  is_tailq h f l m -> valid (tqh_last (head_of h m)) m.
Proof.
  intros (_ & _ & Hc & ->).
  destruct (last_ptr_in f (tqh_first_of h) l) as [-> | (x & Hx & ->)];
    [exact I |].
  cbn [valid]. exact (chain_lt _ _ _ _ _ Hc Hx).
Qed.

(** Another list is not touched by a change of the links of elements that
    are not on it. *)
Lemma is_tailq_frame h f l m m' :
  is_tailq h f l m ->
  head_of h m' = head_of h m ->
  (forall x, x ∈ l -> links f m' !! x = links f m !! x) ->
  is_tailq h f l m'.
Proof.
  intros (Hnd & Hfirst & Hc & Hlast) Hh Hl.
  split; [exact Hnd |]. rewrite Hh. split; [exact Hfirst |].
  split; [| exact Hlast]. exact (chain_frame _ _ _ _ _ Hc Hl).
Qed.

Lemma is_tailq_insert_tail h f l m t :
  is_tailq h f l m ->
  t ∉ l -> (t < length (links f m))%nat ->
  exists m',
    SockLinks.TAILQ_INSERT_TAIL h t f m = Ok tt m'
    /\ is_tailq h f (Sock.TAILQ_INSERT_TAIL l t) m'
    /\ same_objects m m'
    /\ (forall f', length (links f' m') = length (links f' m))
    /\ (forall h2 f2 l2,
          h2 <> h -> is_tailq h2 f2 l2 m ->
          f2 <> f \/ ((t ∉ l2) /\ forall x, x ∈ l -> x ∉ l2) ->
          is_tailq h2 f2 l2 m').
Proof.
  intros Hq Ht Hlt. pose proof (is_tailq_valid_last _ _ _ _ Hq) as Hv.
  destruct Hq as (Hnd & Hfirst & Hc & Hlast).
  assert (Hne : tqh_last (head_of h m) <> tqe_next_of f t).
  { rewrite Hlast.
    destruct (last_ptr_in f (tqh_first_of h) l) as [-> | (x & Hx & ->)];
      [discriminate |].
    intros [= ->]. contradiction. }
  assert (Hf : forall f' p, tqh_last (head_of h m) = tqe_next_of f' p -> f' = f).
  { rewrite Hlast. intros f' p.
    destruct (last_ptr_in f (tqh_first_of h) l) as [-> | (x & Hx & ->)];
      congruence. }
  assert (Hh : forall h', tqh_last (head_of h m) = tqh_first_of h' -> h' = h).
  { rewrite Hlast. intros h'.
    destruct (last_ptr_in f (tqh_first_of h) l) as [-> | (x & Hx & ->)];
      congruence. }
  destruct (TAILQ_INSERT_TAIL_links h t f m Hlt Hv Hne Hf Hh)
    as (m' & Erun & Hobj & Hl' & Hother & Hheads & Hhead).
  assert (Hlen : forall f', length (links f' m') = length (links f' m)).
  { intros f'. destruct (decide (f' = f)) as [-> | Hf'];
      [| now rewrite Hother].
    rewrite Hl'. apply linked_tail_length. }
  exists m'. split; [exact Erun |].
  split; [| split; [exact Hobj | split; [exact Hlen |]]].
  - unfold Sock.TAILQ_INSERT_TAIL. split.
    { apply NoDup_app. split; [exact Hnd |]. split.
      - intros x Hx Hx'. apply list_elem_of_singleton in Hx'. now subst.
      - apply NoDup_singleton. }
    rewrite Hhead, Hl', Hlast. cbn [tqh_first tqh_last].
    split; [| split].
    + destruct (last_ptr_cases f (tqh_first_of h) l)
        as [[-> ->] | (l' & x & -> & ->)]; [reflexivity |].
      rewrite Hfirst. now destruct l'.
    + apply chain_insert_tail; try assumption; [discriminate |].
      intros x [=].
    + symmetry. apply last_ptr_app.
  - intros h2 f2 l2 Hh2 Hq2 Hsep.
    apply (is_tailq_frame _ _ _ m); [exact Hq2 | now apply Hheads |].
    intros x Hx. destruct (decide (f2 = f)) as [-> | Hf2];
      [| now rewrite Hother].
    destruct Hsep as [? | [Ht2 Hdis]]; [contradiction |].
    rewrite Hl', Hlast. apply linked_tail_other.
    + intros ->. contradiction.
    + destruct (last_ptr_in f (tqh_first_of h) l) as [-> | (y & Hy & ->)];
        [discriminate |].
      intros [= ->]. exact (Hdis _ Hy Hx).
Qed.

(** [TAILQ_REMOVE] of an element whose [tqe_prev] points into the list of
    this head. *)
Lemma TAILQ_REMOVE_links h elm f m e prev :
  links f m !! elm = Some e ->
  tqe_prev e = Some prev ->
  (forall n, tqe_next e = Some n -> (n < length (links f m))%nat) ->
  valid prev m ->
  (forall f' p, prev = tqe_next_of f' p -> f' = f) ->
  (forall h', prev = tqh_first_of h' -> h' = h) ->
  exists m',
    SockLinks.TAILQ_REMOVE h elm f m = Ok tt m'
    /\ same_objects m m'
    /\ links f m' = unlinked f (links f m) elm
    /\ (forall f', f' <> f -> links f' m' = links f' m)
    /\ (forall h', h' <> h -> head_of h' m' = head_of h' m)
    /\ head_of h m'
       = {| tqh_first := match prev with
                         | tqh_first_of _ => tqe_next e
                         | tqe_next_of _ _ => tqh_first (head_of h m)
                         end;
            tqh_last := match tqe_next e with
                        | None => prev
                        | Some _ => tqh_last (head_of h m)
                        end |}.
Proof.
  intros He Hprev Hn Hv Hf Hh. unfold SockLinks.TAILQ_REMOVE.
  rewrite (bind_ok _ _ _ _ _ (rd_link_ok _ _ _ _ He)).
  rewrite Hprev. cbn [deref].
  rewrite (bind_ok (mret prev) _ m prev m eq_refl).
  unfold unlinked. rewrite He, Hprev. cbn zeta.
  destruct (tqe_next e) as [n|] eqn:En.
  - destruct (lookup_lt_is_Some_2 _ _ (Hn n eq_refl)) as [en Hen].
    rewrite (bind_ok _ _ _ _ _ (wr_prev_ok _ _ _ _ _ Hen)). rewrite Hen.
    set (m1 := with_links f _ m).
    destruct prev as [h' | f' p].
    + pose proof (Hh h' eq_refl) as ->. cbn [store]. rewrite wr_first_ok.
      eexists. split; [reflexivity |].
      split; [unfold same_objects, m1; destruct f, h; cbn; auto 10 |].
      split; [destruct f, h; reflexivity |].
      split; [intros f' Hf'; destruct f, f', h; cbn; congruence |].
      split; [intros h' Hh'; destruct f, h, h'; cbn; congruence |].
      destruct f, h; reflexivity.
    + pose proof (Hf f' p eq_refl) as ->. cbn [store valid] in *.
      rewrite bool_decide_true by reflexivity.
      assert (Hp1 : (p < length (links f m1))%nat).
      { unfold m1. rewrite links_with_links, length_insert. exact Hv. }
      destruct (lookup_lt_is_Some_2 _ _ Hp1) as [ep Hep].
      rewrite (wr_next_ok _ _ _ _ _ Hep).
      unfold m1 in Hep. rewrite links_with_links in Hep. rewrite Hep.
      eexists. split; [reflexivity |].
      split; [unfold same_objects, m1; destruct f, h; cbn; auto 10 |].
      split; [destruct f, h; reflexivity |].
      split; [intros f' Hf'; destruct f, f', h; cbn; congruence |].
      split; [intros h' Hh'; destruct f, h, h'; cbn; congruence |].
      destruct f, h; cbn; now rewrite tailq_head_eta.
  - rewrite (bind_ok _ _ _ _ _ (wr_last_ok h prev m)).
    set (m1 := with_head h _ m).
    destruct prev as [h' | f' p].
    + pose proof (Hh h' eq_refl) as ->. cbn [store]. rewrite wr_first_ok.
      eexists. split; [reflexivity |].
      split; [unfold same_objects, m1; destruct f, h; cbn; auto 10 |].
      split; [destruct f, h; reflexivity |].
      split; [intros f' Hf'; destruct f, f', h; cbn; congruence |].
      split; [intros h' Hh'; destruct f, h, h'; cbn; congruence |].
      destruct f, h; reflexivity.
    + pose proof (Hf f' p eq_refl) as ->. cbn [store valid] in *.
      rewrite bool_decide_true by reflexivity.
      assert (Hl1 : links f m1 = links f m) by (now destruct f, h).
      destruct (lookup_lt_is_Some_2 _ _ Hv) as [ep Hep].
      assert (Hep1 : links f m1 !! p = Some ep) by (now rewrite Hl1).
      rewrite (wr_next_ok _ _ _ _ _ Hep1). rewrite Hl1, Hep.
      eexists. split; [reflexivity |].
      split; [unfold same_objects, m1; destruct f, h; cbn; auto 10 |].
      split; [destruct f, h; reflexivity |].
      split; [intros f' Hf'; destruct f, f', h; cbn; congruence |].
      split; [intros h' Hh'; destruct f, h, h'; cbn; congruence |].
      destruct f, h; reflexivity.
Qed.

Lemma is_tailq_insert_head h f l m t :
  is_tailq h f l m ->
  t ∉ l -> (t < length (links f m))%nat ->
  exists m',
    SockLinks.TAILQ_INSERT_HEAD h t f m = Ok tt m'
    /\ is_tailq h f (Sock.TAILQ_INSERT_HEAD l t) m'
    /\ same_objects m m'
    /\ (forall f', length (links f' m') = length (links f' m))
    /\ (forall h2 f2 l2,
          h2 <> h -> is_tailq h2 f2 l2 m ->
          f2 <> f \/ ((t ∉ l2) /\ forall x, x ∈ l -> x ∉ l2) ->
          is_tailq h2 f2 l2 m').
Proof.
  intros (Hnd & Hfirst & Hc & Hlast) Ht Hlt.
  destruct (lookup_lt_is_Some_2 _ _ Hlt) as [e He].
  unfold SockLinks.TAILQ_INSERT_HEAD, Sock.TAILQ_INSERT_HEAD.
  rewrite (bind_ok _ _ _ _ _ (rd_head_ok h m)). rewrite Hfirst.
  rewrite (bind_ok _ _ _ _ _ (wr_next_ok _ _ _ _ _ He)).
  set (m1 := with_links f _ m).
  assert (Hl1 : links f m1
                = <[t := {| tqe_next := List.head l; tqe_prev := tqe_prev e |}]>
                    (links f m)) by apply links_with_links.
  destruct l as [|a l]; cbn [List.head] in *.
  - rewrite (bind_ok _ _ _ _ _ (wr_last_ok h _ m1)).
    set (m2 := with_head h _ m1).
    rewrite (bind_ok _ _ _ _ _ (wr_first_ok h _ m2)).
    set (m3 := with_head h _ m2).
    assert (Ht3 : links f m3 !! t
                  = Some {| tqe_next := None; tqe_prev := tqe_prev e |}).
    { replace (links f m3) with (links f m1) by (now destruct f, h).
      rewrite Hl1. now apply list_lookup_insert_eq. }
    rewrite (wr_prev_ok _ _ _ _ _ Ht3). cbn [tqe_next].
    set (m4 := with_links f _ m3).
    assert (Hl4 : links f m4
                  = <[t := {| tqe_next := None;
                              tqe_prev := Some (tqh_first_of h) |}]>
                      (links f m)).
    { unfold m4. rewrite links_with_links.
      replace (links f m3) with (links f m1) by (now destruct f, h).
      rewrite Hl1. apply list_insert_insert_eq. }
    assert (Hh4 : head_of h m4
                  = {| tqh_first := Some t; tqh_last := tqe_next_of f t |})
      by (now destruct f, h).
    exists m4. split; [reflexivity |]. split.
    { split; [apply NoDup_singleton |]. rewrite Hh4, Hl4. cbn.
      split; [reflexivity |]. split; [| reflexivity].
      split; [| exact I]. now apply list_lookup_insert_eq. }
    split; [unfold same_objects; destruct f, h; cbn; auto 10 |].
    split.
    { intros f'. destruct (decide (f' = f)) as [-> | Hf'].
      - rewrite Hl4. apply length_insert.
      - destruct f, f', h; cbn; congruence. }
    intros h2 f2 l2 Hh2 Hq2 Hsep.
    apply (is_tailq_frame _ _ _ m); [exact Hq2 | |].
    { destruct f, h, h2; cbn; congruence. }
    intros x Hx. destruct (decide (f2 = f)) as [-> | Hf2].
    + destruct Hsep as [? | [Ht2 _]]; [contradiction |].
      rewrite Hl4. apply list_lookup_insert_ne. intros ->. contradiction.
    + destruct f, f2, h; cbn; congruence.
  - cbn in Hc. destruct Hc as [Ha Hc].
    apply not_elem_of_cons in Ht as [Hta Ht].
    apply NoDup_cons in Hnd as [Hal Hnd].
    assert (Ha1 : links f m1 !! a
                  = Some {| tqe_next := List.head l;
                            tqe_prev := Some (tqh_first_of h) |}).
    { rewrite Hl1. rewrite list_lookup_insert_ne by congruence. exact Ha. }
    rewrite (bind_ok _ _ _ _ _ (wr_prev_ok _ _ _ _ _ Ha1)). cbn [tqe_next].
    set (m2 := with_links f _ m1).
    rewrite (bind_ok _ _ _ _ _ (wr_first_ok h _ m2)).
    set (m3 := with_head h _ m2).
    assert (Hl3 : links f m3
                  = <[a := {| tqe_next := List.head l;
                              tqe_prev := Some (tqe_next_of f t) |}]>
                      (links f m1)).
    { replace (links f m3) with (links f m2) by (now destruct f, h).
      apply links_with_links. }
    assert (Ht3 : links f m3 !! t
                  = Some {| tqe_next := Some a; tqe_prev := tqe_prev e |}).
    { rewrite Hl3, Hl1. rewrite list_lookup_insert_ne by congruence.
      now apply list_lookup_insert_eq. }
    rewrite (wr_prev_ok _ _ _ _ _ Ht3). cbn [tqe_next].
    set (m4 := with_links f _ m3).
    assert (Hl4 : links f m4
                  = <[t := {| tqe_next := Some a;
                              tqe_prev := Some (tqh_first_of h) |}]>
                      (links f m3)) by apply links_with_links.
    assert (Hh4 : head_of h m4
                  = {| tqh_first := Some t;
                       tqh_last := tqh_last (head_of h m) |})
      by (now destruct f, h).
    assert (Hla : (a < length (links f m))%nat)
      by (now apply lookup_lt_Some in Ha).
    assert (Hother : forall x, x <> t -> x <> a ->
              links f m4 !! x = links f m !! x).
    { intros x Hxt Hxa. rewrite Hl4, Hl3, Hl1.
      now rewrite !list_lookup_insert_ne by congruence. }
    exists m4. split; [reflexivity |]. split.
    { split.
      { apply NoDup_cons. split; [| apply NoDup_cons; auto].
        intros Hin. apply elem_of_cons in Hin as [-> | Hin]; contradiction. }
      rewrite Hh4. cbn [tqh_first tqh_last List.head chain last_ptr].
      split; [reflexivity |]. split; [| exact Hlast].
      split; [| split].
      - rewrite Hl4. apply list_lookup_insert_eq.
        rewrite Hl3, Hl1, !length_insert. exact Hlt.
      - rewrite Hl4, Hl3. rewrite list_lookup_insert_ne by congruence.
        apply list_lookup_insert_eq. rewrite Hl1, length_insert. exact Hla.
      - apply (chain_frame _ (links f m)); [exact Hc |].
        intros x Hx. apply Hother; intros ->; contradiction. }
    split; [unfold same_objects; destruct f, h; cbn; auto 10 |].
    split.
    { intros f'. destruct (decide (f' = f)) as [-> | Hf'].
      - rewrite Hl4, Hl3, Hl1, !length_insert. reflexivity.
      - destruct f, f', h; cbn; congruence. }
    intros h2 f2 l2 Hh2 Hq2 Hsep.
    apply (is_tailq_frame _ _ _ m); [exact Hq2 | |].
    { destruct f, h, h2; cbn; congruence. }
    intros x Hx. destruct (decide (f2 = f)) as [-> | Hf2].
    + destruct Hsep as [? | [Ht2 Hdis]]; [contradiction |].
      apply Hother; intros ->; [contradiction |].
      apply (Hdis a); [left | exact Hx].
    + destruct f, f2, h; cbn; congruence.
Qed.

(** Removing from a sequence an element that occurs once. *)
Lemma TAILQ_REMOVE_once pre t q :
  t ∉ pre -> Sock.TAILQ_REMOVE (pre ++ t :: q) t = pre ++ q.
Proof.
  induction pre as [|x pre IH]; intros Hn; cbn.
  - now rewrite bool_decide_true.
  - apply not_elem_of_cons in Hn as [Hx Hn].
    rewrite bool_decide_false by congruence. now rewrite IH.
Qed.

Lemma is_tailq_remove h f l m t :
  is_tailq h f l m ->
  t ∈ l ->
  exists m',
    SockLinks.TAILQ_REMOVE h t f m = Ok tt m'
    /\ is_tailq h f (Sock.TAILQ_REMOVE l t) m'
    /\ same_objects m m'
    /\ (forall f', length (links f' m') = length (links f' m))
    /\ links f m' !! t = links f m !! t
    /\ (forall h2 f2 l2,
          h2 <> h -> is_tailq h2 f2 l2 m ->
          f2 <> f \/ (forall x, x ∈ l -> x ∉ l2) ->
          is_tailq h2 f2 l2 m').
Proof.
  intros (Hnd & Hfirst & Hc & Hlast) Ht.
  destruct (list_elem_of_split_l _ _ Ht) as (l1 & l2 & -> & Ht1).
  pose proof (chain_at _ _ _ _ _ _ Hc) as He.
  set (p := tqh_first_of h) in *.
  assert (Hin1 : forall x, x ∈ l1 -> x ∈ l1 ++ t :: l2).
  { intros x Hx. apply elem_of_app. now left. }
  assert (Hin2 : forall x, x ∈ l2 -> x ∈ l1 ++ t :: l2).
  { intros x Hx. apply elem_of_app. right. now right. }
  assert (Hhd2 : forall n, List.head l2 = Some n -> n ∈ l2).
  { intros n. destruct l2; [discriminate |]. intros [= ->]. left. }
  assert (Hv : valid (last_ptr f p l1) m).
  { destruct (last_ptr_in f p l1) as [-> | (x & Hx & ->)]; [exact I |].
    cbn [valid]. exact (chain_lt _ _ _ _ _ Hc (Hin1 _ Hx)). }
  assert (Hf : forall f' x, last_ptr f p l1 = tqe_next_of f' x -> f' = f).
  { intros f' x. destruct (last_ptr_in f p l1) as [-> | (y & Hy & ->)];
      [discriminate | congruence]. }
  assert (Hh : forall h', last_ptr f p l1 = tqh_first_of h' -> h' = h).
  { intros h'. destruct (last_ptr_in f p l1) as [-> | (y & Hy & ->)];
      [unfold p; congruence | discriminate]. }
  assert (Hn : forall n,
             tqe_next {| tqe_next := List.head l2;
                         tqe_prev := Some (last_ptr f p l1) |} = Some n ->
             (n < length (links f m))%nat).
  { cbn. intros n En. exact (chain_lt _ _ _ _ _ Hc (Hin2 _ (Hhd2 _ En))). }
  destruct (TAILQ_REMOVE_links h t f m _ _ He eq_refl Hn Hv Hf Hh)
    as (m' & Erun & Hobj & Hl' & Hother & Hheads & Hhead).
  cbn [tqe_next] in Hhead.
  pose proof Hnd as Hnd0.
  apply NoDup_app in Hnd as (Hnd1 & Hdis & Hnd2).
  apply NoDup_cons in Hnd2 as [Ht2 Hnd2].
  assert (Hstale : forall x,
             x ∉ l1 -> x ∉ l2 -> links f m' !! x = links f m !! x).
  { intros x Hx1 Hx2. rewrite Hl'.
    apply (unlinked_other f _ p l1 t l2); [exact Hc | |].
    - intros En. exact (Hx2 (Hhd2 _ En)).
    - destruct (last_ptr_in f p l1) as [-> | (y & Hy & ->)];
        [discriminate |]. intros [= ->]. contradiction. }
  assert (Hlen : forall f', length (links f' m') = length (links f' m)).
  { intros f'. destruct (decide (f' = f)) as [-> | Hf'];
      [| now rewrite Hother].
    rewrite Hl'. apply unlinked_length. }
  exists m'. split; [exact Erun |].
  split; [| split; [exact Hobj | split; [exact Hlen |
                                         split; [now apply Hstale |]]]].
  - rewrite (TAILQ_REMOVE_once _ _ _ Ht1). split.
    { apply NoDup_app. split; [exact Hnd1 |]. split; [| exact Hnd2].
      intros x Hx Hx'. apply (Hdis x Hx). now right. }
    rewrite Hhead, Hl'. cbn [tqh_first tqh_last]. split; [| split].
    + destruct (last_ptr_cases f p l1) as [[-> ->] | (l' & x & -> & ->)];
        [reflexivity |].
      rewrite Hfirst. now destruct l'.
    + apply chain_remove; [exact Hc | exact Hnd0 |]. intros x [=].
    + destruct l2 as [|n l2]; cbn [List.head].
      * now rewrite app_nil_r.
      * rewrite Hlast. apply last_ptr_middle.
  - intros h2 f2 k Hh2 Hq2 Hsep.
    apply (is_tailq_frame _ _ _ m); [exact Hq2 | now apply Hheads |].
    intros x Hx. destruct (decide (f2 = f)) as [-> | Hf2];
      [| now rewrite Hother].
    destruct Hsep as [? | Hsep]; [contradiction |].
    apply Hstale.
    + intros Hx1. exact (Hsep _ (Hin1 _ Hx1) Hx).
    + intros Hx2. exact (Hsep _ (Hin2 _ Hx2) Hx).
Qed.

Lemma chain_walk f ls p l fuel :
  chain f ls p l -> (length l <= fuel)%nat -> walk fuel ls (List.head l) = l.
Proof.
  revert p fuel. induction l as [|a l IH]; intros p fuel Hc Hfuel.
  - now destruct fuel.
  - cbn in Hc. destruct Hc as [Ha Hc]. cbn [length] in Hfuel.
    destruct fuel as [|fuel]; [lia |]. cbn [List.head walk].
    rewrite Ha. cbn [tqe_next]. f_equal. apply (IH _ _ Hc). lia.
Qed.

Lemma is_tailq_length h f l m :
  is_tailq h f l m -> (length l <= length (links f m))%nat.
Proof.
  intros (Hnd & _ & Hc & _).
  transitivity (length (List.seq 0%nat (length (links f m))));
    [| now rewrite List.length_seq].
  apply NoDup_incl_length; [now apply NoDup_ListNoDup |].
  intros x Hx. apply in_seq. split; [lia |]. cbn.
  apply list_elem_of_In in Hx. exact (chain_lt _ _ _ _ _ Hc Hx).
Qed.

(** The walk from the head finds the elements of a well-formed list. *)
Lemma is_tailq_tailq h f l m :
  is_tailq h f l m ->
  (length (links f m) <= S (length (m_txs m)))%nat ->
  tailq h f m = l.
Proof.
  intros Hq Hlen. pose proof (is_tailq_length _ _ _ _ Hq) as Hll.
  destruct Hq as (_ & Hfirst & Hc & _). unfold tailq. rewrite Hfirst.
  apply (chain_walk _ _ _ _ _ Hc). lia.
Qed.

(** X23.  On a well-formed list the TAILQ macros do what the list
    operations of [Sock] say.  The list at the head [h], over the link
    field [f], is well formed and holds the elements of [l]; [t] is a
    descriptor of the memory.  Then the walk along the links from the
    head gives [l].  When [t] is not on the list, [TAILQ_INSERT_TAIL] and
    [TAILQ_INSERT_HEAD] return and leave a well-formed list that holds
    [l] with [t] appended, respectively [t] in front of [l]; every
    well-formed list at another head stays as it is, provided that, when
    it uses the same link field, [t] is not on it.  When [t] is on the
    list, [TAILQ_REMOVE] returns and leaves a well-formed list that holds
    [l] without [t]; the link field of [t] keeps its two stale pointers,
    and every well-formed list at another head stays as it is.  None of
    the three touches a descriptor, a connection, a mutex or the
    kernel. *)
Theorem tailq_macros_act_on_lists (h : head) (f : link) (l : list nat)
    (m : mem) (t : nat) :
  is_tailq h f l m ->
  (t < length (links f m))%nat ->
  (length (links f m) <= S (length (m_txs m)))%nat ->
  tailq h f m = l
  /\ (t ∉ l ->
      (exists m',
         SockLinks.TAILQ_INSERT_TAIL h t f m = Ok tt m'
         /\ is_tailq h f (Sock.TAILQ_INSERT_TAIL l t) m'
         /\ tailq h f m' = Sock.TAILQ_INSERT_TAIL l t
         /\ same_objects m m'
         /\ forall h2 f2 l2,
              h2 <> h -> is_tailq h2 f2 l2 m -> (f2 = f -> t ∉ l2) ->
              is_tailq h2 f2 l2 m')
      /\ (exists m',
            SockLinks.TAILQ_INSERT_HEAD h t f m = Ok tt m'
            /\ is_tailq h f (Sock.TAILQ_INSERT_HEAD l t) m'
            /\ tailq h f m' = Sock.TAILQ_INSERT_HEAD l t
            /\ same_objects m m'
            /\ forall h2 f2 l2,
                 h2 <> h -> is_tailq h2 f2 l2 m -> (f2 = f -> t ∉ l2) ->
                 is_tailq h2 f2 l2 m'))
  /\ (t ∈ l ->
      exists m',
        SockLinks.TAILQ_REMOVE h t f m = Ok tt m'
        /\ is_tailq h f (Sock.TAILQ_REMOVE l t) m'
        /\ tailq h f m' = Sock.TAILQ_REMOVE l t
        /\ same_objects m m'
        /\ links f m' !! t = links f m !! t
        /\ forall h2 f2 l2,
             h2 <> h -> is_tailq h2 f2 l2 m -> is_tailq h2 f2 l2 m').
Proof.
  intros Hq Hlt Hlen.
  assert (Hsep : forall h2 f2 l2,
             h2 <> h -> is_tailq h2 f2 l2 m -> (f2 = f -> t ∉ l2) ->
             f2 <> f \/ ((t ∉ l2) /\ forall x, x ∈ l -> x ∉ l2)).
  { intros h2 f2 l2 Hh2 Hq2 Ht2.
    destruct (decide (f2 = f)) as [-> | Hf2]; [right | now left].
    split; [now apply Ht2 |]. intros x Hx.
    apply (is_tailq_disjoint h h2 f l l2 m); auto. }
  assert (Hwalk : forall l' m',
             is_tailq h f l' m' -> same_objects m m' ->
             (forall f', length (links f' m') = length (links f' m)) ->
             tailq h f m' = l').
  { intros l' m' Hq' (_ & Htxs & _) Hlen'. apply is_tailq_tailq; [exact Hq' |].
    now rewrite Hlen', Htxs. }
  split; [now apply is_tailq_tailq |]. split.
  - intros Ht. split.
    + destruct (is_tailq_insert_tail _ _ _ _ _ Hq Ht Hlt)
        as (m' & E & Hq' & Hobj & Hlen' & Hfr).
      exists m'. split; [exact E |]. split; [exact Hq' |].
      split; [now apply Hwalk |]. split; [exact Hobj |].
      intros h2 f2 l2 Hh2 Hq2 Ht2. apply Hfr; [exact Hh2 | exact Hq2 |].
      exact (Hsep h2 f2 l2 Hh2 Hq2 Ht2).
    + destruct (is_tailq_insert_head _ _ _ _ _ Hq Ht Hlt)
        as (m' & E & Hq' & Hobj & Hlen' & Hfr).
      exists m'. split; [exact E |]. split; [exact Hq' |].
      split; [now apply Hwalk |]. split; [exact Hobj |].
      intros h2 f2 l2 Hh2 Hq2 Ht2. apply Hfr; [exact Hh2 | exact Hq2 |].
      exact (Hsep h2 f2 l2 Hh2 Hq2 Ht2).
  - intros Ht.
    destruct (is_tailq_remove _ _ _ _ _ Hq Ht)
      as (m' & E & Hq' & Hobj & Hlen' & Hstale & Hfr).
    exists m'. split; [exact E |]. split; [exact Hq' |].
    split; [now apply Hwalk |]. split; [exact Hobj |].
    split; [exact Hstale |].
    intros h2 f2 l2 Hh2 Hq2. apply Hfr; [exact Hh2 | exact Hq2 |].
    destruct (decide (f2 = f)) as [-> | Hf2]; [right | now left].
    intros x Hx. apply (is_tailq_disjoint h h2 f l l2 m); auto.
Qed.

(** *** The pending pass *)

Lemma is_tailq_same h f l m m' :
  is_tailq h f l m ->
  head_of h m' = head_of h m -> links f m' = links f m ->
  is_tailq h f l m'.
Proof.
  intros Hq Hh Hl. apply (is_tailq_frame _ _ _ m); [exact Hq | exact Hh |].
  intros x _. now rewrite Hl.
Qed.

(** [sock_sendto] never answers -1 for a length other than -1. *)
Lemma sock_sendto_call_ok m len_ :
  len_ <> -1 -> errnos_positive (m_kernel m) ->
  exists r e k,
    sock_sendto_call len_ m = Ok r (with_kernel k e m)
    /\ r <> -1 /\ errnos_positive k.
Proof.
  intros Hl Hk. unfold sock_sendto_call.
  rewrite (bind_ok get _ m m m eq_refl).
  destruct (sock_sendto (m_kernel m) (m_errno m) len_) as [[r e] k] eqn:Es.
  destruct (sock_sendto_not_minus_1 _ _ _ _ _ _ Es Hl Hk) as [Hr Hk'].
  exists r, e, k. split; [reflexivity |]. auto.
Qed.

(** One visit of the pending pass. *)
Lemma pending_tx_links m t l le :
  tx_in_flight m t ->
  errnos_positive (m_kernel m) ->
  is_tailq pending dentry l m -> t ∈ l ->
  is_tailq evts entry le m -> t ∉ le ->
  (t < length (m_entry m))%nat ->
  ep_lock ∉ m_held m ->
  exists m1 tx tx',
    sock_progress_pending_tx t m = Ok Continue m1
    /\ m_txs m !! t = Some tx
    /\ m_txs m1 = <[t := tx']> (m_txs m)
    /\ pending_visited (tx_expired m t) tx tx'
    /\ pass_frame m m1
    /\ errnos_positive (m_kernel m1)
    /\ is_tailq pending dentry
         (if tx_expired m t then Sock.TAILQ_REMOVE l t else l) m1
    /\ is_tailq evts entry
         (if tx_expired m t then Sock.TAILQ_INSERT_TAIL le t else le) m1
    /\ (forall h2 l2,
          h2 <> pending -> h2 <> evts -> is_tailq h2 dentry l2 m ->
          (forall x, x ∈ l -> x ∉ l2) -> is_tailq h2 dentry l2 m1).
Proof.
  intros (tx & c & ctx & s & conn & sconn & Ht & Hi & Hc & Hs & Hl) Hk
         Hp Htl He Hte Hlt Hep.
  unfold sock_progress_pending_tx, tx_expired.
  rewrite (bind_ok _ _ _ _ _ (rd_tx_ok _ _ _ Ht)). rewrite Ht, Hi, Hc.
  rewrite (bind_ok _ _ _ _ _ (rd_conn_ok _ _ _ Hc)).
  rewrite (bind_ok _ _ _ _ _ (wr_tx_ok _ _ _ _ Ht)).
  set (tx1 := tx_set_resends _ _).
  set (m1 := with_txs _ m).
  rewrite (bind_ok get _ m1 m1 m1 eq_refl).
  change (resends tx1) with (resends tx + 1).
  change (m_tx_timeout m1) with (m_tx_timeout m).
  assert (Hvis : forall b,
             pending_visited b tx
               (if b then tx_set_evt_info (info_send c ctx CCI_ETIMEDOUT) tx1
                else tx1)).
  { intros b. unfold pending_visited.
    destruct b; cbn; repeat split; try reflexivity;
      exists c, ctx, s; auto. }
  assert (Hp1 : is_tailq pending dentry l m1)
    by (now apply (is_tailq_same _ _ _ m)).
  assert (He1 : is_tailq evts entry le m1)
    by (now apply (is_tailq_same _ _ _ m)).
  destruct ((resends tx + 1 >=? m_tx_timeout m)
            || (resends tx + 1 >=? tx_timeout conn)) eqn:Ex.
  - destruct (is_tailq_remove _ _ _ _ _ Hp1 Htl)
      as (m2 & Erm & Hp2 & Hobj2 & Hlen2 & _ & Hfr2).
    rewrite (bind_ok _ _ _ _ _ Erm).
    destruct Hobj2 as (A1 & A2 & A3 & A4 & A5 & A6 & A7 & A8 & A9).
    assert (Ht2 : m_txs m2 !! t = Some tx1).
    { rewrite A2. apply list_lookup_insert_eq. now apply lookup_lt_Some in Ht. }
    rewrite (bind_ok _ _ _ _ _ (wr_tx_ok _ _ _ _ Ht2)).
    set (tx2 := tx_set_evt_info _ tx1) in *.
    set (m3 := with_txs _ m2).
    assert (Hep3 : ep_lock ∉ m_held m3) by (cbn; now rewrite A7).
    rewrite (bind_ok _ _ _ _ _ (pthread_mutex_lock_free _ _ Hep3)).
    set (m4 := with_held _ m3).
    assert (He2 : is_tailq evts entry le m2).
    { apply (Hfr2 evts entry le); [discriminate | exact He1 |].
      left. discriminate. }
    assert (He4 : is_tailq evts entry le m4)
      by (now apply (is_tailq_same _ _ _ m2)).
    assert (Hlt4 : (t < length (links entry m4))%nat).
    { change (links entry m4) with (links entry m2). now rewrite Hlen2. }
    destruct (is_tailq_insert_tail _ _ _ _ _ He4 Hte Hlt4)
      as (m5 & Ein & He5 & Hobj5 & Hlen5 & Hfr5).
    rewrite (bind_ok _ _ _ _ _ Ein).
    destruct Hobj5 as (B1 & B2 & B3 & B4 & B5 & B6 & B7 & B8 & B9).
    assert (Hep5 : ep_lock ∈ m_held m5) by (rewrite B7; left).
    rewrite (bind_ok _ _ _ _ _ (pthread_mutex_unlock_held _ _ Hep5)).
    set (m6 := with_held _ m5).
    exists m6, tx, tx2. split; [reflexivity |]. split; [reflexivity |].
    split.
    { cbn. rewrite B2. cbn. rewrite A2. cbn. apply list_insert_insert_eq. }
    split; [exact (Hvis true) |].
    split.
    { assert (Hheld : m_held m6 = m_held m).
      { unfold m6. cbn [m_held with_held]. rewrite B7. unfold m4.
        cbn [m_held with_held]. change (m_held m3) with (m_held m2).
        rewrite A7. exact (unlock_after_lock _ _ Hep). }
      unfold pass_frame. rewrite Hheld. cbn.
      rewrite B1, B3, B4, B5, B6, B2. cbn.
      rewrite A1, A3, A4, A5, A6, A2. cbn.
      rewrite !length_insert.
      pose proof (Hlen5 dentry) as L1. pose proof (Hlen5 entry) as L2.
      pose proof (Hlen2 dentry) as L3. pose proof (Hlen2 entry) as L4.
      cbn in L1, L2, L3, L4. rewrite L1, L2, L3, L4. auto 10. }
    split; [cbn; rewrite B8; cbn; rewrite A8; exact Hk |].
    assert (Hp4 : is_tailq pending dentry (Sock.TAILQ_REMOVE l t) m4)
      by (now apply (is_tailq_same _ _ _ m2)).
    split.
    { apply (is_tailq_same _ _ _ m5); try reflexivity.
      apply (Hfr5 pending dentry); [discriminate | exact Hp4 |].
      left. discriminate. }
    split; [now apply (is_tailq_same _ _ _ m5) |].
    intros h2 l2 Hh2 Hh2' Hq2 Hdis.
    apply (is_tailq_same _ _ _ m5); try reflexivity.
    apply (Hfr5 h2 dentry); [exact Hh2' | | left; discriminate].
    apply (is_tailq_same _ _ _ m2); try reflexivity.
    apply (Hfr2 h2 dentry); [exact Hh2 | | right; exact Hdis].
    now apply (is_tailq_same _ _ _ m).
  - assert (Hs1 : priv conn ≫= (λ p, m_sconns m1 !! p) = Some sconn)
      by exact Hs.
    rewrite (bind_ok _ _ _ _ _ (rd_sconn_ok _ _ _ Hs1)).
    assert (Hk1 : errnos_positive (m_kernel m1)) by exact Hk.
    destruct (sock_sendto_call_ok m1 (len tx1) Hl Hk1)
      as (r & e & k & Esend & Hr & Hk').
    rewrite (bind_ok _ _ _ _ _ Esend).
    set (m2 := with_kernel k e m1).
    rewrite (bind_ok get _ m2 m2 m2 eq_refl).
    replace (r =? -1) with false by lia.
    exists m2, tx, tx1. split; [reflexivity |]. split; [reflexivity |].
    split; [reflexivity |]. split; [exact (Hvis false) |].
    split; [unfold pass_frame; cbn; rewrite length_insert; auto 10 |].
    split; [exact Hk' |].
    split; [now apply (is_tailq_same _ _ _ m) |].
    split; [now apply (is_tailq_same _ _ _ m) |].
    intros h2 l2 _ _ Hq2 _. now apply (is_tailq_same _ _ _ m).
Qed.

Lemma tx_expired_ext m m1 t :
  m_txs m1 !! t = m_txs m !! t ->
  m_conns m1 = m_conns m ->
  m_tx_timeout m1 = m_tx_timeout m ->
  tx_expired m1 t = tx_expired m t.
Proof. intros Ht Hc He. unfold tx_expired. now rewrite Ht, Hc, He. Qed.

Lemma tx_in_flight_ext m m1 t :
  m_txs m1 !! t = m_txs m !! t ->
  m_conns m1 = m_conns m ->
  m_sconns m1 = m_sconns m ->
  tx_in_flight m t -> tx_in_flight m1 t.
Proof.
  intros Ht Hc Hs (tx & c & ctx & s & conn & sconn & H1 & H2 & H3 & H4 & H5).
  exists tx, c, ctx, s, conn, sconn. rewrite Ht, Hc, Hs. auto 10.
Qed.

Lemma pass_frame_refl m : pass_frame m m.
Proof. unfold pass_frame. auto 12. Qed.

Lemma pass_frame_trans m1 m2 m3 :
  pass_frame m1 m2 -> pass_frame m2 m3 -> pass_frame m1 m3.
Proof.
  unfold pass_frame.
  intros (A1 & A2 & A3 & A4 & A5 & A6 & A7 & A8 & A9)
         (B1 & B2 & B3 & B4 & B5 & B6 & B7 & B8 & B9).
  repeat split; congruence.
Qed.

(** The loop of the pending pass from the element behind [kept] on. *)
Lemma pending_loop_links rest kept le m fuel :
  is_tailq pending dentry (kept ++ rest) m ->
  is_tailq evts entry le m ->
  (forall x, x ∈ rest -> x ∉ le) ->
  (forall x, x ∈ rest -> tx_in_flight m x) ->
  (forall x, x ∈ rest -> (x < length (m_entry m))%nat) ->
  errnos_positive (m_kernel m) ->
  ep_lock ∉ m_held m ->
  (length rest <= fuel)%nat ->
  exists m',
    foreach_from fuel dentry sock_progress_pending_tx (List.head rest) m
    = Ok Continue m'
    /\ is_tailq pending dentry
         (kept ++ List.filter (fun t => negb (tx_expired m t)) rest) m'
    /\ is_tailq evts entry (le ++ List.filter (tx_expired m) rest) m'
    /\ pass_frame m m'
    /\ errnos_positive (m_kernel m')
    /\ (forall t, t ∈ rest ->
          exists tx tx',
            m_txs m !! t = Some tx /\ m_txs m' !! t = Some tx'
            /\ pending_visited (tx_expired m t) tx tx')
    /\ (forall t, t ∉ rest -> m_txs m' !! t = m_txs m !! t)
    /\ (forall h2 l2,
          h2 <> pending -> h2 <> evts -> is_tailq h2 dentry l2 m ->
          (forall x, x ∈ kept ++ rest -> x ∉ l2) -> is_tailq h2 dentry l2 m').
Proof.
  revert kept le m fuel.
  induction rest as [|t rest IH]; intros kept le m fuel Hp He Hle Hr Hlt Hk Hep Hfuel.
  { exists m. cbn [List.head List.filter foreach_from]. rewrite !app_nil_r in *.
    split; [now destruct fuel |]. split; [exact Hp |]. split; [exact He |].
    split; [apply pass_frame_refl |]. split; [exact Hk |].
    split; [intros t Hin; now apply elem_of_nil in Hin |].
    split; [reflexivity |]. intros h2 l2 _ _ Hq _. exact Hq. }
  destruct fuel as [|fuel]; [cbn in Hfuel; lia |].
  cbn [length] in Hfuel.
  pose proof Hp as (Hnd & _ & Hc & _).
  apply NoDup_app in Hnd as (Hndk & Hdis & Hndr).
  apply NoDup_cons in Hndr as [Hnt Hndr].
  assert (Htk : t ∉ kept).
  { intros Hin. apply (Hdis t Hin). left. }
  cbn [List.head foreach_from].
  rewrite (bind_ok _ _ _ _ _ (rd_link_ok _ _ _ _ (chain_at _ _ _ _ _ _ Hc))).
  cbn [tqe_next].
  destruct (pending_tx_links m t (kept ++ t :: rest) le
              (Hr t ltac:(left)) Hk Hp
              ltac:(apply elem_of_app; right; left) He
              (Hle t ltac:(left)) (Hlt t ltac:(left)) Hep)
    as (m1 & tx & tx' & Estep & Htx & Htxs & Hvis & Hfr & Hk1 & Hp1 & He1 & Hq1).
  rewrite (bind_ok _ _ _ _ _ Estep).
  pose proof Hfr as (_ & Hc1 & Hs1 & Ht1 & _ & Hh1 & _ & _ & Hen1).
  assert (Hsame : forall x, x <> t -> m_txs m1 !! x = m_txs m !! x).
  { intros x Hx. rewrite Htxs. now apply list_lookup_insert_ne. }
  assert (Hexp : forall x, x ∈ rest -> tx_expired m1 x = tx_expired m x).
  { intros x Hx. apply tx_expired_ext; try assumption.
    apply Hsame. intros ->. contradiction. }
  assert (Hr1 : forall x, x ∈ rest -> tx_in_flight m1 x).
  { intros x Hx. apply (tx_in_flight_ext m); try assumption.
    - apply Hsame. intros ->. contradiction.
    - apply Hr. now right. }
  set (kept1 := if tx_expired m t then kept else kept ++ [t]).
  set (le1 := if tx_expired m t then Sock.TAILQ_INSERT_TAIL le t else le).
  assert (Hp1' : is_tailq pending dentry (kept1 ++ rest) m1).
  { unfold kept1. destruct (tx_expired m t).
    - now rewrite (TAILQ_REMOVE_once _ _ _ Htk) in Hp1.
    - now rewrite <- app_assoc. }
  assert (Hle1 : forall x, x ∈ rest -> x ∉ le1).
  { intros x Hx. unfold le1, Sock.TAILQ_INSERT_TAIL.
    destruct (tx_expired m t); [| apply Hle; now right].
    intros Hin. apply elem_of_app in Hin as [Hin | Hin].
    - revert Hin. apply Hle. now right.
    - apply list_elem_of_singleton in Hin. subst x. contradiction. }
  assert (Hlt1 : forall x, x ∈ rest -> (x < length (m_entry m1))%nat).
  { intros x Hx. rewrite Hen1. apply Hlt. now right. }
  assert (Hep1 : ep_lock ∉ m_held m1) by (now rewrite Hh1).
  destruct (IH kept1 le1 m1 fuel Hp1' He1 Hle1 Hr1 Hlt1 Hk1 Hep1 ltac:(lia))
    as (m' & Eloop & Hp' & He' & Hfr' & Hk' & Hq' & Hother' & Hframe').
  exists m'. split; [exact Eloop |].
  rewrite (filter_ext_elem_of _ (fun x => negb (tx_expired m x)) rest) in Hp'
    by (intros x Hx; now rewrite Hexp).
  rewrite (filter_ext_elem_of _ (tx_expired m) rest) in He'
    by (intros x Hx; now rewrite Hexp).
  split.
  { cbn [List.filter]. unfold kept1 in Hp'.
    destruct (tx_expired m t); cbn [negb]; [exact Hp' |].
    now rewrite <- app_assoc in Hp'. }
  split.
  { cbn [List.filter]. unfold le1, Sock.TAILQ_INSERT_TAIL in He'.
    destruct (tx_expired m t); [| exact He'].
    now rewrite <- app_assoc in He'. }
  split; [exact (pass_frame_trans _ _ _ Hfr Hfr') |].
  split; [exact Hk' |].
  split; [| split].
  - intros x Hx. apply elem_of_cons in Hx as [-> | Hx].
    + exists tx, tx'. split; [exact Htx |]. split; [| exact Hvis].
      rewrite (Hother' t Hnt), Htxs.
      apply list_lookup_insert_eq. now apply lookup_lt_Some in Htx.
    + destruct (Hq' x Hx) as (txa & txb & Ha & Hb & Hv).
      exists txa, txb. rewrite <- (Hexp x Hx).
      rewrite <- (Hsame x) by (intros ->; contradiction). auto.
  - intros x Hx. apply not_elem_of_cons in Hx as [Hxt Hx].
    rewrite (Hother' x Hx). now apply Hsame.
  - intros h2 l2 Hh2 Hh2' Hq2 Hdis2. apply Hframe'; try assumption.
    + now apply Hq1.
    + intros x Hx. apply Hdis2. unfold kept1 in Hx.
      apply elem_of_app. apply elem_of_app in Hx as [Hx | Hx].
      * destruct (tx_expired m t); [now left |].
        apply elem_of_app in Hx as [Hx | Hx]; [now left |].
        apply list_elem_of_singleton in Hx. subst x. right. left.
      * right. now right.
Qed.

(** X8.  One pending pass, as a whole, on lists as the link fields spell
    them.  The pending list is well formed and holds the descriptors of
    [l]; the endpoint's event queue is well formed and holds the events
    of [le], none of them the event of a descriptor of [l]; every
    descriptor of [l] is the descriptor of a send in flight; [sdev->lock]
    and [ep->lock] are free; every descriptor has its two link fields.
    Then [sock_progress_pending] walks the whole list and returns,
    whatever [sendto] answers (a failure is not noticed, since
    [sock_sendto] never gives -1), with the same mutexes held as before.
    Every descriptor of [l] gets one more cycle and one more resend;
    those that have reached the endpoint's or the connection's timeout
    leave the pending list and join the endpoint's event queue at its
    tail, in list order, with status [CCI_ETIMEDOUT]; the others stay, in
    order, with their status as it was.  Both lists are well formed
    afterwards, the other descriptors and the connections are not
    touched, and a well-formed queued or idle list stays as it is. *)
Theorem pending_pass_on_links (m : mem) (l le : list nat) :
  is_tailq pending dentry l m ->
  is_tailq evts entry le m ->
  (forall t, t ∈ l -> t ∉ le) ->
  (forall t, t ∈ l -> tx_in_flight m t) ->
  errnos_positive (m_kernel m) ->
  sdev_lock ∉ m_held m -> ep_lock ∉ m_held m ->
  length (m_dentry m) = length (m_txs m) ->
  length (m_entry m) = length (m_txs m) ->
  exists m',
    sock_progress_pending m = Ok tt m'
    /\ is_tailq pending dentry
         (List.filter (fun t => negb (tx_expired m t)) l) m'
    /\ is_tailq evts entry (le ++ List.filter (tx_expired m) l) m'
    /\ pass_frame m m'
    /\ (forall t, t ∈ l ->
          exists tx tx',
            m_txs m !! t = Some tx /\ m_txs m' !! t = Some tx'
            /\ pending_visited (tx_expired m t) tx tx')
    /\ (forall t, t ∉ l -> m_txs m' !! t = m_txs m !! t)
    /\ (forall h2 l2,
          h2 <> pending -> h2 <> evts -> is_tailq h2 dentry l2 m ->
          is_tailq h2 dentry l2 m').
Proof.
  intros Hp He Hle Hr Hk Hsd Hep Hld Hlen.
  unfold sock_progress_pending.
  rewrite (bind_ok _ _ _ _ _ (pthread_mutex_lock_free _ _ Hsd)).
  set (m0 := with_held _ m).
  assert (Hp0 : is_tailq pending dentry ([] ++ l) m0)
    by (now apply (is_tailq_same _ _ _ m)).
  assert (He0 : is_tailq evts entry le m0)
    by (now apply (is_tailq_same _ _ _ m)).
  assert (Hlt0 : forall x, x ∈ l -> (x < length (m_entry m0))%nat).
  { intros x Hx. change (m_entry m0) with (m_entry m). rewrite Hlen, <- Hld.
    destruct Hp as (_ & _ & Hc & _). exact (chain_lt _ _ _ _ _ Hc Hx). }
  assert (Hep0 : ep_lock ∉ m_held m0).
  { cbn. apply not_elem_of_cons. split; [discriminate | exact Hep]. }
  assert (Hfuel : (length l <= length (m_txs m0))%nat).
  { change (m_txs m0) with (m_txs m). rewrite <- Hld.
    exact (is_tailq_length _ _ _ _ Hp). }
  assert (Hfirst : tqh_first (head_of pending m0) = List.head l).
  { destruct Hp as (_ & Hf & _). exact Hf. }
  destruct (pending_loop_links l [] le m0 _ Hp0 He0 Hle Hr Hlt0 Hk Hep0 Hfuel)
    as (m1 & Eloop & Hp1 & He1 & Hfr1 & _ & Hq1 & Hother1 & Hframe1).
  rewrite <- Hfirst in Eloop.
  rewrite (bind_ok (TAILQ_FOREACH_SAFE pending dentry sock_progress_pending_tx)
             _ m0 Continue m1 Eloop).
  pose proof Hfr1 as (F1 & F2 & F3 & F4 & F5 & F6 & F7 & F8 & F9).
  assert (Hsd1 : sdev_lock ∈ m_held m1) by (rewrite F6; left).
  rewrite (pthread_mutex_unlock_held _ _ Hsd1).
  eexists. split; [reflexivity |].
  split; [now apply (is_tailq_same _ _ _ m1) |].
  split; [now apply (is_tailq_same _ _ _ m1) |].
  split.
  { unfold pass_frame. cbn [m_held with_held]. rewrite F6.
    cbn [m0 m_held with_held]. rewrite (unlock_after_lock _ _ Hsd).
    cbn. auto 10. }
  split; [exact Hq1 |]. split; [exact Hother1 |].
  intros h2 l2 Hh2 Hh2' Hq2.
  apply (is_tailq_same _ _ _ m1); try reflexivity.
  apply Hframe1; try assumption.
  intros x Hx. apply (is_tailq_disjoint pending h2 dentry l l2 m); auto.
Qed.

(** *** The two theorems at sample memories *)

Lemma pending_pass_on_links_witness :
  exists m',
    sock_progress_pending (two_in_flight 100) = Ok tt m'
    /\ tailq pending dentry (two_in_flight 100) = [0%nat; 1%nat]
    /\ tailq pending dentry m' = [1%nat]
    /\ tailq evts entry m' = [0%nat]
    /\ m_held m' = [].
Proof.
  destruct (pending_pass_on_links (two_in_flight 100) [0%nat; 1%nat] [])
    as (m' & E & Hp & He & Hfr & _).
  - split; [| cbn; auto 10]. apply NoDup_cons. split.
    + intros Hin. apply list_elem_of_singleton in Hin. discriminate.
    + apply NoDup_singleton.
  - split; [apply NoDup_nil_2 | cbn; auto].
  - intros t _ Hin. now apply elem_of_nil in Hin.
  - intros t Ht.
    apply elem_of_cons in Ht as [-> | Ht];
      [| apply list_elem_of_singleton in Ht; subst t].
    + eexists _, _, _, _, _, _. cbn. repeat split; try reflexivity.
      cbn. discriminate.
    + eexists _, _, _, _, _, _. cbn. repeat split; try reflexivity.
      cbn. discriminate.
  - intros e He. apply list_elem_of_singleton in He.
    injection He as ->. reflexivity.
  - intros Hin. now apply elem_of_nil in Hin.
  - intros Hin. now apply elem_of_nil in Hin.
  - reflexivity.
  - reflexivity.
  - destruct Hfr as (_ & _ & _ & _ & _ & Hh & Ht & Hd & Hen).
    exists m'. split; [exact E |]. split; [reflexivity |].
    split; [| split].
    + apply (is_tailq_tailq _ _ _ _ Hp). cbn [links]. rewrite Hd, Ht.
      vm_compute. lia.
    + apply (is_tailq_tailq _ _ _ _ He). cbn [links]. rewrite Hen, Ht.
      vm_compute. lia.
    + exact Hh.
Defined.

Lemma tailq_macros_act_on_lists_witness :
  let m := after (SockLinks.TAILQ_INSERT_TAIL pending 0 dentry) (two_txs 100) in
  tailq pending dentry m = [0%nat]
  /\ (exists m',
        SockLinks.TAILQ_INSERT_TAIL pending 1 dentry m = Ok tt m'
        /\ tailq pending dentry m' = [0%nat; 1%nat])
  /\ (exists m',
        SockLinks.TAILQ_INSERT_HEAD pending 1 dentry m = Ok tt m'
        /\ tailq pending dentry m' = [1%nat; 0%nat])
  /\ (exists m',
        SockLinks.TAILQ_REMOVE pending 0 dentry m = Ok tt m'
        /\ tailq pending dentry m' = []).
Proof.
  intros m.
  assert (Hq : is_tailq pending dentry [0%nat] m).
  { split; [apply NoDup_singleton | cbn; auto 10]. }
  destruct (tailq_macros_act_on_lists pending dentry [0%nat] m 1 Hq)
    as (Hw & Hins & _); [vm_compute; lia | vm_compute; lia |].
  destruct (tailq_macros_act_on_lists pending dentry [0%nat] m 0 Hq)
    as (_ & _ & Hrem); [vm_compute; lia | vm_compute; lia |].
  split; [exact Hw |].
  destruct Hins as [(m1 & E1 & _ & W1 & _) (m2 & E2 & _ & W2 & _)].
  { intros Hin. apply list_elem_of_singleton in Hin. discriminate. }
  destruct Hrem as (m3 & E3 & _ & W3 & _); [left |].
  split; [exists m1; auto |]. split; [exists m2; auto |]. exists m3; auto.
Defined.

End SockQueueProps.

(* ===================================================================== *)
(** ** The RMA engine: what a transfer moves *)
(* ===================================================================== *)

Module RmaProps.
Import Sock.
Import Rma.

Lemma length_slice (b : list Z) (off len : nat) :
  (off + len <= length b)%nat -> length (slice b off len) = len.
Proof.
  intros Hb. unfold slice. rewrite length_take, length_drop. lia.
Qed.


Lemma length_write_at (off : nat) (data b : list Z) :
  (off + length data <= length b)%nat ->
  length (write_at off data b) = length b.
Proof.
  intros Hb. unfold write_at.
  rewrite !length_app, length_take, length_drop. lia.
Qed.


Lemma segments_cons fuel frag o len :
  (0 < len)%nat ->
  segments (S fuel) frag o len
  = (o, Nat.min frag len)
      :: segments fuel frag (o + Nat.min frag len) (len - Nat.min frag len).
Proof. intros Hl. cbn [segments]. destruct len; [lia | reflexivity]. Qed.




(** *** A valid transfer succeeds *)

Lemma rma_write_total (frag : nat) (src : list Z) (lo : nat) (token : Z)
    (ro : nat) (fuel : nat) :
  (0 < frag)%nat ->
  forall (o len : nat) (remote : gmap Z registration) (r : registration),
    (len <= fuel)%nat ->
    (lo + o + len <= length src)%nat ->
    remote !! token = Some r ->
    allows r CCI_FLAG_WRITE = true ->
    (ro + o + len <= length (reg_bytes r))%nat ->
    is_Some (rma_write (segments fuel frag o len) src lo token ro remote).
Proof.
  intros Hfrag. induction fuel as [|fuel IH];
    intros o len remote r Hf Hs Hr Ha Hd.
  - cbn. eauto.
  - destruct (decide (len = 0)%nat) as [-> | Hlen]; [cbn; eauto |].
    rewrite segments_cons by lia.
    set (n := Nat.min frag len).
    assert (Hn : (0 < n <= len)%nat) by (unfold n; lia).
    cbn [rma_write]. unfold recv_write. rewrite Hr.
    assert (Hl : length (slice src (lo + o) n) = n).
    { apply length_slice. lia. }
    rewrite Hl, Ha. unfold in_region.
    rewrite (proj2 (Nat.leb_le (ro + o + n) (length (reg_bytes r)))) by lia.
    cbn [andb].
    apply (IH (o + n)%nat (len - n)%nat _
             {| reg_bytes := write_at (ro + o) (slice src (lo + o) n)
                               (reg_bytes r);
                reg_flags := reg_flags r |}); try lia.
    + apply lookup_insert_eq.
    + exact Ha.
    + cbn [reg_bytes]. rewrite length_write_at by lia. lia.
Qed.

Lemma rma_read_total (frag : nat) (lo : nat) (token : Z) (ro : nat)
    (remote : gmap Z registration) (r : registration) (fuel : nat) :
  (0 < frag)%nat ->
  remote !! token = Some r ->
  allows r CCI_FLAG_READ = true ->
  forall (o len : nat) (dst : list Z),
    (len <= fuel)%nat ->
    (lo + o + len <= length dst)%nat ->
    (ro + o + len <= length (reg_bytes r))%nat ->
    is_Some (rma_read (segments fuel frag o len) dst lo token ro remote).
Proof.
  intros Hfrag Hr Ha. induction fuel as [|fuel IH];
    intros o len dst Hf Hd Hs.
  - cbn. eauto.
  - destruct (decide (len = 0)%nat) as [-> | Hlen]; [cbn; eauto |].
    rewrite segments_cons by lia.
    set (n := Nat.min frag len).
    assert (Hn : (0 < n <= len)%nat) by (unfold n; lia).
    cbn [rma_read]. unfold recv_read_req. rewrite Hr, Ha. unfold in_region.
    rewrite (proj2 (Nat.leb_le (ro + o + n) (length (reg_bytes r)))) by lia.
    cbn [andb].
    assert (Hl : length (slice (reg_bytes r) (ro + o) n) = n)
      by (apply length_slice; lia).
    apply IH; try lia.
    rewrite length_write_at by (rewrite Hl; lia). lia.
Qed.

(** On a reliable connection, with exactly one of READ and WRITE, a
    registered local handle, a remote handle that is registered for the
    operation, and both windows inside their regions, [rma] succeeds. *)
Lemma rma_succeeds (max_send_size transport_mtu : positive) (w : rma_world)
    (attribute_ local_handle : Z) (local_offset : nat) (remote_handle : Z)
    (remote_offset len : nat) (flags_ : Z) (l r : registration) :
  attribute_ = CCI_CONN_ATTR_RO \/ attribute_ = CCI_CONN_ATTR_RU ->
  flags_ = CCI_FLAG_READ \/ flags_ = CCI_FLAG_WRITE ->
  local_regs w !! local_handle = Some l ->
  (local_offset + len <= length (reg_bytes l))%nat ->
  remote_regs w !! remote_handle = Some r ->
  allows r flags_ = true ->
  (remote_offset + len <= length (reg_bytes r))%nat ->
  exists w',
    rma max_send_size transport_mtu w attribute_ local_handle local_offset
      remote_handle remote_offset len flags_ = (CCI_SUCCESS, w').
Proof.
  intros Ha Hf Hl Hlr Hr Hp Hrr. unfold rma.
  replace ((attribute_ =? CCI_CONN_ATTR_RO) || (attribute_ =? CCI_CONN_ATTR_RU))
    with true by lia.
  cbn [negb]. rewrite Hl. unfold in_region.
  rewrite (proj2 (Nat.leb_le (local_offset + len) (length (reg_bytes l)))) by lia.
  set (frag := Pos.to_nat (Pos.min max_send_size transport_mtu)).
  assert (Hfrag : (0 < frag)%nat) by (unfold frag; lia).
  destruct Hf as [-> | ->]; cbn [negb xorb Z.land Z.eqb CCI_FLAG_READ
                                 CCI_FLAG_WRITE].
  - change (Z.land CCI_FLAG_READ CCI_FLAG_READ =? 0) with false.
    change (Z.land CCI_FLAG_READ CCI_FLAG_WRITE =? 0) with true.
    cbn [negb xorb].
    destruct (rma_read_total frag local_offset remote_handle remote_offset
                (remote_regs w) r len Hfrag Hr Hp 0%nat len (reg_bytes l)
                (Nat.le_refl _) ltac:(lia) ltac:(lia)) as [bytes ->].
    eauto.
  - change (Z.land CCI_FLAG_WRITE CCI_FLAG_READ =? 0) with true.
    change (Z.land CCI_FLAG_WRITE CCI_FLAG_WRITE =? 0) with false.
    cbn [negb xorb].
    destruct (rma_write_total frag (reg_bytes l) local_offset remote_handle
                remote_offset len Hfrag 0%nat len (remote_regs w) r
                (Nat.le_refl _) ltac:(lia) Hr Hp ltac:(lia)) as [remote' ->].
    eauto.
Qed.

Section Transfer.
Variable crc32 : Z -> list Z -> Z.


End Transfer.


End RmaProps.

(* ===================================================================== *)
(** ** rma_verify *)
(* ===================================================================== *)

Module RmaVerifyProps.
Import RmaVerify.

(** X17.  The options [main] goes on with.  When [main] gets past its
    checks, the program is either a server that was given no server URI as
    a client, or a client with a server URI, and -B and -I are not both
    set.  Both lengths are then non-zero: a length given on the command
    line is kept, a missing one takes the value of the other, and when
    both are missing both are [RMA_REG_LEN] (4 MiB).  So unless -R and -l
    are both given the two lengths are equal, and the warning about
    offsets is printed exactly when they are equal and an offset is not
    0. *)
Theorem main_settles_lengths (o o' : options) (warn : bool) :
  main_settle o = Some (o', warn) ->
  ((is_server o = true /\ is_client o = false)
   \/ (is_server o = false /\ is_Some (server_uri o)))
  /\ (blocking o && ignore_os_handle o = false)
  /\ reg_len o' <> 0
  /\ length_ o' <> 0
  /\ (reg_len o <> 0 -> reg_len o' = reg_len o)
  /\ (length_ o <> 0 -> length_ o' = length_ o)
  /\ (reg_len o = 0 \/ length_ o = 0 -> reg_len o' = length_ o')
  /\ (reg_len o = 0 -> length_ o = 0 -> reg_len o' = RMA_REG_LEN)
  /\ (warn = true
      <-> reg_len o' = length_ o'
          /\ (local_offset o <> 0 \/ remote_offset o <> 0))
  /\ local_offset o' = local_offset o
  /\ remote_offset o' = remote_offset o.
Proof.
  unfold main_settle.
  destruct (is_server o) eqn:Es; cbn [negb andb].
  - destruct (is_client o) eqn:Ec; [discriminate |].
    destruct (blocking o && ignore_os_handle o) eqn:Eb; [discriminate |].
    intros [= <- <-]. cbn [reg_len length_ local_offset remote_offset set_lengths].
    unfold RMA_REG_LEN.
    split; [left; auto |]. split; [reflexivity |].
    destruct (reg_len o =? 0) eqn:Er; destruct (length_ o =? 0) eqn:El;
      repeat match goal with
             | |- context [?a =? ?b] => destruct (a =? b) eqn:?
             end;
      cbn [negb andb orb]; repeat split; intros; try lia; try discriminate;
      try (destruct H; lia); try tauto.
  - destruct (bool_decide (is_Some (server_uri o))) eqn:Eu; cbn [negb];
      [| discriminate].
    apply bool_decide_eq_true in Eu.
    destruct (blocking o && ignore_os_handle o) eqn:Eb; [discriminate |].
    intros [= <- <-]. cbn [reg_len length_ local_offset remote_offset set_lengths].
    unfold RMA_REG_LEN.
    split; [right; auto |]. split; [reflexivity |].
    destruct (reg_len o =? 0) eqn:Er; destruct (length_ o =? 0) eqn:El;
      repeat match goal with
             | |- context [?a =? ?b] => destruct (a =? b) eqn:?
             end;
      cbn [negb andb orb]; repeat split; intros; try lia; try discriminate;
      try (destruct H; lia); try tauto.
Qed.

Lemma main_settles_lengths_witness :
  main_settle (sample_options 0 1024)
  = Some (set_lengths (sample_options 0 1024) 1024 1024, false)
  /\ reg_len (set_lengths (sample_options 0 1024) 1024 1024)
     = length_ (set_lengths (sample_options 0 1024) 1024 1024).
Proof.
  assert (E : main_settle (sample_options 0 1024)
              = Some (set_lengths (sample_options 0 1024) 1024 1024, false))
    by reflexivity.
  split; [exact E |].
  destruct (main_settles_lengths _ _ _ E)
    as (_ & _ & _ & _ & _ & _ & Heq & _).
  apply Heq. left. reflexivity.
Defined.

(** The loop of [do_client] from the size [2 ^ k] on. *)
Lemma do_client_sizes_from (d : nat) :
  forall (fuel : nat) (length_ k iters : Z),
    0 <= k ->
    1 <= length_ < 2 ^ 31 ->
    Z.of_nat d = Z.log2 length_ + 1 - k ->
    (d < fuel)%nat ->
    exists l,
      do_client_sizes fuel length_ (2 ^ k) iters = Some l
      /\ l.*1 = (fun j => 2 ^ (k + Z.of_nat j)) <$> seq 0 d
      /\ Forall (fun si : Z * Z => 1 <= iters -> 1 <= si.2 <= iters) l.
Proof.
  induction d as [|d IH]; intros fuel length_ k iters Hk Hl Hd Hf.
  - destruct fuel as [|fuel]; [lia |]. cbn [do_client_sizes].
    assert (Hgt : length_ < 2 ^ k).
    { replace k with (Z.succ (Z.log2 length_)) by lia.
      apply Z.log2_spec. lia. }
    replace (2 ^ k <=? length_) with false by lia.
    exists []. repeat split. constructor.
  - destruct fuel as [|fuel]; [lia |]. cbn [do_client_sizes].
    assert (Hm : Z.log2 length_ < 31).
    { apply Z.log2_lt_pow2; lia. }
    assert (Hle : 2 ^ k <= length_).
    { transitivity (2 ^ Z.log2 length_); [| apply Z.log2_spec; lia].
      apply Z.pow_le_mono_r; lia. }
    replace (2 ^ k <=? length_) with true by lia.
    assert (Hnext : uint32 (2 ^ k * 2) = 2 ^ (k + 1)).
    { rewrite Z.pow_add_r by lia. change (2 ^ 1) with 2.
      unfold uint32. apply Z.mod_small. split; [lia |].
      replace (2 ^ k * 2) with (2 ^ (k + 1))
        by (rewrite Z.pow_add_r by lia; reflexivity).
      apply Z.pow_lt_mono_r; lia. }
    rewrite Hnext.
    set (iters' := if 2 ^ (k + 1) >=? 64 * 1024
                   then (if iters >=? 32 then iters ÷ 2 else iters)
                   else iters).
    assert (Hi : 1 <= iters -> 1 <= iters' <= iters).
    { intros Hpos. unfold iters'.
      destruct (2 ^ (k + 1) >=? 64 * 1024); [| lia].
      destruct (iters >=? 32) eqn:E32; [| lia].
      rewrite Z.quot_div_nonneg by lia.
      split.
      - apply Z.div_le_lower_bound; lia.
      - apply Z.div_le_upper_bound; lia. }
    destruct (IH fuel length_ (k + 1) iters') as (l & -> & Hsizes & Hiters);
      try lia.
    eexists. split; [reflexivity |]. split.
    + cbn [fmap list_fmap fst seq]. rewrite Hsizes. f_equal.
      * now rewrite Z.add_0_r.
      * rewrite <- fmap_S_seq, <- list_fmap_compose.
        apply list_fmap_ext. intros _ j _. cbn. f_equal. lia.
    + constructor; [cbn; lia |].
      eapply Forall_impl; [exact Hiters |].
      intros si Hsi Hpos. specialize (Hi Hpos). specialize (Hsi ltac:(lia)). lia.
Qed.

(** X18.  The sizes the client tests.  For a maximal length from 1 up to
    2^31 - 1 the loop of [do_client] ends; on a run where every transfer
    completes it tests exactly the powers of two up to the length, in
    increasing order, starting with 1.  The number of iterations in force
    never grows and, having started at 1 or more, never falls below 1. *)
Theorem do_client_tests_powers_of_two (length_ iters : Z) :
  1 <= length_ < 2 ^ 31 ->
  exists l,
    do_client_sizes 32 length_ 1 iters = Some l
    /\ l.*1 = (fun j => 2 ^ Z.of_nat j)
                <$> seq 0 (S (Z.to_nat (Z.log2 length_)))
    /\ Forall (fun si : Z * Z => 1 <= si.1 <= length_) l
    /\ Forall (fun si : Z * Z => 1 <= iters -> 1 <= si.2 <= iters) l.
Proof.
  intros Hl.
  assert (Hm0 : 0 <= Z.log2 length_) by apply Z.log2_nonneg.
  assert (Hm : Z.log2 length_ < 31) by (apply Z.log2_lt_pow2; lia).
  destruct (do_client_sizes_from (S (Z.to_nat (Z.log2 length_))) 32 length_ 0
              iters) as (l & E & Hsizes & Hiters); try lia.
  change (2 ^ 0) with 1 in E.
  exists l. split; [exact E |]. split; [exact Hsizes |]. split; [| exact Hiters].
  assert (Hs : Forall (fun s : Z => 1 <= s <= length_) (l.*1)).
  { rewrite Hsizes. apply Forall_fmap, Forall_forall. intros j Hj.
    apply elem_of_seq in Hj. cbn [compose]. rewrite Z.add_0_l. split.
    - apply (Z.pow_le_mono_r 2 0); lia.
    - transitivity (2 ^ Z.log2 length_); [| apply Z.log2_spec; lia].
      apply Z.pow_le_mono_r; lia. }
  apply Forall_fmap in Hs. exact Hs.
Qed.

Lemma do_client_tests_powers_of_two_witness :
  exists l,
    do_client_sizes 32 5 1 ITERS = Some l
    /\ l.*1 = [1; 2; 4].
Proof.
  destruct (do_client_tests_powers_of_two 5 ITERS ltac:(lia))
    as (l & E & Hsizes & _).
  exists l. split; [exact E | exact Hsizes].
Defined.

End RmaVerifyProps.

(* ===================================================================== *)
(** ** cci.h and the GNI header *)
(* ===================================================================== *)

Module HeaderProps.
Import CciH Gni.

(** X19.  Event type names.  [cci_event_type_str] gives every event type
    of the enumeration a name of its own, and "Unknown event" to every
    other value and to no event type: a name that is not "Unknown event"
    determines the type. *)
Theorem cci_event_type_str_names_the_type (a b : Z) :
  cci_event_type_str a = cci_event_type_str b ->
  (cci_event_type_str a = "Unknown event"
   <-> ~ (CCI_EVENT_NONE <= a <= CCI_EVENT_ENDPOINT_DEVICE_FAILED))
  /\ (CCI_EVENT_NONE <= a <= CCI_EVENT_ENDPOINT_DEVICE_FAILED -> a = b).
Proof.
  unfold cci_event_type_str, CCI_EVENT_NONE, CCI_EVENT_SEND, CCI_EVENT_RECV,
    CCI_EVENT_CONNECT, CCI_EVENT_CONNECT_REQUEST, CCI_EVENT_ACCEPT,
    CCI_EVENT_KEEPALIVE_TIMEDOUT, CCI_EVENT_ENDPOINT_DEVICE_FAILED.
  repeat match goal with
         | |- context [a =? ?c] => destruct (Z.eqb_spec a c)
         end;
    repeat match goal with
           | |- context [b =? ?c] => destruct (Z.eqb_spec b c)
           end;
    intros Heq; try discriminate Heq;
    (split; [split; [intros Hu; try discriminate Hu; lia
                    | intros Hn; first [reflexivity | lia]]
            | intros Hr; lia]).
Qed.

Lemma cci_event_type_str_names_the_type_witness :
  cci_event_type_str CCI_EVENT_ACCEPT = cci_event_type_str 5
  /\ cci_event_type_str CCI_EVENT_ACCEPT <> "Unknown event"
  /\ CCI_EVENT_ACCEPT = 5.
Proof.
  assert (E : cci_event_type_str CCI_EVENT_ACCEPT = cci_event_type_str 5)
    by reflexivity.
  split; [exact E |].
  destruct (cci_event_type_str_names_the_type CCI_EVENT_ACCEPT 5 E)
    as [Hunknown Hsame].
  assert (Hr : CCI_EVENT_NONE <= CCI_EVENT_ACCEPT
               <= CCI_EVENT_ENDPOINT_DEVICE_FAILED).
  { unfold CCI_EVENT_NONE, CCI_EVENT_ACCEPT, CCI_EVENT_ENDPOINT_DEVICE_FAILED.
    lia. }
  split; [| exact (Hsame Hr)].
  intros Hu. apply (proj1 Hunknown) in Hu. contradiction.
Defined.

(** X20.  Time stamps in microseconds.  For time values as
    [gettimeofday] gives them, [gni_tv_to_usecs] does not overflow, the
    seconds and microseconds can be read back from its result, and the
    result orders time values as they are ordered in time; in particular
    two different time values give different results. *)
Theorem gni_tv_to_usecs_orders_time (a b : timeval) :
  normal a -> normal b ->
  exists ua ub,
    gni_tv_to_usecs a = Some ua
    /\ gni_tv_to_usecs b = Some ub
    /\ ua / 1000000 = tv_sec a
    /\ ua mod 1000000 = tv_usec a
    /\ (ua <= ub <-> tv_le a b)
    /\ (ua = ub -> a = b).
Proof.
  intros [Hsa Hua] [Hsb Hub].
  assert (Hconv : forall tv, 0 <= tv_sec tv < 2 ^ 40 ->
                             0 <= tv_usec tv < 1000000 ->
            gni_tv_to_usecs tv = Some (tv_sec tv * 1000000 + tv_usec tv)).
  { intros tv Hs Hu. unfold gni_tv_to_usecs, long_range.
    replace ((- 2 ^ 63 <=? tv_sec tv * 1000000)
             && (tv_sec tv * 1000000 <? 2 ^ 63)) with true by lia.
    replace ((- 2 ^ 63 <=? tv_sec tv * 1000000 + tv_usec tv)
             && (tv_sec tv * 1000000 + tv_usec tv <? 2 ^ 63)) with true by lia.
    now rewrite Z.mod_small by lia. }
  exists (tv_sec a * 1000000 + tv_usec a), (tv_sec b * 1000000 + tv_usec b).
  split; [now apply Hconv |]. split; [now apply Hconv |].
  split; [symmetry; apply (Z.div_unique _ _ _ (tv_usec a)); lia |].
  split; [symmetry; apply (Z.mod_unique _ _ (tv_sec a)); lia |].
  split; [unfold tv_le; lia |].
  intros Heq. destruct a as [sa usa], b as [sb usb]. cbn in *.
  assert (sa = sb) by lia. subst sb. f_equal. lia.
Qed.

Lemma gni_tv_to_usecs_orders_time_witness :
  gni_tv_to_usecs {| tv_sec := 2; tv_usec := 999999 |} = Some 2999999
  /\ gni_tv_to_usecs {| tv_sec := 3; tv_usec := 0 |} = Some 3000000
  /\ exists ua ub,
       gni_tv_to_usecs {| tv_sec := 2; tv_usec := 999999 |} = Some ua
       /\ gni_tv_to_usecs {| tv_sec := 3; tv_usec := 0 |} = Some ub
       /\ ua <= ub.
Proof.
  split; [reflexivity |]. split; [reflexivity |].
  destruct (gni_tv_to_usecs_orders_time
              {| tv_sec := 2; tv_usec := 999999 |}
              {| tv_sec := 3; tv_usec := 0 |})
    as (ua & ub & Ea & Eb & _ & _ & Hle & _).
  - unfold normal. cbn. lia.
  - unfold normal. cbn. lia.
  - exists ua, ub. split; [exact Ea |]. split; [exact Eb |].
    apply Hle. left. cbn. lia.
Defined.

End HeaderProps.
